(** * Address recovery scan of the lite wallet (wasm/modules/recovery.go)

    A shallow embedding of the recovery scan: the round partitioner, the
    per-round worker body, the consuming loop of [RecoverAddresses] with its
    termination monitor ([consecutiveEmptyRounds]) and aggregator, and the
    final report.

    Conventions.
    - A Go [uint64] is a [Z] in [0, 2^64); every addition, subtraction and
      increment of the source is followed by [wrap64].
    - A Go [map] is a [gmap]; reading a missing key of a [map[uint64]bool]
      gives [false].
    - A Go [error] is its message, a [string]; [nil] is [None].
    - The channel [results] is represented by the list of values the
      consuming loop receives from it, in arrival order, until it is closed.
      The channel [done] is a boolean: [true] once closed.
    - The goroutines are interleaved by an explicit schedule
      ([run_schedule]); the properties of whole runs hold for every
      schedule. *)

From stdpp Require Import base tactics option list numbers strings gmap pretty sorting.
From Stdlib Require Import ZArith Lia.

Local Open Scope Z_scope.

(** ** Machine integers *)

Definition two64 : Z := 2 ^ 64.

Definition wrap64 (z : Z) : Z := z mod two64.

Definition uint64 (z : Z) : Prop := 0 ≤ z < two64.

(** [len(s)] of a Go slice is an [int]: at most [2^63 - 1]. *)
Definition slice_len {A} (s : list A) : Prop := Z.of_nat (length s) < 2 ^ 63.

(** ** External collaborators *)

(** The wallet package: recovery of a wallet from its seed, key derivation,
    and the two renderings of a key's unlock conditions the scan uses. *)
Class WalletAPI := {
  SeedWallet : Type;
  SiaUnlockConditions : Type;
  WalletUnlockConditions : Type;
  recoverWallet : string → string → SeedWallet + string;
  GetAddress : SeedWallet → Z → SiaUnlockConditions;
  UnlockHashString : SiaUnlockConditions → string;
  mapUnlockConditions : SiaUnlockConditions → WalletUnlockConditions
}.

(** ** Data model *)

Record recoveryWork := {
  wRound : Z;
  wStart : Z;
  wEnd : Z
}.

Record recoveredAddress `{WalletAPI} := {
  Address : string;
  UsageType : string;
  Index : Z;
  UnlockConditions : WalletUnlockConditions
}.

Record recoveryResults `{WalletAPI} := {
  Round : Z;
  LastUsedIndex : Z;
  Start : Z;
  End : Z;
  LastUsedType : string;
  Addresses : list recoveredAddress;
  Error : option string
}.

(** One entry of the explorer's answer to [FindUsedAddresses]. *)
Record addressUsage := {
  uAddress : string;
  uUsageType : string
}.

(** The maps handed to [interfaceToJSON]: the progress map
    [{found, addresses, index}] and the final map [{addresses, index}]. *)
Inductive payload `{WalletAPI} :=
| ProgressData (found : Z) (addresses : list recoveredAddress) (index : Z)
| DoneData (addresses : list recoveredAddress) (index : Z).

(** The explorer client and the JSON bridge. *)
Class Services `{WalletAPI} := {
  JSON : Type;
  FindUsedAddresses : string → list string → list addressUsage + string;
  interfaceToJSON : payload → JSON + string
}.

(** What the caller's callback is invoked with.  [callback.Invoke("progress",
    data)] is [EvProgress], [callback.Invoke(msg, js.Null())] is [EvError]
    and [callback.Invoke(js.Null(), data)] is [EvDone].  [data] is the
    encoding of a [payload]; the event keeps the fields that were encoded. *)
Inductive event `{WalletAPI} :=
| EvProgress (found : Z) (addresses : list recoveredAddress) (index : Z)
| EvError (msg : string)
| EvDone (addresses : list recoveredAddress) (index : Z).

(** The local variables of the consuming loop, and the [done] channel. *)
Record scanState := {
  lastIndex : Z;
  usedTotal : Z;
  lastUsageType : string;
  empty : list Z;
  done : bool
}.

(** The local variables [i] and [round] of the partitioner goroutine. *)
Record partitioner := {
  pIndex : Z;
  pRound : Z
}.

Section Scan.
Context {wallet_api : WalletAPI} {services : Services}.

(** ** [consecutiveEmptyRounds] *)

(** First loop: fill [roundMap] and find the largest round. *)
Definition collect_rounds (rounds : list Z) : Z * gmap Z bool :=
  fold_left
    (λ (acc : Z * gmap Z bool) (r : Z),
       let roundMap := <[r := true]> acc.2 in
       (if acc.1 <? r then r else acc.1, roundMap))
    rounds (0, ∅).

(** [roundMap[i]] *)
Definition exists_round (roundMap : gmap Z bool) (i : Z) : bool :=
  default false (roundMap !! i).

(** Second loop: [for { if !roundMap[i] { break }; i-- }].  The loop has no
    bound of its own, so the model counts iterations down from [fuel];
    [None] means the loop was still running when the fuel ran out. *)
Fixpoint walk_down (fuel : nat) (roundMap : gmap Z bool) (i : Z) : option Z :=
  match fuel with
  | O => None
  | S fuel' =>
    if exists_round roundMap i
    then walk_down fuel' roundMap (wrap64 (i - 1))
    else Some i
  end.

Definition consecutiveEmptyRounds_fuel (fuel : nat) (rounds : list Z) : option Z :=
  let '(lastRound, roundMap) := collect_rounds rounds in
  i ← walk_down fuel roundMap lastRound;
  Some (wrap64 (lastRound - i)).

(** The walk meets a new key of [roundMap] at each iteration that continues,
    so [length rounds + 1] iterations are enough whenever the loop ends at
    all (lemma [consecutiveEmptyRounds_fuel_complete]). *)
Definition consecutiveEmptyRounds (rounds : list Z) : option Z :=
  consecutiveEmptyRounds_fuel (S (length rounds)) rounds.

(** ** [generateAddress] *)

Definition generateAddress (w : SeedWallet) (i : Z) : recoveredAddress :=
  let key := GetAddress w i in
  {| Address := UnlockHashString key;
     UsageType := "";
     Index := i;
     UnlockConditions := mapUnlockConditions key |}.

(** ** [recoveryWorker] *)

(** The indices visited by [for i := r.Start; i < r.End; i++]. *)
Definition round_indices (r : recoveryWork) : list Z :=
  seqZ (wStart r) (wEnd r - wStart r).

(** The loop that derives the addresses of a round: [addressMap] and
    [addresses]. *)
Definition worker_generate (w : SeedWallet) (r : recoveryWork)
    : gmap string recoveredAddress * list string :=
  fold_left
    (λ (acc : gmap string recoveredAddress * list string) (i : Z),
       let addr := generateAddress w i in
       (<[Address addr := addr]> acc.1, acc.2 ++ [Address addr]))
    (round_indices r) (∅, []).

(** One iteration of [for _, usage := range used]. *)
Definition worker_use (addressMap : gmap string recoveredAddress)
    (recovered : recoveryResults) (usage : addressUsage) : recoveryResults :=
  match addressMap !! uAddress usage with
  | None => recovered
  | Some a =>
    let addr := {| Address := Address a;
                   UsageType := uUsageType usage;
                   Index := Index a;
                   UnlockConditions := UnlockConditions a |} in
    let addresses := Addresses recovered ++ [addr] in
    if LastUsedIndex recovered <? Index addr
    then {| Round := Round recovered;
            LastUsedIndex := Index addr;
            Start := Start recovered;
            End := End recovered;
            LastUsedType := UsageType addr;
            Addresses := addresses;
            Error := Error recovered |}
    else {| Round := Round recovered;
            LastUsedIndex := LastUsedIndex recovered;
            Start := Start recovered;
            End := End recovered;
            LastUsedType := LastUsedType recovered;
            Addresses := addresses;
            Error := Error recovered |}
  end.

(** What the worker sends for round [r] once the explorer has answered
    [resp]. *)
Definition recoveryWorker_answer (w : SeedWallet) (r : recoveryWork)
    (resp : list addressUsage + string) : recoveryResults :=
  match resp with
  | inr err =>
    {| Round := 0; LastUsedIndex := 0; Start := 0; End := 0;
       LastUsedType := ""; Addresses := [];
       Error := Some ("unable to get used addresses: " +:+ err) |}
  | inl used =>
    fold_left (worker_use (worker_generate w r).1) used
      {| Round := wRound r; LastUsedIndex := 0; Start := wStart r;
         End := wEnd r; LastUsedType := ""; Addresses := [];
         Error := None |}
  end.

(** The body of [for r := range work] for one round. *)
Definition recoveryWorker_round (w : SeedWallet) (currency : string)
    (r : recoveryWork) : recoveryResults :=
  recoveryWorker_answer w r
    (FindUsedAddresses currency (worker_generate w r).2).

(** One worker over the rounds it takes from [work]: it returns after the
    first failed lookup. *)
Fixpoint recoveryWorker (w : SeedWallet) (currency : string)
    (work : list recoveryWork) : list recoveryResults :=
  match work with
  | [] => []
  | r :: work' =>
    let res := recoveryWorker_round w currency r in
    match Error res with
    | Some _ => [res]
    | None => res :: recoveryWorker w currency work'
    end
  end.

(** ** The partitioner goroutine of [RecoverAddresses] *)

Definition partitioner_init (startIndex : Z) : partitioner :=
  {| pIndex := startIndex; pRound := 0 |}.

(** The value sent on [work] in the current iteration. *)
Definition partitioner_work (addressCount : Z) (p : partitioner) : recoveryWork :=
  {| wRound := pRound p;
     wStart := pIndex p;
     wEnd := wrap64 (pIndex p + addressCount) |}.

(** [round++] and the loop's [i += addressCount]. *)
Definition partitioner_next (addressCount : Z) (p : partitioner) : partitioner :=
  {| pIndex := wrap64 (pIndex p + addressCount);
     pRound := wrap64 (pRound p + 1) |}.

(** One iteration: [None] when [done] is seen closed (the goroutine closes
    [work] and returns), otherwise the round sent and the next state. *)
Definition partitioner_step (addressCount : Z) (closed : bool) (p : partitioner)
    : option (recoveryWork * partitioner) :=
  if closed then None
  else Some (partitioner_work addressCount p, partitioner_next addressCount p).

(** The round sent in iteration [n] (counted from 0). *)
Definition issued (startIndex addressCount : Z) (n : nat) : recoveryWork :=
  partitioner_work addressCount
    (Nat.iter n (partitioner_next addressCount) (partitioner_init startIndex)).

(** ** The consuming loop of [RecoverAddresses] *)

Definition scan_init : scanState :=
  {| lastIndex := 0; usedTotal := 0; lastUsageType := ""; empty := []; done := false |}.

(** [select { case <-done: break; default: close(done) }] *)
Definition close_done (st : scanState) : scanState :=
  {| lastIndex := lastIndex st; usedTotal := usedTotal st;
     lastUsageType := lastUsageType st; empty := empty st; done := true |}.

(** The termination monitor: the [if len(res.Addresses) == 0 && ...] block. *)
Definition record_empty (maxEmptyRounds lastKnownIndex : Z) (st : scanState)
    (res : recoveryResults) : option scanState :=
  if (length (Addresses res) =? 0)%nat && (lastKnownIndex <=? End res)
  then
    let st' := {| lastIndex := lastIndex st; usedTotal := usedTotal st;
                  lastUsageType := lastUsageType st;
                  empty := empty st ++ [Round res]; done := done st |} in
    consecutive ← consecutiveEmptyRounds (empty st');
    Some (if maxEmptyRounds <=? consecutive then close_done st' else st')
  else Some st.

(** The aggregator: [usedTotal += ...] and the update of [lastIndex]. *)
Definition aggregate (st : scanState) (res : recoveryResults) : scanState :=
  let total := wrap64 (usedTotal st + Z.of_nat (length (Addresses res))) in
  if lastIndex st <? LastUsedIndex res
  then {| lastIndex := LastUsedIndex res; usedTotal := total;
          lastUsageType := LastUsedType res; empty := empty st; done := done st |}
  else {| lastIndex := lastIndex st; usedTotal := total;
          lastUsageType := lastUsageType st; empty := empty st; done := done st |}.

(** One iteration of [for res := range results].  The result is the new
    state, the callback invocations of the iteration, and whether the
    function returned from inside the loop. *)
Definition loop_body (maxEmptyRounds lastKnownIndex : Z) (st : scanState)
    (res : recoveryResults) : option (scanState * list event * bool) :=
  match Error res with
  | Some _ => Some (close_done st, [], false)
  | None =>
    st1 ← record_empty maxEmptyRounds lastKnownIndex st res;
    let st2 := aggregate st1 res in
    let found := Z.of_nat (length (Addresses res)) in
    match interfaceToJSON (ProgressData found (Addresses res) (lastIndex st2)) with
    | inr err => Some (st2, [EvError err], true)
    | inl _ => Some (st2, [EvProgress found (Addresses res) (lastIndex st2)], false)
    end
  end.

Fixpoint results_loop (maxEmptyRounds lastKnownIndex : Z) (st : scanState)
    (arrivals : list recoveryResults) : option (scanState * list event * bool) :=
  match arrivals with
  | [] => Some (st, [], false)
  | res :: arrivals' =>
    '(st1, evs1, returned) ← loop_body maxEmptyRounds lastKnownIndex st res;
    if returned : bool then Some (st1, evs1, true)
    else
      '(st2, evs2, returned2) ← results_loop maxEmptyRounds lastKnownIndex st1 arrivals';
      Some (st2, evs1 ++ evs2, returned2)
  end.

(** The code after the loop. *)
Definition final_report (w : SeedWallet) (st : scanState) : list event :=
  let '(index, additional) :=
    if String.eqb (lastUsageType st) "sent"
    then (wrap64 (lastIndex st + 1),
          [generateAddress w (wrap64 (lastIndex st + 1))])
    else (lastIndex st, []) in
  match interfaceToJSON (DoneData additional index) with
  | inr err => [EvError err]
  | inl _ => [EvDone additional index]
  end.

(** Everything after the goroutines are started, for the given arrivals. *)
Definition scan_events (w : SeedWallet) (maxEmptyRounds lastKnownIndex : Z)
    (arrivals : list recoveryResults) : option (list event) :=
  '(st, evs, returned) ← results_loop maxEmptyRounds lastKnownIndex scan_init arrivals;
  Some (if returned : bool then evs else evs ++ final_report w st).

(** [RecoverAddresses], for the sequence [arrivals] of values received from
    [results].  [currency], [startIndex] and [addressCount] reach the loop
    only through the goroutines that produce [arrivals] (see [delivered]
    and [RecoverAddresses_run]). *)
Definition RecoverAddresses (seed currency : string)
    (startIndex maxEmptyRounds addressCount lastKnownIndex : Z)
    (arrivals : list recoveryResults) : option (list event) :=
  match recoverWallet seed currency with
  | inr err => Some [EvError ("unable to recover wallet: " +:+ err)]
  | inl w => scan_events w maxEmptyRounds lastKnownIndex arrivals
  end.

(** ** Which arrival sequences the goroutines can produce *)

(** Every value on [results] is the worker's answer for a round the
    partitioner sent, each round is taken by one worker only, and the round
    counter has not wrapped.  [jobs] pairs the iteration of the partitioner
    in which a round was sent with the explorer's answer for it, in arrival
    order. *)
Definition delivered (w : SeedWallet) (startIndex addressCount : Z)
    (arrivals : list recoveryResults) : Prop :=
  ∃ jobs : list (nat * (list addressUsage + string)),
    NoDup jobs.*1 ∧
    Forall (λ n : nat, Z.of_nat n < two64) jobs.*1 ∧
    arrivals =
      (λ job, recoveryWorker_answer w (issued startIndex addressCount job.1) job.2)
        <$> jobs.

(** ** The goroutines of [RecoverAddresses] *)

(** [RecoverAddresses] starts [workers] goroutines that run
    [recoveryWorker], one goroutine that closes [results] once all of them
    have returned, and the partitioner; it then runs the consuming loop.
    [workers] is a constant of the package declared outside recovery.go: it
    is a parameter here.

    The runtime interleaves the goroutines.  The interleaving is explicit
    here: a schedule is the list of the goroutines that move, one step
    each, and a step is one communication of a goroutine together with the
    local code up to its next communication.

    - [work] has a buffer of [workers] values: the partitioner's send moves
      only while the buffer has room, a worker's receive takes the oldest
      value, and returns from [range] once [work] is closed and empty.
    - [results] has no buffer: a worker's send moves only when the loop is
      at its receive.  The value is then with the loop ([gHanded]) and the
      worker goes on; the loop body on that value is a step of the loop.
      The body touches nothing shared except [done], which it closes at
      most once, so it is taken as a whole.
    - The lookup of a round is made when the round is taken; how long it
      lasts is the number of turns until the worker moves again.

    A goroutine that cannot move when its turn comes stays where it is. *)

(** Where the partitioner stands. *)
Inductive partitionerAt :=
| AtSelect    (* before [select { case <-done: ...; default: }] *)
| AtSend      (* in [work <- recoveryWork{...}] *)
| AtReturn.   (* after [close(work); return] *)

(** Where a worker stands. *)
Inductive workerAt `{WalletAPI} :=
| AtReceive                           (* in [for r := range work] *)
| AtResult (res : recoveryResults)    (* in [results <- res] *)
| AtExit.                             (* after it returned *)

(** The goroutines between two steps.  [gWork] is the buffer of [work],
    oldest value first; [work] is closed when the partitioner has returned.
    [gHanded] is the value the loop has received from [results] and not yet
    run its body on.  [gLoop], [gEvents] and [gReturned] are the consuming
    loop: its variables, the callback invocations so far, and whether it
    has returned from inside the loop.  [gReceived] is the history of the
    values the loop has run its body on, in order. *)
Record goroutines `{WalletAPI} := {
  gPartitioner : partitioner;
  gAt : partitionerAt;
  gWork : list recoveryWork;
  gWorkers : list workerAt;
  gHanded : option recoveryResults;
  gLoop : scanState;
  gEvents : list event;
  gReturned : bool;
  gReceived : list recoveryResults
}.

(** Whose turn it is. *)
Inductive turn :=
| Partitioner
| Worker (i : nat)
| Loop.

Definition goroutines_init (workers : nat) (startIndex : Z) : goroutines :=
  {| gPartitioner := partitioner_init startIndex; gAt := AtSelect; gWork := [];
     gWorkers := replicate workers AtReceive; gHanded := None;
     gLoop := scan_init; gEvents := []; gReturned := false; gReceived := [] |}.

(** A step of the partitioner: the [select], or the send with [round++] and
    [i += addressCount]. *)
Definition partitioner_turn (workers : nat) (addressCount : Z) (g : goroutines)
    : goroutines :=
  match gAt g with
  | AtSelect =>
    {| gPartitioner := gPartitioner g;
       gAt := if done (gLoop g) then AtReturn else AtSend;
       gWork := gWork g; gWorkers := gWorkers g; gHanded := gHanded g; gLoop := gLoop g;
       gEvents := gEvents g; gReturned := gReturned g; gReceived := gReceived g |}
  | AtSend =>
    if (length (gWork g) <? workers)%nat
    then {| gPartitioner := partitioner_next addressCount (gPartitioner g);
            gAt := AtSelect;
            gWork := gWork g ++ [partitioner_work addressCount (gPartitioner g)];
            gWorkers := gWorkers g; gHanded := gHanded g; gLoop := gLoop g;
            gEvents := gEvents g; gReturned := gReturned g; gReceived := gReceived g |}
    else g
  | AtReturn => g
  end.

(** The worker's position after [results <- res]: it returns after sending
    an error, and goes back to [range work] otherwise. *)
Definition after_send (res : recoveryResults) : workerAt :=
  match Error res with
  | Some _ => AtExit
  | None => AtReceive
  end.

(** A step of worker [i]: it takes a round and looks it up, or leaves the
    [range] loop, or hands its result to the consuming loop, which must be
    at its receive: not returned, and with no value in hand. *)
Definition worker_turn (w : SeedWallet) (currency : string) (i : nat) (g : goroutines)
    : goroutines :=
  match gWorkers g !! i with
  | Some AtReceive =>
    match gWork g with
    | r :: work' =>
      {| gPartitioner := gPartitioner g; gAt := gAt g; gWork := work';
         gWorkers := <[i := AtResult (recoveryWorker_round w currency r)]> (gWorkers g);
         gHanded := gHanded g; gLoop := gLoop g; gEvents := gEvents g;
         gReturned := gReturned g; gReceived := gReceived g |}
    | [] =>
      match gAt g with
      | AtReturn =>
        {| gPartitioner := gPartitioner g; gAt := gAt g; gWork := [];
           gWorkers := <[i := AtExit]> (gWorkers g);
           gHanded := gHanded g; gLoop := gLoop g; gEvents := gEvents g;
           gReturned := gReturned g; gReceived := gReceived g |}
      | _ => g
      end
    end
  | Some (AtResult res) =>
    match gHanded g, gReturned g with
    | None, false =>
      {| gPartitioner := gPartitioner g; gAt := gAt g; gWork := gWork g;
         gWorkers := <[i := after_send res]> (gWorkers g);
         gHanded := Some res; gLoop := gLoop g; gEvents := gEvents g;
         gReturned := gReturned g; gReceived := gReceived g |}
    | _, _ => g
    end
  | Some AtExit => g
  | None => g
  end.

(** A step of the consuming loop: the body on the value in hand.  [None]
    only if the termination monitor's loop did not end (see
    [consecutiveEmptyRounds]). *)
Definition loop_turn (maxEmptyRounds lastKnownIndex : Z) (g : goroutines)
    : option goroutines :=
  match gHanded g with
  | Some res =>
    '(st, evs, returned) ← loop_body maxEmptyRounds lastKnownIndex (gLoop g) res;
    Some {| gPartitioner := gPartitioner g; gAt := gAt g; gWork := gWork g;
            gWorkers := gWorkers g; gHanded := None;
            gLoop := st; gEvents := gEvents g ++ evs; gReturned := returned;
            gReceived := gReceived g ++ [res] |}
  | None => Some g
  end.

Definition turn_step (workers : nat) (w : SeedWallet) (currency : string)
    (maxEmptyRounds addressCount lastKnownIndex : Z) (t : turn) (g : goroutines)
    : option goroutines :=
  match t with
  | Partitioner => Some (partitioner_turn workers addressCount g)
  | Worker i => Some (worker_turn w currency i g)
  | Loop => loop_turn maxEmptyRounds lastKnownIndex g
  end.

Fixpoint run_schedule (workers : nat) (w : SeedWallet) (currency : string)
    (maxEmptyRounds addressCount lastKnownIndex : Z) (schedule : list turn)
    (g : goroutines) : option goroutines :=
  match schedule with
  | [] => Some g
  | t :: schedule' =>
    g' ← turn_step workers w currency maxEmptyRounds addressCount lastKnownIndex t g;
    run_schedule workers w currency maxEmptyRounds addressCount lastKnownIndex schedule' g'
  end.

(** [wg.Wait(); close(results)]: [results] is closed once every worker has
    returned. *)
Definition results_closed (g : goroutines) : bool :=
  forallb (λ a, match a with AtExit => true | _ => false end) (gWorkers g).

(** The callback invocations of the whole call, once they are all known:
    [RecoverAddresses] has returned from inside the loop, or the loop has
    no value in hand and [results] is closed, which ends the loop and
    leaves the final report.  [None] while the loop can still run its
    body. *)
Definition run_events (w : SeedWallet) (g : goroutines) : option (list event) :=
  if gReturned g then Some (gEvents g)
  else
    match gHanded g with
    | Some _ => None
    | None =>
      if results_closed g then Some (gEvents g ++ final_report w (gLoop g)) else None
    end.

(** [RecoverAddresses] with [workers] workers under [schedule]: the
    callback invocations of the call, if the schedule is long enough for
    the call to end. *)
Definition RecoverAddresses_run (workers : nat) (schedule : list turn)
    (seed currency : string)
    (startIndex maxEmptyRounds addressCount lastKnownIndex : Z)
    : option (list event) :=
  match recoverWallet seed currency with
  | inr err => Some [EvError ("unable to recover wallet: " +:+ err)]
  | inl w =>
    g ← run_schedule workers w currency maxEmptyRounds addressCount lastKnownIndex
          schedule (goroutines_init workers startIndex);
    run_events w g
  end.

End Scan.


(** ** Concrete collaborators, used to run the model *)

Module Demo.

(** A wallet whose address at index [i] is the decimal rendering of [i];
    the empty seed is the invalid one. *)
Definition wallet : WalletAPI :=
  {| SeedWallet := unit;
     SiaUnlockConditions := Z;
     WalletUnlockConditions := Z;
     recoverWallet := λ seed _, if String.eqb seed "" then inr "invalid seed" else inl tt;
     GetAddress := λ _ i, i;
     UnlockHashString := λ i, pretty i;
     mapUnlockConditions := λ uc, uc |}.

(** An explorer that knows the usages in [ledger] and fails on any query
    that contains an address of [down]. *)
Definition explorer (ledger : list addressUsage) (down : list string)
    (addresses : list string) : list addressUsage + string :=
  if bool_decide (Exists (λ a, a ∈ down) addresses) then inr "timeout"
  else inl (filter (λ u, uAddress u ∈ addresses) ledger).

(** A JSON bridge that never fails. *)
Definition services (ledger : list addressUsage) (down : list string)
    : @Services wallet :=
  {| JSON := unit;
     FindUsedAddresses := λ _, explorer ledger down;
     interfaceToJSON := λ _, inl tt |}.

(** A JSON bridge that fails on every progress map. *)
Definition services_broken_json : @Services wallet :=
  {| JSON := unit;
     FindUsedAddresses := λ _, explorer [] [];
     interfaceToJSON := λ p,
       match p with
       | ProgressData _ _ _ => inr "json: unsupported value"
       | DoneData _ _ => inl tt
       end |}.

(** Nothing was ever used. *)
Definition unused : @Services wallet := services [] [].

(** Index 65 was spent from; one address in each earlier round received. *)
Definition spent65 : @Services wallet :=
  services [ {| uAddress := "5"; uUsageType := "received" |};
             {| uAddress := "25"; uUsageType := "received" |};
             {| uAddress := "45"; uUsageType := "received" |};
             {| uAddress := "65"; uUsageType := "sent" |} ] [].

(** The lookup of round 2 (indices 40 to 59) fails. *)
Definition round2_down : @Services wallet :=
  services [ {| uAddress := "5"; uUsageType := "received" |};
             {| uAddress := "25"; uUsageType := "received" |} ] ["40"].

(** A schedule for one worker in which the partitioner moves whenever it
    can, also between the moment the loop has received a result and the
    moment it runs its body on it.  It starts with the partitioner sending
    rounds 0 and 1 while the worker takes round 0; then, once for each
    round, the worker hands over its result and takes the next round, the
    partitioner sends one more round and passes its [select], and the loop
    runs its body.  [n] is the number of rounds the schedule has room for. *)
Definition run_ahead (n : nat) : list turn :=
  [Partitioner; Partitioner; Worker 0; Partitioner; Partitioner; Partitioner]
  ++ concat (replicate n [Worker 0; Worker 0; Partitioner; Partitioner; Loop]).

(** The goroutines at the end of that schedule with room for 12 rounds: one
    worker, from index 0, 20 addresses per round, stopping after 2 empty
    rounds, with no known index. *)
Definition scan_of (services : @Services wallet) : @goroutines wallet :=
  default (goroutines_init 1 0)
    (@run_schedule wallet services 1 tt "sc" 2 20 0 (run_ahead 12) (goroutines_init 1 0)).

(** The results received in that scan. *)
Definition arrivals_of (services : @Services wallet) : list (@recoveryResults wallet) :=
  gReceived (scan_of services).

Definition spent65_arrivals : list (@recoveryResults wallet) := arrivals_of spent65.

Definition round2_down_arrivals : list (@recoveryResults wallet) := arrivals_of round2_down.

(** The loop's state after rounds 0 and 2 were recorded as empty, and an
    empty result for round 1. *)
Definition two_recorded : scanState :=
  {| lastIndex := 0; usedTotal := 0; lastUsageType := ""; empty := [0; 2]; done := false |}.

Definition empty_round1 : @recoveryResults wallet :=
  {| Round := 1; LastUsedIndex := 0; Start := 20; End := 40; LastUsedType := "";
     Addresses := []; Error := None |}.

Definition failed_lookup : @recoveryResults wallet :=
  {| Round := 0; LastUsedIndex := 0; Start := 0; End := 0; LastUsedType := "";
     Addresses := []; Error := Some "unable to get used addresses: timeout" |}.

End Demo.

(** ** More concrete cases, used to run the properties *)

Module Cases.

(** Only the address at index 0 was used, and it was spent from. *)
Definition spent0 : @Services Demo.wallet :=
  Demo.services [ {| uAddress := "0"; uUsageType := "sent" |} ] [].

Definition spent0_arrivals : list (@recoveryResults Demo.wallet) := Demo.arrivals_of spent0.

(** Two results as a worker sends them, for rounds 0 and 3 of 20 addresses. *)
Definition received5 : @recoveryResults Demo.wallet :=
  @recoveryWorker_answer Demo.wallet tt (issued 0 20 0)
    (inl [ {| uAddress := "5"; uUsageType := "received" |} ]).

Definition sent65 : @recoveryResults Demo.wallet :=
  @recoveryWorker_answer Demo.wallet tt (issued 0 20 3)
    (inl [ {| uAddress := "65"; uUsageType := "sent" |} ]).

(** The address at index [i] of [Demo.wallet], with a usage type. *)
Definition used (i : Z) (usage : string) : @recoveredAddress Demo.wallet :=
  @Build_recoveredAddress Demo.wallet (pretty i) usage i i.

(** A schedule for two workers in which the lookup of round 0 lasts longer
    than the lookups of rounds 1 and 2 together. *)
Definition late_round_0 : list turn :=
  [ Partitioner; Partitioner;    (* round 0 is sent *)
    Partitioner; Partitioner;    (* round 1 is sent *)
    Worker 0;                    (* worker 0 takes round 0 *)
    Worker 1;                    (* worker 1 takes round 1 *)
    Partitioner; Partitioner;    (* round 2 is sent *)
    Worker 1; Loop;              (* the result of round 1 is received *)
    Worker 1;                    (* worker 1 takes round 2 *)
    Worker 1; Loop;              (* the result of round 2 is received *)
    Partitioner;                 (* the partitioner sees [done] closed *)
    Worker 0; Loop;              (* the result of round 0 is received *)
    Worker 0; Worker 1 ].        (* both workers leave [range work] *)

(** The goroutines at the end of that schedule, when no address was ever
    used: from index 0, 20 addresses per round, stopping after 2 empty
    rounds, with no known index. *)
Definition late_round_0_scan : @goroutines Demo.wallet :=
  default (goroutines_init 2 0)
    (@run_schedule Demo.wallet Demo.unused 2 tt "sc" 2 20 0 late_round_0
       (goroutines_init 2 0)).

(** The goroutines at the end of [Demo.run_ahead 12] with one worker, from
    index 7 with [addressCount = 0], when no address was ever used. *)
Definition zero_count_scan : @goroutines Demo.wallet :=
  default (goroutines_init 1 7)
    (@run_schedule Demo.wallet Demo.unused 1 tt "sc" 2 0 0 (Demo.run_ahead 12)
       (goroutines_init 1 7)).

(** What the caller sees when the lookup of round 2 fails. *)
Definition round2_down_events : list (@event Demo.wallet) :=
  [ EvProgress 1 [used 5 "received"] 5;
    EvProgress 1 [used 25 "received"] 25;
    EvDone [] 25 ].

(** [Demo.two_recorded] with another [usedTotal] and [done] closed. *)
Definition two_recorded_closed : scanState :=
  {| lastIndex := 0; usedTotal := 7; lastUsageType := ""; empty := [0; 2]; done := true |}.

Definition three_recorded (total : Z) : scanState :=
  {| lastIndex := 0; usedTotal := total; lastUsageType := ""; empty := [0; 2; 1];
     done := true |}.

End Cases.

(** ** Reference notions used to state the properties *)

(** The largest round of a list ([0] for the empty list). *)
Definition max_round (rounds : list Z) : Z := foldr Z.max 0 rounds.

(** [k] is the number of consecutive integers, counted downwards from the
    largest element of [rounds], that are all in [rounds]: the [k] integers
    [max, max - 1, ..., max - k + 1] are present and [max - k] is not. *)
Definition consecutive_run (rounds : list Z) (k : Z) : Prop :=
  0 ≤ k ∧
  (∀ j, 0 ≤ j < k → max_round rounds - j ∈ rounds) ∧
  max_round rounds - k ∉ rounds.

(** A result enters the [empty] slice: no error, no used address, and its
    range ends at or beyond [lastKnownIndex]. *)
Definition counts_as_empty `{WalletAPI} (lastKnownIndex : Z)
    (res : recoveryResults) : bool :=
  bool_decide (Error res = None) &&
  bool_decide (Addresses res = []) &&
  (lastKnownIndex <=? End res).

(** The shape of the values a worker can send: a round number that fits a
    [uint64], and a last used index below the largest [uint64]. *)
Definition result_ok `{WalletAPI} (res : recoveryResults) : Prop :=
  uint64 (Round res) ∧ 0 ≤ LastUsedIndex res < two64 - 1.

(** The update of [lastIndex] that is still in force after [arrivals]: there
    was none ([index] is [0] and [type] is empty), or it was made by the
    first result that reached the largest last used index. *)
Definition final_update `{WalletAPI} (arrivals : list recoveryResults)
    (index : Z) (type : string) : Prop :=
  (index = 0 ∧ type = "" ∧
   ∀ r, r ∈ arrivals → Error r = None → LastUsedIndex r ≤ 0) ∨
  (∃ pre res post,
     arrivals = pre ++ res :: post ∧ Error res = None ∧
     index = LastUsedIndex res ∧ type = LastUsedType res ∧ 0 < index ∧
     (∀ r, r ∈ pre → Error r = None → LastUsedIndex r < index) ∧
     (∀ r, r ∈ post → Error r = None → LastUsedIndex r ≤ index)).

(** The events that end a run. *)
Definition is_terminal `{WalletAPI} (ev : event) : bool :=
  match ev with
  | EvProgress _ _ _ => false
  | EvError _ => true
  | EvDone _ _ => true
  end.

Definition is_error `{WalletAPI} (ev : event) : bool :=
  match ev with
  | EvError _ => true
  | _ => false
  end.

Definition is_progress `{WalletAPI} (ev : event) : bool :=
  match ev with
  | EvProgress _ _ _ => true
  | _ => false
  end.

(** The JSON bridge never fails. *)
Definition json_total `{Services} : Prop :=
  ∀ p, ∃ data, interfaceToJSON p = inl data.

(** What the loop keeps true of its state: the recorded rounds fit a
    [uint64], and [lastIndex] stays below the largest [uint64]. *)
Definition state_ok (st : scanState) : Prop :=
  Forall uint64 (empty st) ∧ 0 ≤ lastIndex st < two64 - 1.

(** The largest of a list of indices ([0] for the empty list). *)
Definition max_index (indices : list Z) : Z := foldr Z.max 0 indices.

(** The entry [a] of a worker's [addressMap] with the usage type of the
    explorer's entry [u]. *)
Definition tagged `{WalletAPI} (u : addressUsage) (a : recoveredAddress)
    : recoveredAddress :=
  {| Address := Address a;
     UsageType := uUsageType u;
     Index := Index a;
     UnlockConditions := UnlockConditions a |}.

(** The result carries no error. *)
Definition no_error `{WalletAPI} (res : recoveryResults) : bool :=
  bool_decide (Error res = None).

(** The addresses and the index an event carries to the caller. *)
Definition event_addresses `{WalletAPI} (ev : event) : list recoveredAddress :=
  match ev with
  | EvProgress _ addresses _ => addresses
  | EvError _ => []
  | EvDone addresses _ => addresses
  end.

Definition event_found `{WalletAPI} (ev : event) : option Z :=
  match ev with
  | EvProgress found _ _ => Some found
  | _ => None
  end.

Definition progress_index `{WalletAPI} (ev : event) : option Z :=
  match ev with
  | EvProgress _ _ index => Some index
  | _ => None
  end.

(** Two states of the loop that differ at most in [usedTotal] and [done]. *)
Definition same_aggregation (st1 st2 : scanState) : Prop :=
  lastIndex st1 = lastIndex st2 ∧
  lastUsageType st1 = lastUsageType st2 ∧
  empty st1 = empty st2.


(** ** Notions used to reason on the goroutines *)


Section GoroutineNotions.
Context {wallet_api : WalletAPI} {services : Services}.
Variables (workers : nat) (w : SeedWallet) (currency : string)
          (startIndex maxEmptyRounds addressCount lastKnownIndex : Z).

(** The result a worker sends for the round sent in iteration [k] of the
    partitioner. *)
Definition round_answer (k : nat) : recoveryResults :=
  recoveryWorker_round w currency (issued startIndex addressCount k).


(** The steps of [turn_step] that change something. *)
Inductive goroutines_step (g : goroutines) : goroutines → Prop :=
| step_select :
    gAt g = AtSelect →
    goroutines_step g
      {| gPartitioner := gPartitioner g;
         gAt := if done (gLoop g) then AtReturn else AtSend;
         gWork := gWork g; gWorkers := gWorkers g; gHanded := gHanded g; gLoop := gLoop g;
         gEvents := gEvents g; gReturned := gReturned g; gReceived := gReceived g |}
| step_send :
    gAt g = AtSend → (length (gWork g) < workers)%nat →
    goroutines_step g
      {| gPartitioner := partitioner_next addressCount (gPartitioner g);
         gAt := AtSelect;
         gWork := gWork g ++ [partitioner_work addressCount (gPartitioner g)];
         gWorkers := gWorkers g; gHanded := gHanded g; gLoop := gLoop g;
         gEvents := gEvents g; gReturned := gReturned g; gReceived := gReceived g |}
| step_take i r work' :
    gWorkers g !! i = Some AtReceive → gWork g = r :: work' →
    goroutines_step g
      {| gPartitioner := gPartitioner g; gAt := gAt g; gWork := work';
         gWorkers := <[i := AtResult (recoveryWorker_round w currency r)]> (gWorkers g);
         gHanded := gHanded g; gLoop := gLoop g; gEvents := gEvents g;
         gReturned := gReturned g; gReceived := gReceived g |}
| step_exit i :
    gWorkers g !! i = Some AtReceive → gWork g = [] → gAt g = AtReturn →
    goroutines_step g
      {| gPartitioner := gPartitioner g; gAt := gAt g; gWork := [];
         gWorkers := <[i := AtExit]> (gWorkers g);
         gHanded := gHanded g; gLoop := gLoop g; gEvents := gEvents g;
         gReturned := gReturned g; gReceived := gReceived g |}
| step_hand i res :
    gWorkers g !! i = Some (AtResult res) → gHanded g = None → gReturned g = false →
    goroutines_step g
      {| gPartitioner := gPartitioner g; gAt := gAt g; gWork := gWork g;
         gWorkers := <[i := after_send res]> (gWorkers g);
         gHanded := Some res; gLoop := gLoop g; gEvents := gEvents g;
         gReturned := gReturned g; gReceived := gReceived g |}
| step_body res st evs returned :
    gHanded g = Some res →
    loop_body maxEmptyRounds lastKnownIndex (gLoop g) res = Some (st, evs, returned) →
    goroutines_step g
      {| gPartitioner := gPartitioner g; gAt := gAt g; gWork := gWork g;
         gWorkers := gWorkers g; gHanded := None;
         gLoop := st; gEvents := gEvents g ++ evs; gReturned := returned;
         gReceived := gReceived g ++ [res] |}.

(** What is known of a worker: [Some k] when it is sending the answer of
    the round of iteration [k]. *)
Definition slot_of (a : workerAt) (slot : option nat) : Prop :=
  match a with
  | AtResult res => ∃ k, slot = Some k ∧ res = round_answer k
  | _ => slot = None
  end.

(** The rounds whose answer is on its way to the loop's body: the one in
    the loop's hand, then those the workers are sending. *)
Definition under_way (hand : option nat) (slots : list (option nat)) : list nat :=
  option_list hand ++ omap id slots.

(** The state of the goroutines after [sent] rounds were sent, of which the
    loop has run its body on those of the iterations [received], in that
    order, has the one of [hand] in hand, and those of [slots] are being
    sent by the workers. *)
Record tracked (g : goroutines) (sent : nat) (received : list nat)
    (hand : option nat) (slots : list (option nat)) : Prop := {
  tr_partitioner :
    gPartitioner g = Nat.iter sent (partitioner_next addressCount) (partitioner_init startIndex);
  tr_received : gReceived g = round_answer <$> received;
  tr_handed : gHanded g = round_answer <$> hand;
  tr_workers : Forall2 slot_of (gWorkers g) slots;
  tr_work :
    gWork g = issued startIndex addressCount
                <$> seq (length received + length (under_way hand slots))
                        (length (gWork g));
  tr_sent :
    sent = (length received + length (under_way hand slots) + length (gWork g))%nat;
  tr_taken :
    received ++ under_way hand slots
      ≡ₚ seq 0 (length received + length (under_way hand slots));
  tr_cap : (length (gWork g) ≤ workers)%nat;
  tr_pool : length (gWorkers g) = workers;
  tr_loop :
    results_loop maxEmptyRounds lastKnownIndex scan_init (gReceived g)
      = Some (gLoop g, gEvents g, gReturned g);
  tr_closed : gAt g = AtReturn → done (gLoop g) = true;
  tr_in_hand : gReturned g = true → gHanded g = None;
  tr_running :
    ∀ pre post st evs returned,
      gReceived g = pre ++ post → post ≠ [] →
      results_loop maxEmptyRounds lastKnownIndex scan_init pre = Some (st, evs, returned) →
      returned = false;
  tr_overscan :
    ∀ pre post st evs returned,
      gReceived g = pre ++ post →
      results_loop maxEmptyRounds lastKnownIndex scan_init pre = Some (st, evs, returned) →
      done st = true →
      (sent + (match gAt g with AtSend => 1 | _ => 0 end)
         ≤ length pre + 2 * workers + 1)%nat;
  tr_exit :
    AtExit ∈ gWorkers g →
    Exists (λ res, Error res ≠ None) (gReceived g ++ option_list (gHanded g)) ∨
    (gAt g = AtReturn ∧ gWork g = []);
  tr_error :
    Exists (λ res, Error res ≠ None) (gReceived g ++ option_list (gHanded g)) →
    AtExit ∈ gWorkers g;
  tr_order :
    workers = 1%nat →
    received ++ under_way hand slots
      = seq 0 (length received + length (under_way hand slots));
  tr_last :
    workers = 1%nat →
    ∀ pre res post,
      gReceived g ++ option_list (gHanded g) = pre ++ res :: post →
      Error res ≠ None → post = []
}.

End GoroutineNotions.

(** * Properties *)

Section ScanProperties.
Context {wallet_api : WalletAPI} {services : Services}.

Implicit Types (rounds : list Z) (st : scanState) (res : recoveryResults).

(** ** Arithmetic *)

Lemma two64_eq : two64 = 18446744073709551616.
Proof. reflexivity. Qed.

(** Linear arithmetic over the [uint64] range. *)
Ltac lia64 :=
  unfold state_ok, result_ok, slice_len, uint64 in *; rewrite ?two64_eq in *; lia.

Lemma wrap64_uint64 z : uint64 (wrap64 z).
Proof. unfold uint64, wrap64. rewrite two64_eq. apply Z.mod_pos_bound. lia. Qed.

Lemma wrap64_small z : uint64 z → wrap64 z = z.
Proof. unfold uint64, wrap64. intros ?. by apply Z.mod_small. Qed.

Lemma wrap64_pred_zero : wrap64 (0 - 1) = two64 - 1.
Proof. reflexivity. Qed.

Lemma wrap64_neg z : - two64 ≤ z < 0 → wrap64 z = z + two64.
Proof.
  intros Hz. unfold wrap64.
  rewrite <- (Z.mod_add z 1 two64) by (rewrite two64_eq; lia).
  apply Z.mod_small. lia.
Qed.

(** ** The largest round *)

Lemma max_round_nonneg rounds : 0 ≤ max_round rounds.
Proof. induction rounds as [|r l IH]; simpl; lia. Qed.

Lemma max_round_ge rounds r : r ∈ rounds → r ≤ max_round rounds.
Proof.
  induction rounds as [|x l IH]; simpl.
  - by intros ?%elem_of_nil.
  - intros [->|Hin]%elem_of_cons; [lia|]. specialize (IH Hin). lia.
Qed.

Lemma max_round_elem rounds : rounds ≠ [] → Forall uint64 rounds → max_round rounds ∈ rounds.
Proof.
  induction rounds as [|x l IH]; [done|]. intros _ Hall. simpl.
  apply Forall_cons in Hall as [Hx Hl].
  destruct l as [|y l'].
  - simpl. unfold uint64 in Hx. rewrite Z.max_l by lia. by left.
  - destruct (Z.max_spec x (max_round (y :: l'))) as [[_ ->]|[_ ->]].
    + right. by apply IH.
    + by left.
Qed.

Lemma max_round_uint64 rounds : Forall uint64 rounds → uint64 (max_round rounds).
Proof.
  induction 1 as [|x l Hx Hl IH]; simpl.
  - unfold uint64. rewrite two64_eq. lia.
  - unfold uint64 in *. lia.
Qed.

Lemma max_round_snoc rounds r : max_round (rounds ++ [r]) = Z.max (max_round rounds) r.
Proof.
  induction rounds as [|x l IH]; simpl.
  - lia.
  - rewrite IH. lia.
Qed.

(** ** The first loop of [consecutiveEmptyRounds] *)

Lemma collect_rounds_snoc rounds r :
  collect_rounds (rounds ++ [r]) =
    (if (collect_rounds rounds).1 <? r then r else (collect_rounds rounds).1,
     <[r := true]> (collect_rounds rounds).2).
Proof. unfold collect_rounds. by rewrite fold_left_app. Qed.

Lemma collect_rounds_max rounds : (collect_rounds rounds).1 = max_round rounds.
Proof.
  induction rounds as [|r l IH] using rev_ind; [done|].
  rewrite collect_rounds_snoc, max_round_snoc. simpl. rewrite IH.
  destruct (Z.ltb_spec (max_round l) r); lia.
Qed.

Lemma collect_rounds_exists rounds i :
  exists_round (collect_rounds rounds).2 i = true ↔ i ∈ rounds.
Proof.
  induction rounds as [|r l IH] using rev_ind.
  - unfold exists_round. simpl. rewrite lookup_empty. simpl.
    split; [done|]. by intros ?%elem_of_nil.
  - rewrite collect_rounds_snoc. simpl. rewrite elem_of_app, list_elem_of_singleton.
    unfold exists_round in *. destruct (decide (r = i)) as [->|Hne].
    + rewrite lookup_insert_eq. simpl. tauto.
    + rewrite lookup_insert_ne by done. rewrite IH.
      split; [tauto|]. by intros [?|?].
Qed.

(** ** The second loop of [consecutiveEmptyRounds] *)

Lemma walk_down_S roundMap fuel i :
  walk_down (S fuel) roundMap i =
    if exists_round roundMap i then walk_down fuel roundMap (wrap64 (i - 1)) else Some i.
Proof. reflexivity. Qed.

Lemma walk_down_mono roundMap fuel fuel' i c :
  walk_down fuel roundMap i = Some c → (fuel ≤ fuel')%nat →
  walk_down fuel' roundMap i = Some c.
Proof.
  revert fuel' i. induction fuel as [|f IH]; intros fuel' i; [done|].
  intros Hw Hle. destruct fuel' as [|f']; [lia|]. simpl in *.
  destruct (exists_round roundMap i); [|done].
  apply IH; [done|lia].
Qed.

Lemma walk_down_stops roundMap fuel i c :
  walk_down fuel roundMap i = Some c → exists_round roundMap c = false.
Proof.
  revert i. induction fuel as [|f IH]; intros i; [done|]. simpl.
  destruct (exists_round roundMap i) eqn:Hi; [apply IH|]. by intros [= <-].
Qed.

(** A block of consecutive integers inside a list bounds its length. *)
Lemma block_length rounds lo hi :
  (∀ j, lo ≤ j ≤ hi → j ∈ rounds) → hi - lo + 1 ≤ Z.of_nat (length rounds).
Proof.
  intros Hin. destruct (Z.le_gt_cases lo hi) as [Hle|Hgt]; [|lia].
  assert (seqZ lo (hi - lo + 1) ⊆+ rounds) as Hsub.
  { apply NoDup_submseteq; [apply NoDup_seqZ|].
    intros x Hx%elem_of_seqZ. apply Hin. lia. }
  apply submseteq_length in Hsub. rewrite length_seqZ in Hsub. lia.
Qed.

(** The walk from cursor [i], when everything between [i] and the largest
    round is present and the fuel left covers the rounds not yet met. *)
Lemma walk_down_run rounds :
  Forall uint64 rounds → Z.of_nat (length rounds) < two64 →
  ∀ (d fuel : nat),
    Z.of_nat d ≤ max_round rounds →
    (∀ j, Z.of_nat d < j ≤ max_round rounds → j ∈ rounds) →
    Z.of_nat (length rounds) + 1 - (max_round rounds - Z.of_nat d) ≤ Z.of_nat fuel →
    ∃ c, walk_down fuel (collect_rounds rounds).2 (Z.of_nat d) = Some c ∧
         uint64 c ∧
         consecutive_run rounds (wrap64 (max_round rounds - c)) ∧
         ((∀ j, 0 ≤ j ≤ max_round rounds → j ∈ rounds) →
          c = two64 - 1 ∧ wrap64 (max_round rounds - c) = max_round rounds + 1).
Proof.
  intros Hu Hlen. pose proof (max_round_uint64 _ Hu) as Hmx.
  set (mx := max_round rounds) in *. set (m := (collect_rounds rounds).2).
  assert (Hneg : ∀ z, z < 0 → z ∉ rounds).
  { intros z Hz Hin. rewrite Forall_forall in Hu. apply Hu in Hin.
    unfold uint64 in Hin. lia. }
  induction d as [|d IH]; intros fuel Hle Hblock Hfuel.
  - (* cursor 0 *)
    pose proof (block_length rounds 1 mx) as Hb1.
    destruct (exists_round m 0) eqn:Hzero.
    + assert (Hall : ∀ j, 0 ≤ j ≤ mx → j ∈ rounds).
      { intros j Hj. destruct (decide (j = 0)) as [->|].
        - by apply collect_rounds_exists.
        - apply Hblock. lia. }
      pose proof (block_length rounds 0 mx Hall) as Hb0.
      destruct fuel as [|[|f]]; [lia|lia|].
      assert (Hc : exists_round m (two64 - 1) = false).
      { destruct (exists_round m (two64 - 1)) eqn:Hc; [|done].
        apply collect_rounds_exists in Hc. apply max_round_ge in Hc.
        fold mx in Hc. unfold uint64 in Hmx. lia. }
      assert (Hlt : mx < two64 - 1).
      { destruct (decide (mx = two64 - 1)) as [Heq|]; [|unfold uint64 in Hmx; lia].
        assert (mx ∈ rounds) as Hin by (apply Hall; unfold uint64 in Hmx; lia).
        rewrite Heq in Hin. apply collect_rounds_exists in Hin. fold m in Hin.
        congruence. }
      assert (Hk : wrap64 (mx - (two64 - 1)) = mx + 1).
      { rewrite wrap64_neg; unfold uint64 in Hmx; lia. }
      exists (two64 - 1). change (Z.of_nat 0) with 0.
      rewrite walk_down_S, Hzero, wrap64_pred_zero, walk_down_S, Hc.
      split; [done|]. split.
      { unfold uint64. rewrite two64_eq. lia. }
      split; [|done]. rewrite Hk. unfold consecutive_run. fold mx.
      split; [unfold uint64 in Hmx; lia|]. split.
      * intros j Hj. apply Hall. lia.
      * apply Hneg. lia.
    + destruct fuel as [|f]; [specialize (Hb1 ltac:(intros; apply Hblock; lia)); lia|].
      exists 0. change (Z.of_nat 0) with 0. rewrite walk_down_S, Hzero.
      split; [done|]. split.
      { unfold uint64. rewrite two64_eq. lia. }
      assert (Hzero' : 0 ∉ rounds).
      { intros Hin. apply collect_rounds_exists in Hin. fold m in Hin. congruence. }
      rewrite Z.sub_0_r, (wrap64_small mx Hmx). split.
      * unfold consecutive_run. fold mx. split; [unfold uint64 in Hmx; lia|].
        split; [|by rewrite Z.sub_diag].
        intros j Hj. apply Hblock. lia.
      * intros Hall. exfalso. apply Hzero', Hall. unfold uint64 in Hmx. lia.
  - (* cursor d + 1 *)
    rewrite Nat2Z.inj_succ in *.
    pose proof (block_length rounds (Z.succ (Z.of_nat d) + 1) mx) as Hb1.
    specialize (Hb1 ltac:(intros; apply Hblock; lia)).
    destruct (exists_round m (Z.succ (Z.of_nat d))) eqn:Hd.
    + pose proof (block_length rounds (Z.succ (Z.of_nat d)) mx) as Hb0.
      assert (Hall : ∀ j, Z.succ (Z.of_nat d) ≤ j ≤ mx → j ∈ rounds).
      { intros j Hj. destruct (decide (j = Z.succ (Z.of_nat d))) as [->|].
        - by apply collect_rounds_exists.
        - apply Hblock. lia. }
      specialize (Hb0 Hall).
      destruct fuel as [|f]; [lia|].
      destruct (IH f) as (c & Hw & Hrest); [lia| |lia|].
      { intros j Hj. apply Hall. lia. }
      exists c. split; [|done]. rewrite walk_down_S, Hd.
      replace (Z.succ (Z.of_nat d) - 1) with (Z.of_nat d) by lia.
      rewrite wrap64_small; [done|unfold uint64 in *; lia].
    + destruct fuel as [|f]; [lia|].
      exists (Z.succ (Z.of_nat d)). rewrite walk_down_S, Hd. split; [done|].
      assert (Hd' : Z.succ (Z.of_nat d) ∉ rounds).
      { intros Hin. apply collect_rounds_exists in Hin. fold m in Hin. congruence. }
      split; [unfold uint64 in *; lia|].
      rewrite wrap64_small; [|unfold uint64 in *; lia]. split.
      * unfold consecutive_run. fold mx. split; [lia|]. split.
        -- intros j Hj. apply Hblock. lia.
        -- by replace (mx - (mx - Z.succ (Z.of_nat d))) with (Z.succ (Z.of_nat d)) by lia.
      * intros Hall. exfalso. apply Hd', Hall. lia.
Qed.

Lemma consecutiveEmptyRounds_fuel_eq fuel rounds :
  consecutiveEmptyRounds_fuel fuel rounds =
    (i ← walk_down fuel (collect_rounds rounds).2 (max_round rounds);
     Some (wrap64 (max_round rounds - i))).
Proof.
  unfold consecutiveEmptyRounds_fuel. rewrite <- collect_rounds_max.
  by destruct (collect_rounds rounds).
Qed.

(** [consecutiveEmptyRounds] ends, at the cursor [c], with the length of
    the run at the largest round. *)
Lemma consecutiveEmptyRounds_walk rounds :
  Forall uint64 rounds → Z.of_nat (length rounds) < two64 →
  ∃ c, walk_down (S (length rounds)) (collect_rounds rounds).2 (max_round rounds) = Some c ∧
       consecutiveEmptyRounds rounds = Some (wrap64 (max_round rounds - c)) ∧
       consecutive_run rounds (wrap64 (max_round rounds - c)) ∧
       ((∀ j, 0 ≤ j ≤ max_round rounds → j ∈ rounds) →
        c = two64 - 1 ∧ wrap64 (max_round rounds - c) = max_round rounds + 1).
Proof.
  intros Hu Hlen. pose proof (max_round_nonneg rounds) as Hnn.
  destruct (walk_down_run rounds Hu Hlen (Z.to_nat (max_round rounds)) (S (length rounds)))
    as (c & Hw & _ & Hrun & Hwrap).
  - lia.
  - intros j Hj. lia.
  - lia.
  - rewrite Z2Nat.id in Hw by done. exists c. split; [done|]. split; [|done].
    unfold consecutiveEmptyRounds. by rewrite consecutiveEmptyRounds_fuel_eq, Hw.
Qed.

Lemma consecutive_run_unique rounds k k' :
  consecutive_run rounds k → consecutive_run rounds k' → k = k'.
Proof.
  intros (Hk0 & Hk & Hkn) (Hk0' & Hk' & Hkn').
  destruct (Z.lt_trichotomy k k') as [Hlt|[->|Hgt]]; [|done|].
  - exfalso. apply Hkn, Hk'. lia.
  - exfalso. apply Hkn', Hk. lia.
Qed.

Lemma consecutiveEmptyRounds_run rounds :
  Forall uint64 rounds → Z.of_nat (length rounds) < two64 →
  ∃ k, consecutiveEmptyRounds rounds = Some k ∧ consecutive_run rounds k.
Proof.
  intros Hu Hlen.
  destruct (consecutiveEmptyRounds_walk rounds Hu Hlen) as (c & _ & Hc & Hrun & _).
  eauto.
Qed.

(** More fuel never changes the answer, so the fuel chosen in
    [consecutiveEmptyRounds] loses nothing. *)
Lemma consecutiveEmptyRounds_fuel_complete rounds fuel k :
  Forall uint64 rounds → Z.of_nat (length rounds) < two64 →
  consecutiveEmptyRounds_fuel fuel rounds = Some k →
  consecutiveEmptyRounds rounds = Some k.
Proof.
  intros Hu Hlen Hk.
  destruct (consecutiveEmptyRounds_walk rounds Hu Hlen) as (c & Hw & Hc & _).
  rewrite Hc. f_equal. rewrite consecutiveEmptyRounds_fuel_eq in Hk.
  destruct (walk_down fuel _ (max_round rounds)) as [c'|] eqn:Hw'; [|done].
  injection Hk as <-.
  pose proof (walk_down_mono _ _ (fuel `max` S (length rounds)) _ _ Hw' ltac:(lia)) as H1.
  pose proof (walk_down_mono _ _ (fuel `max` S (length rounds)) _ _ Hw ltac:(lia)) as H2.
  congruence.
Qed.

(** C9.  For every slice of [uint64] round numbers, [consecutiveEmptyRounds]
    returns, and what it returns is the number of consecutive integers
    ending at the largest element that are all in the slice ([0] for the
    empty slice); no amount of fuel gives another answer.  When every round
    from [0] to the largest one is present, the cursor of the downward walk
    wraps to [2^64 - 1] and [lastRound - i], taken modulo [2^64], is the
    largest round plus one. *)
Theorem consecutiveEmptyRounds_counts_run rounds :
  Forall uint64 rounds → slice_len rounds →
  ∃ k, consecutiveEmptyRounds rounds = Some k ∧
       consecutive_run rounds k ∧
       (rounds = [] → k = 0) ∧
       (∀ fuel k', consecutiveEmptyRounds_fuel fuel rounds = Some k' → k' = k) ∧
       ((∀ j, 0 ≤ j ≤ max_round rounds → j ∈ rounds) →
        walk_down (S (length rounds)) (collect_rounds rounds).2 (max_round rounds)
          = Some (two64 - 1) ∧
        k = wrap64 (max_round rounds - (two64 - 1)) ∧
        k = max_round rounds + 1).
Proof.
  intros Hu Hlen.
  assert (Hlen' : Z.of_nat (length rounds) < two64).
  { unfold slice_len in Hlen. rewrite two64_eq. lia. }
  destruct (consecutiveEmptyRounds_walk rounds Hu Hlen') as (c & Hw & Hc & Hrun & Hwrap).
  exists (wrap64 (max_round rounds - c)).
  split; [done|]. split; [done|]. split; [|split].
  - intros ->. destruct Hrun as (Hk0 & Hk & _).
    destruct (decide (wrap64 (max_round [] - c) = 0)) as [|Hne]; [done|].
    exfalso. eapply (not_elem_of_nil (A:=Z)), (Hk 0). lia.
  - intros fuel k' Hk'.
    apply (consecutiveEmptyRounds_fuel_complete _ _ _ Hu Hlen') in Hk'. congruence.
  - intros Hall. destruct (Hwrap Hall) as [-> Hk]. by rewrite Hw, Hk.
Qed.

(** ** The partitioner *)

Lemma wrap64_add_l a b : wrap64 (wrap64 a + b) = wrap64 (a + b).
Proof. unfold wrap64. rewrite Z.add_mod_idemp_l; [done|by rewrite two64_eq]. Qed.

Lemma partitioner_iter startIndex addressCount (n : nat) :
  uint64 startIndex →
  Nat.iter n (partitioner_next addressCount) (partitioner_init startIndex) =
    {| pIndex := wrap64 (startIndex + Z.of_nat n * addressCount);
       pRound := wrap64 (Z.of_nat n) |}.
Proof.
  intros Hs. induction n as [|n IH].
  - simpl. unfold partitioner_init. f_equal.
    rewrite Z.add_0_r. by rewrite wrap64_small.
  - rewrite Nat2Z.inj_succ. simpl. rewrite IH. unfold partitioner_next. simpl.
    rewrite !wrap64_add_l. f_equal; f_equal; lia.
Qed.

Lemma issued_fields startIndex addressCount (n : nat) :
  uint64 startIndex →
  issued startIndex addressCount n =
    {| wRound := wrap64 (Z.of_nat n);
       wStart := wrap64 (startIndex + Z.of_nat n * addressCount);
       wEnd := wrap64 (startIndex + (Z.of_nat n + 1) * addressCount) |}.
Proof.
  intros Hs. unfold issued. rewrite partitioner_iter by done.
  unfold partitioner_work. simpl. rewrite wrap64_add_l. f_equal. f_equal. lia.
Qed.

Lemma issued_wEnd startIndex addressCount n : uint64 (wEnd (issued startIndex addressCount n)).
Proof. apply wrap64_uint64. Qed.

Lemma issued_wRound startIndex addressCount (n : nat) :
  Z.of_nat n < two64 → wRound (issued startIndex addressCount n) = Z.of_nat n.
Proof.
  intros Hn. unfold issued, partitioner_work. simpl.
  induction n as [|n IH]; [done|].
  simpl. rewrite IH by lia. rewrite wrap64_small; unfold uint64; lia.
Qed.

(** ** The worker *)

Lemma worker_generate_lookup w r key a :
  (worker_generate w r).1 !! key = Some a →
  ∃ i, i ∈ round_indices r ∧ a = generateAddress w i.
Proof.
  unfold worker_generate. generalize (round_indices r) as l.
  induction l as [|i l IH] using rev_ind; [simpl; by rewrite lookup_empty|].
  rewrite fold_left_app. cbn [fold_left fst snd]. intros Hl.
  destruct (decide (Address (generateAddress w i) = key)) as [Heq|Hne].
  - rewrite Heq, lookup_insert_eq in Hl. injection Hl as <-.
    exists i. split; [|done]. apply elem_of_app. right. by left.
  - rewrite lookup_insert_ne in Hl by done.
    destruct (IH Hl) as (j & Hj & ->). exists j. split; [|done].
    apply elem_of_app. by left.
Qed.

Lemma round_indices_range r i : i ∈ round_indices r → wStart r ≤ i < wEnd r.
Proof. unfold round_indices. intros ?%elem_of_seqZ. lia. Qed.

(** What one iteration of the loop over [used] preserves. *)
Lemma worker_use_step w r recovered u :
  let res := worker_use (worker_generate w r).1 recovered u in
  Round res = Round recovered ∧ Start res = Start recovered ∧
  End res = End recovered ∧ Error res = Error recovered ∧
  (LastUsedIndex res = LastUsedIndex recovered ∨
   wStart r ≤ LastUsedIndex res < wEnd r) ∧
  (LastUsedIndex recovered ≤ LastUsedIndex res).
Proof.
  unfold worker_use.
  destruct (_ !! uAddress u) as [a|] eqn:Ha.
  - apply worker_generate_lookup in Ha as (i & Hi%round_indices_range & ->).
    simpl. destruct (Z.ltb_spec (LastUsedIndex recovered) i); simpl.
    + split_and!; first [done|lia|right; lia].
    + split_and!; first [done|lia|by left].
  - simpl. split_and!; first [done|lia|by left].
Qed.

Lemma worker_use_fold w r used recovered :
  let res := fold_left (worker_use (worker_generate w r).1) used recovered in
  Round res = Round recovered ∧ Start res = Start recovered ∧
  End res = End recovered ∧ Error res = Error recovered ∧
  (LastUsedIndex res = LastUsedIndex recovered ∨
   wStart r ≤ LastUsedIndex res < wEnd r) ∧
  (LastUsedIndex recovered ≤ LastUsedIndex res).
Proof.
  induction used as [|u used IH] using rev_ind.
  { simpl. split_and!; first [done|lia|by left]. }
  rewrite fold_left_app. cbn [fold_left].
  set (res := fold_left _ used recovered) in *. cbn zeta in IH.
  destruct IH as (HR & HS & HE & HErr & HL & Hle).
  destruct (worker_use_step w r res u) as (HR' & HS' & HE' & HErr' & HL' & Hle').
  cbn zeta. rewrite HR', HS', HE', HErr'. split_and!; try done; [|lia].
  destruct HL' as [->|?]; [done|by right].
Qed.

Lemma recoveryWorker_answer_ok w r used :
  let res := recoveryWorker_answer w r (inl used) in
  Round res = wRound r ∧ Start res = wStart r ∧ End res = wEnd r ∧
  Error res = None ∧
  (LastUsedIndex res = 0 ∨ wStart r ≤ LastUsedIndex res < wEnd r) ∧
  0 ≤ LastUsedIndex res.
Proof. apply (worker_use_fold w r used). Qed.

Lemma recoveryWorker_answer_err w r err :
  recoveryWorker_answer w r (inr err) =
    {| Round := 0; LastUsedIndex := 0; Start := 0; End := 0;
       LastUsedType := ""; Addresses := [];
       Error := Some ("unable to get used addresses: " +:+ err) |}.
Proof. reflexivity. Qed.

Lemma recoveryWorker_answer_result_ok w r resp :
  uint64 (wRound r) → uint64 (wEnd r) → result_ok (recoveryWorker_answer w r resp).
Proof.
  intros HR HE. destruct resp as [used|err].
  - destruct (recoveryWorker_answer_ok w r used) as (HRd & _ & _ & _ & HL & H0).
    split; [by rewrite HRd|]. lia64.
  - rewrite recoveryWorker_answer_err. unfold result_ok, uint64. simpl.
    rewrite two64_eq. lia.
Qed.

(** A worker sends nothing after a failed lookup. *)
Lemma recoveryWorker_error_last w currency work res :
  res ∈ recoveryWorker w currency work → Error res ≠ None →
  last (recoveryWorker w currency work) = Some res.
Proof.
  induction work as [|r work IH]; simpl; [by intros ?%elem_of_nil|].
  destruct (Error (recoveryWorker_round w currency r)) as [err|] eqn:HErr.
  - by intros ->%list_elem_of_singleton _.
  - intros [->|Hin]%elem_of_cons Hres; [done|].
    specialize (IH Hin Hres). destruct (recoveryWorker w currency work); [done|].
    by rewrite last_cons, IH.
Qed.

(** ** One iteration of the consuming loop *)

Lemma counts_as_empty_test lastKnownIndex res :
  Error res = None →
  (length (Addresses res) =? 0)%nat && (lastKnownIndex <=? End res)
    = counts_as_empty lastKnownIndex res.
Proof.
  intros HErr. unfold counts_as_empty.
  rewrite (bool_decide_eq_true_2 _ HErr). simpl. f_equal.
  by destruct (Addresses res).
Qed.

Lemma counts_as_empty_no_error lastKnownIndex res :
  counts_as_empty lastKnownIndex res = true → Error res = None.
Proof.
  unfold counts_as_empty. intros Hc.
  apply andb_prop in Hc as [Hc _]. apply andb_prop in Hc as [Hc _].
  by apply bool_decide_eq_true in Hc.
Qed.

Lemma loop_body_error maxEmptyRounds lastKnownIndex st res err :
  Error res = Some err →
  loop_body maxEmptyRounds lastKnownIndex st res = Some (close_done st, [], false).
Proof. unfold loop_body. by intros ->. Qed.

(** The termination monitor on a result without error. *)
Lemma record_empty_spec maxEmptyRounds lastKnownIndex st res :
  Error res = None → uint64 (Round res) → Forall uint64 (empty st) →
  Z.of_nat (length (empty st)) + 1 < two64 →
  ∃ st', record_empty maxEmptyRounds lastKnownIndex st res = Some st' ∧
    lastIndex st' = lastIndex st ∧ usedTotal st' = usedTotal st ∧
    lastUsageType st' = lastUsageType st ∧
    if counts_as_empty lastKnownIndex res
    then empty st' = empty st ++ [Round res] ∧
         ∃ k, consecutiveEmptyRounds (empty st') = Some k ∧
              consecutive_run (empty st') k ∧
              done st' = done st || (maxEmptyRounds <=? k)
    else empty st' = empty st ∧ done st' = done st.
Proof.
  intros HErr HR Hu Hlen. unfold record_empty.
  rewrite (counts_as_empty_test _ _ HErr).
  destruct (counts_as_empty lastKnownIndex res); [|by eauto 10].
  cbn [empty].
  destruct (consecutiveEmptyRounds_run (empty st ++ [Round res])) as (k & Hk & Hrun).
  { apply Forall_app. split; [done|]. by apply Forall_singleton. }
  { rewrite length_app. simpl. lia. }
  rewrite Hk. cbn [mbind option_bind].
  destruct (maxEmptyRounds <=? k) eqn:Hmax; eexists; (split; [done|]); simpl;
    split_and!; try done; exists k; split_and!; try done.
  - by rewrite Hmax, orb_true_r.
  - by rewrite Hmax, orb_false_r.
Qed.

Lemma aggregate_spec st res :
  lastIndex (aggregate st res) = Z.max (lastIndex st) (LastUsedIndex res) ∧
  lastUsageType (aggregate st res) =
    (if lastIndex st <? LastUsedIndex res then LastUsedType res else lastUsageType st) ∧
  usedTotal (aggregate st res) = wrap64 (usedTotal st + Z.of_nat (length (Addresses res))) ∧
  empty (aggregate st res) = empty st ∧
  done (aggregate st res) = done st.
Proof.
  unfold aggregate. destruct (Z.ltb_spec (lastIndex st) (LastUsedIndex res)); simpl;
    split_and!; try done; lia.
Qed.

(** One iteration on a result without error: what it does to the state and
    what it reports. *)
Lemma loop_body_ok maxEmptyRounds lastKnownIndex st res :
  Error res = None → uint64 (Round res) → Forall uint64 (empty st) →
  Z.of_nat (length (empty st)) + 1 < two64 →
  ∃ st1, record_empty maxEmptyRounds lastKnownIndex st res = Some st1 ∧
    let st2 := aggregate st1 res in
    let found := Z.of_nat (length (Addresses res)) in
    loop_body maxEmptyRounds lastKnownIndex st res =
      Some (match interfaceToJSON (ProgressData found (Addresses res) (lastIndex st2)) with
            | inr err => (st2, [EvError err], true)
            | inl _ => (st2, [EvProgress found (Addresses res) (lastIndex st2)], false)
            end).
Proof.
  intros HErr HR Hu Hlen.
  destruct (record_empty_spec maxEmptyRounds lastKnownIndex st res HErr HR Hu Hlen)
    as (st1 & Hrec & _).
  exists st1. split; [done|]. unfold loop_body. rewrite HErr, Hrec.
  cbn [mbind option_bind]. by destruct (interfaceToJSON _).
Qed.

(** The state after one iteration, whatever the result. *)
Lemma loop_body_state maxEmptyRounds lastKnownIndex st res st' evs returned :
  loop_body maxEmptyRounds lastKnownIndex st res = Some (st', evs, returned) →
  lastIndex st' =
    (if bool_decide (Error res = None) then Z.max (lastIndex st) (LastUsedIndex res)
     else lastIndex st) ∧
  lastUsageType st' =
    (if bool_decide (Error res = None) && (lastIndex st <? LastUsedIndex res)
     then LastUsedType res else lastUsageType st) ∧
  empty st' =
    (if counts_as_empty lastKnownIndex res then empty st ++ [Round res] else empty st).
Proof.
  unfold loop_body. destruct (Error res) as [err|] eqn:HErr.
  - intros [= <- <- <-]. unfold counts_as_empty. rewrite HErr.
    rewrite (bool_decide_eq_false_2 (Some err = None)) by done. done.
  - rewrite (bool_decide_eq_true_2 (None = None)) by done.
    unfold record_empty. rewrite (counts_as_empty_test _ _ HErr).
    destruct (counts_as_empty lastKnownIndex res).
    + cbn [empty]. destruct (consecutiveEmptyRounds _) as [k|]; [|done].
      cbn [mbind option_bind].
      set (st1 := if maxEmptyRounds <=? k then _ else _).
      assert (lastIndex st1 = lastIndex st ∧ lastUsageType st1 = lastUsageType st ∧
              empty st1 = empty st ++ [Round res]) as (Hi & Ht & He).
      { unfold st1. by destruct (maxEmptyRounds <=? k). }
      destruct (aggregate_spec st1 res) as (Hai & Hat & _ & Hae & _).
      intros Heq.
      assert (st' = aggregate st1 res) as -> by (destruct (interfaceToJSON _); congruence).
      rewrite Hai, Hat, Hae, Hi, Ht, He. done.
    + cbn [mbind option_bind].
      destruct (aggregate_spec st res) as (Hai & Hat & _ & Hae & _).
      intros Heq.
      assert (st' = aggregate st res) as -> by (destruct (interfaceToJSON _); congruence).
      rewrite Hai, Hat, Hae. done.
Qed.

Lemma loop_body_total maxEmptyRounds lastKnownIndex st res :
  result_ok res → state_ok st → Z.of_nat (length (empty st)) + 1 < two64 →
  ∃ st' evs returned,
    loop_body maxEmptyRounds lastKnownIndex st res = Some (st', evs, returned).
Proof.
  intros [HR HL] [Hu Hi] Hlen. destruct (Error res) as [err|] eqn:HErr.
  - rewrite (loop_body_error _ _ _ _ err HErr). eauto.
  - destruct (loop_body_ok maxEmptyRounds lastKnownIndex st res HErr HR Hu Hlen)
      as (st1 & _ & ->).
    destruct (interfaceToJSON _); eauto.
Qed.

Lemma loop_body_state_ok maxEmptyRounds lastKnownIndex st res st' evs returned :
  result_ok res → state_ok st →
  loop_body maxEmptyRounds lastKnownIndex st res = Some (st', evs, returned) →
  state_ok st' ∧ (length (empty st') ≤ S (length (empty st)))%nat.
Proof.
  intros [HR HL] [Hu Hi] Hbody.
  destruct (loop_body_state _ _ _ _ _ _ _ Hbody) as (Hli & _ & He).
  unfold state_ok. rewrite He. split; [split|].
  - destruct (counts_as_empty lastKnownIndex res); [|done].
    apply Forall_app. split; [done|]. by apply Forall_singleton.
  - rewrite Hli. destruct (bool_decide _); lia.
  - destruct (counts_as_empty lastKnownIndex res); [|lia].
    rewrite length_app. simpl. lia.
Qed.

(** ** The whole consuming loop *)

Lemma results_loop_cons maxEmptyRounds lastKnownIndex st res arrivals st2 evs returned :
  results_loop maxEmptyRounds lastKnownIndex st (res :: arrivals) = Some (st2, evs, returned) →
  ∃ st1 evs1 returned1,
    loop_body maxEmptyRounds lastKnownIndex st res = Some (st1, evs1, returned1) ∧
    if returned1 : bool then st2 = st1 ∧ evs = evs1 ∧ returned = true
    else ∃ evs2,
      results_loop maxEmptyRounds lastKnownIndex st1 arrivals = Some (st2, evs2, returned) ∧
      evs = evs1 ++ evs2.
Proof.
  cbn [results_loop].
  destruct (loop_body _ _ st res) as [[[st1 evs1] [|]]|]; simpl; [| |done].
  - intros [= <- <- <-]. by exists st1, evs1, true.
  - destruct (results_loop _ _ st1 arrivals) as [[[st2' evs2] ret2]|] eqn:Hloop;
      simpl; intros [= <- <- <-].
    exists st1, evs1, false. split; [done|]. by exists evs2.
Qed.

Lemma results_loop_app maxEmptyRounds lastKnownIndex st pre post st1 evs1 :
  results_loop maxEmptyRounds lastKnownIndex st pre = Some (st1, evs1, false) →
  results_loop maxEmptyRounds lastKnownIndex st (pre ++ post) =
    ('(st2, evs2, returned) ← results_loop maxEmptyRounds lastKnownIndex st1 post;
     Some (st2, evs1 ++ evs2, returned)).
Proof.
  revert st evs1. induction pre as [|res pre IH]; intros st evs1.
  - intros [= <- <-]. simpl. by destruct (results_loop _ _ st post) as [[[??]?]|].
  - intros Hpre. apply results_loop_cons in Hpre
      as (sta & evsa & [|] & Hbody & Hrest); [by destruct Hrest as (_ & _ & ?)|].
    destruct Hrest as (evsb & Hloop & ->).
    cbn [app results_loop]. rewrite Hbody. cbn [mbind option_bind].
    rewrite (IH _ _ Hloop).
    destruct (results_loop _ _ st1 post) as [[[st2 evs2] ret2]|]; [|done].
    cbn [mbind option_bind]. by rewrite (assoc_L (++)).
Qed.

Lemma results_loop_total maxEmptyRounds lastKnownIndex st arrivals :
  Forall result_ok arrivals → state_ok st →
  Z.of_nat (length (empty st)) + Z.of_nat (length arrivals) < two64 →
  ∃ st' evs returned,
    results_loop maxEmptyRounds lastKnownIndex st arrivals = Some (st', evs, returned).
Proof.
  intros Hall. revert st. induction Hall as [|res arrivals Hres Hall IH]; intros st Hst Hlen.
  - simpl. eauto.
  - cbn [length] in Hlen.
    destruct (loop_body_total maxEmptyRounds lastKnownIndex st res Hres Hst)
      as (st1 & evs1 & ret1 & Hbody); [lia|].
    destruct (loop_body_state_ok _ _ _ _ _ _ _ Hres Hst Hbody) as [Hst1 Hlen1].
    cbn [results_loop]. rewrite Hbody. cbn [mbind option_bind].
    destruct ret1; [eauto|].
    destruct (IH st1 Hst1) as (st2 & evs2 & ret2 & ->); [lia|].
    cbn [mbind option_bind]. eauto.
Qed.

Lemma results_loop_state_ok maxEmptyRounds lastKnownIndex st arrivals st' evs returned :
  Forall result_ok arrivals → state_ok st →
  results_loop maxEmptyRounds lastKnownIndex st arrivals = Some (st', evs, returned) →
  state_ok st'.
Proof.
  intros Hall. revert st evs. induction Hall as [|res arrivals Hres Hall IH]; intros st evs Hst.
  - by intros [= <- <- <-].
  - intros (st1 & evs1 & ret1 & Hbody & Hrest)%results_loop_cons.
    destruct (loop_body_state_ok _ _ _ _ _ _ _ Hres Hst Hbody) as [Hst1 _].
    destruct ret1.
    + by destruct Hrest as (-> & _ & _).
    + destruct Hrest as (evs2 & Hloop & _). by eapply IH.
Qed.

(** The events of one iteration: nothing for a result with an error, else
    one progress event carrying the new [lastIndex], or one error event
    followed by the return. *)
Lemma loop_body_events maxEmptyRounds lastKnownIndex st res st' evs returned :
  loop_body maxEmptyRounds lastKnownIndex st res = Some (st', evs, returned) →
  (evs = [] ∧ returned = false ∧ Error res ≠ None) ∨
  (evs = [EvProgress (Z.of_nat (length (Addresses res))) (Addresses res) (lastIndex st')] ∧
   returned = false ∧ Error res = None) ∨
  (∃ err, evs = [EvError err] ∧ returned = true ∧ Error res = None).
Proof.
  unfold loop_body. destruct (Error res) as [err|] eqn:HErr.
  - intros [= <- <- <-]. by left.
  - destruct (record_empty _ _ st res) as [st1|]; [|done]. cbn [mbind option_bind].
    destruct (interfaceToJSON _) as [data|err]; intros [= <- <- <-].
    + right. by left.
    + right. right. by exists err.
Qed.

Lemma loop_body_json_total maxEmptyRounds lastKnownIndex st res st' evs returned :
  json_total →
  loop_body maxEmptyRounds lastKnownIndex st res = Some (st', evs, returned) →
  returned = false.
Proof.
  intros Hjson. unfold loop_body. destruct (Error res); [by intros [= <- <- <-]|].
  destruct (record_empty _ _ st res) as [st1|]; [|done]. cbn [mbind option_bind].
  destruct (Hjson (ProgressData (Z.of_nat (length (Addresses res))) (Addresses res)
                     (lastIndex (aggregate st1 res)))) as [data ->].
  by intros [= <- <- <-].
Qed.

Lemma results_loop_json_total maxEmptyRounds lastKnownIndex st arrivals st' evs returned :
  json_total →
  results_loop maxEmptyRounds lastKnownIndex st arrivals = Some (st', evs, returned) →
  returned = false.
Proof.
  intros Hjson. revert st evs. induction arrivals as [|res arrivals IH]; intros st evs.
  - by intros [= <- <- <-].
  - intros (st1 & evs1 & ret1 & Hbody & Hrest)%results_loop_cons.
    rewrite (loop_body_json_total _ _ _ _ _ _ _ Hjson Hbody) in Hrest.
    destruct Hrest as (evs2 & Hloop & _). by eapply IH.
Qed.

(** The events of the loop: progress events, then one error event exactly
    when the function returned from inside the loop. *)
Lemma results_loop_events maxEmptyRounds lastKnownIndex st arrivals st' evs returned :
  results_loop maxEmptyRounds lastKnownIndex st arrivals = Some (st', evs, returned) →
  if returned then
    ∃ evs0 err, evs = evs0 ++ [EvError err] ∧ Forall (λ ev, is_progress ev = true) evs0
  else Forall (λ ev, is_progress ev = true) evs.
Proof.
  revert st evs. induction arrivals as [|res arrivals IH]; intros st evs.
  - intros [= <- <- <-]. constructor.
  - intros (st1 & evs1 & ret1 & Hbody & Hrest)%results_loop_cons.
    destruct (loop_body_events _ _ _ _ _ _ _ Hbody)
      as [(-> & -> & _)|[(-> & -> & _)|(err & -> & -> & _)]].
    + destruct Hrest as (evs2 & Hloop & ->). simpl. by eapply IH.
    + destruct Hrest as (evs2 & Hloop & ->). specialize (IH _ _ Hloop).
      destruct returned.
      * destruct IH as (evs0 & err & -> & Hprog).
        eexists (_ :: evs0), err. split; [done|]. by constructor.
      * by constructor.
    + destruct Hrest as (-> & -> & ->). by exists [], err.
Qed.

(** [lastIndex] never decreases, every progress event carries a value
    between the initial and the final [lastIndex], and after a complete
    loop the final [lastIndex] is at least every last used index received. *)
Lemma results_loop_lastIndex maxEmptyRounds lastKnownIndex st arrivals st' evs returned :
  results_loop maxEmptyRounds lastKnownIndex st arrivals = Some (st', evs, returned) →
  lastIndex st ≤ lastIndex st' ∧
  (∀ found addresses index,
     EvProgress found addresses index ∈ evs → lastIndex st ≤ index ≤ lastIndex st') ∧
  (returned = false →
   ∀ res, res ∈ arrivals → Error res = None → LastUsedIndex res ≤ lastIndex st').
Proof.
  revert st evs. induction arrivals as [|res arrivals IH]; intros st evs.
  - intros [= <- <- <-]. split; [lia|]. split.
    + by intros ??? ?%elem_of_nil.
    + by intros _ ? ?%elem_of_nil.
  - intros (st1 & evs1 & ret1 & Hbody & Hrest)%results_loop_cons.
    destruct (loop_body_state _ _ _ _ _ _ _ Hbody) as (Hli & _ & _).
    assert (Hmono : lastIndex st ≤ lastIndex st1).
    { rewrite Hli. destruct (bool_decide _); lia. }
    destruct (loop_body_events _ _ _ _ _ _ _ Hbody)
      as [(-> & -> & HErr)|[(-> & -> & HErr)|(err & -> & -> & HErr)]].
    + destruct Hrest as (evs2 & Hloop & ->).
      destruct (IH _ _ Hloop) as (Hm & Hev & Hres). simpl.
      split; [lia|]. split.
      * intros f a i Hin. specialize (Hev f a i Hin). lia.
      * intros Hret r [->|Hin]%elem_of_cons Hr; [done|]. by apply Hres.
    + destruct Hrest as (evs2 & Hloop & ->).
      destruct (IH _ _ Hloop) as (Hm & Hev & Hres).
      split; [lia|]. split.
      * intros f a i [[= _ _ ->]|Hin]%elem_of_cons; [lia|].
        specialize (Hev f a i Hin). lia.
      * intros Hret r [->|Hin]%elem_of_cons Hr; [|by apply Hres].
        rewrite (bool_decide_eq_true_2 _ HErr) in Hli. lia.
    + destruct Hrest as (-> & -> & ->). split; [done|]. split; [|done].
      intros f a i [Heq|Hin]%elem_of_cons; [done|]. by apply elem_of_nil in Hin.
Qed.

(** The [empty] slice after the loop: the rounds of the processed results
    that count as empty, in arrival order. *)
Lemma results_loop_empty maxEmptyRounds lastKnownIndex st arrivals st' evs returned :
  results_loop maxEmptyRounds lastKnownIndex st arrivals = Some (st', evs, returned) →
  ∃ processed rest,
    arrivals = processed ++ rest ∧ (returned = false → rest = []) ∧
    empty st' =
      empty st ++ (Round <$> filter (λ res, counts_as_empty lastKnownIndex res) processed).
Proof.
  revert st evs. induction arrivals as [|res arrivals IH]; intros st evs.
  - intros [= <- <- <-]. exists [], []. simpl. by rewrite app_nil_r.
  - intros (st1 & evs1 & ret1 & Hbody & Hrest)%results_loop_cons.
    destruct (loop_body_state _ _ _ _ _ _ _ Hbody) as (_ & _ & He).
    assert (Hst1 : empty st1 =
              empty st ++ (Round <$> filter (λ res, counts_as_empty lastKnownIndex res) [res])).
    { rewrite He. rewrite filter_cons, filter_nil.
      destruct (counts_as_empty lastKnownIndex res); simpl; [done|].
      by rewrite app_nil_r. }
    destruct ret1.
    + destruct Hrest as (-> & _ & ->). by exists [res], arrivals.
    + destruct Hrest as (evs2 & Hloop & _).
      destruct (IH _ _ Hloop) as (processed & rest & -> & Hrest & ->).
      exists (res :: processed), rest. split; [done|]. split; [done|].
      rewrite Hst1. rewrite <- (assoc_L (++)). f_equal.
      change (res :: processed) with ([res] ++ processed).
      by rewrite filter_app, fmap_app.
Qed.

(** The update in force after a complete loop. *)
Lemma results_loop_update maxEmptyRounds lastKnownIndex st arrivals st' evs :
  results_loop maxEmptyRounds lastKnownIndex st arrivals = Some (st', evs, false) →
  (lastIndex st' = lastIndex st ∧ lastUsageType st' = lastUsageType st ∧
   ∀ r, r ∈ arrivals → Error r = None → LastUsedIndex r ≤ lastIndex st) ∨
  (∃ pre res post,
     arrivals = pre ++ res :: post ∧ Error res = None ∧
     lastIndex st' = LastUsedIndex res ∧ lastUsageType st' = LastUsedType res ∧
     lastIndex st < LastUsedIndex res ∧
     (∀ r, r ∈ pre → Error r = None → LastUsedIndex r < LastUsedIndex res) ∧
     (∀ r, r ∈ post → Error r = None → LastUsedIndex r ≤ LastUsedIndex res)).
Proof.
  revert st evs. induction arrivals as [|res arrivals IH]; intros st evs.
  - intros [= <- <-]. left. split; [done|]. split; [done|]. by intros ? ?%elem_of_nil.
  - intros (st1 & evs1 & ret1 & Hbody & Hrest)%results_loop_cons.
    destruct ret1; [by destruct Hrest as (_ & _ & ?)|].
    destruct Hrest as (evs2 & Hloop & _).
    destruct (loop_body_state _ _ _ _ _ _ _ Hbody) as (Hli & Hlt & _).
    destruct (IH _ _ Hloop) as [(Hi & Ht & Hle)|(pre & r & post & -> & Hr & Hi & Ht & Hlt' & Hpre & Hpost)].
    + destruct (Error res) as [err|] eqn:HErr.
      * rewrite bool_decide_eq_false_2 in Hli, Hlt by done. simpl in Hlt.
        left. rewrite Hi, Ht, Hli, Hlt. split; [done|]. split; [done|].
        intros r [->|Hin]%elem_of_cons Hr; [congruence|].
        specialize (Hle r Hin Hr). lia.
      * rewrite bool_decide_eq_true_2 in Hli, Hlt by done. simpl in Hlt.
        destruct (Z.ltb_spec (lastIndex st) (LastUsedIndex res)) as [Hup|Hno].
        -- right. exists [], res, arrivals. split; [done|]. split; [done|].
           rewrite Hi, Ht, Hli, Hlt. split; [lia|]. split; [done|]. split; [done|].
           split; [by intros ? ?%elem_of_nil|].
           intros r Hin Hr. specialize (Hle r Hin Hr). lia.
        -- left. rewrite Hi, Ht, Hli, Hlt. split; [lia|]. split; [done|].
           intros r [->|Hin]%elem_of_cons Hr; [lia|].
           specialize (Hle r Hin Hr). lia.
    + right. exists (res :: pre), r, post. split; [done|]. split; [done|].
      split; [done|]. split; [done|].
      assert (Hge : lastIndex st ≤ lastIndex st1 ∧
                    (Error res = None → LastUsedIndex res ≤ lastIndex st1)).
      { rewrite Hli. destruct (Error res) eqn:HErr.
        - rewrite bool_decide_eq_false_2 by done. split; [lia|done].
        - rewrite bool_decide_eq_true_2 by done. split; lia. }
      destruct Hge as [Hge1 Hge2].
      split; [lia|]. split; [|done].
      intros r' [->|Hin]%elem_of_cons Hr'; [|by apply Hpre].
      specialize (Hge2 Hr'). lia.
Qed.

(** ** What the goroutines deliver *)

Lemma delivered_result_ok w startIndex addressCount arrivals :
  delivered w startIndex addressCount arrivals → Forall result_ok arrivals.
Proof.
  intros (jobs & _ & Hns & ->). rewrite Forall_fmap.
  rewrite Forall_fmap in Hns. eapply Forall_impl; [exact Hns|].
  intros [n resp] Hn. simpl in *. apply recoveryWorker_answer_result_ok.
  - rewrite issued_wRound by done. lia64.
  - apply issued_wEnd.
Qed.

Lemma delivered_empty_round w startIndex addressCount lastKnownIndex
    (jobs : list (nat * (list addressUsage + string))) z :
  Forall (λ n : nat, Z.of_nat n < two64) jobs.*1 →
  z ∈ Round <$> filter (λ res, counts_as_empty lastKnownIndex res)
        ((λ job, recoveryWorker_answer w (issued startIndex addressCount job.1) job.2)
           <$> jobs) →
  ∃ n : nat, n ∈ jobs.*1 ∧ z = Z.of_nat n.
Proof.
  intros Hns (res & -> & [Hc Hres]%list_elem_of_filter)%list_elem_of_fmap.
  apply list_elem_of_fmap in Hres as ([n resp] & -> & Hjob). simpl in *.
  exists n. split.
  - apply list_elem_of_fmap. by exists (n, resp).
  - apply Is_true_true, counts_as_empty_no_error in Hc.
    destruct resp as [used|err]; [|done].
    destruct (recoveryWorker_answer_ok w (issued startIndex addressCount n) used) as (-> & _).
    apply issued_wRound. rewrite Forall_forall in Hns. apply Hns.
    apply list_elem_of_fmap. by exists (n, inl used).
Qed.

(** No round enters [empty] twice. *)
Lemma delivered_empty_NoDup w startIndex addressCount lastKnownIndex arrivals :
  delivered w startIndex addressCount arrivals →
  NoDup (Round <$> filter (λ res, counts_as_empty lastKnownIndex res) arrivals).
Proof.
  intros (jobs & Hnd & Hns & ->).
  induction jobs as [|[n resp] jobs IH]; [constructor|].
  rewrite fmap_cons in Hnd, Hns. apply NoDup_cons in Hnd as [Hn Hnd].
  apply Forall_cons in Hns as [Hn64 Hns]. specialize (IH Hnd Hns).
  rewrite fmap_cons, filter_cons. simpl in *.
  destruct (decide _) as [Hc|]; [|done].
  rewrite fmap_cons. apply NoDup_cons. split; [|done].
  intros (m & Hm & Heq)%delivered_empty_round; [|done].
  apply Is_true_true, counts_as_empty_no_error in Hc.
  destruct resp as [used|err]; [|done].
  destruct (recoveryWorker_answer_ok w (issued startIndex addressCount n) used) as (HR & _).
  rewrite HR, issued_wRound in Heq by done.
  apply Nat2Z.inj in Heq as ->. done.
Qed.

Lemma delivered_prefix w startIndex addressCount pre post :
  delivered w startIndex addressCount (pre ++ post) → delivered w startIndex addressCount pre.
Proof.
  intros (jobs & Hnd & Hns & Heq). symmetry in Heq.
  apply fmap_app_inv in Heq as (jobs1 & jobs2 & -> & -> & ->).
  exists jobs1. rewrite fmap_app in Hnd, Hns.
  apply NoDup_app in Hnd as (Hnd & _ & _). apply Forall_app in Hns as [Hns _].
  done.
Qed.

(** ** The final report and the whole scan *)

Lemma scan_init_ok : state_ok scan_init.
Proof. unfold state_ok, scan_init. simpl. split; [constructor|]. rewrite two64_eq. lia. Qed.

Lemma final_report_spec w st :
  state_ok st →
  final_report w st =
    let sent := String.eqb (lastUsageType st) "sent" in
    let index := if sent then lastIndex st + 1 else lastIndex st in
    let additional := if sent then [generateAddress w (lastIndex st + 1)] else [] in
    match interfaceToJSON (DoneData additional index) with
    | inr err => [EvError err]
    | inl _ => [EvDone additional index]
    end.
Proof.
  intros [_ Hi]. unfold final_report.
  rewrite (wrap64_small (lastIndex st + 1)) by lia64.
  by destruct (String.eqb _ _).
Qed.

Lemma scan_events_total w maxEmptyRounds lastKnownIndex arrivals :
  Forall result_ok arrivals → slice_len arrivals →
  ∃ st evs returned,
    results_loop maxEmptyRounds lastKnownIndex scan_init arrivals = Some (st, evs, returned) ∧
    state_ok st ∧
    scan_events w maxEmptyRounds lastKnownIndex arrivals =
      Some (if returned then evs else evs ++ final_report w st).
Proof.
  intros Hall Hlen.
  destruct (results_loop_total maxEmptyRounds lastKnownIndex scan_init arrivals Hall scan_init_ok)
    as (st & evs & ret & Hloop).
  { simpl. lia64. }
  exists st, evs, ret. split; [done|]. split.
  - eapply results_loop_state_ok; [done|apply scan_init_ok|done].
  - unfold scan_events. by rewrite Hloop.
Qed.

Lemma final_update_unique arrivals index type index' type' :
  final_update arrivals index type → final_update arrivals index' type' →
  index = index' ∧ type = type'.
Proof.
  intros [(-> & -> & Hle)|(pre & res & post & Heq & HErr & -> & -> & Hpos & Hpre & Hpost)]
         [(-> & -> & Hle')|(pre' & res' & post' & Heq' & HErr' & -> & -> & Hpos' & Hpre' & Hpost')].
  - done.
  - exfalso. specialize (Hle res'). rewrite Heq' in Hle.
    specialize (Hle ltac:(apply elem_of_app; right; by left) HErr'). lia.
  - exfalso. specialize (Hle' res). rewrite Heq in Hle'.
    specialize (Hle' ltac:(apply elem_of_app; right; by left) HErr). lia.
  - rewrite Heq in Heq'.
    apply app_eq_inv in Heq' as [(k & -> & Hk)|(k & -> & Hk)].
    + destruct k as [|x k]; simpl in Hk.
      * by injection Hk as -> _.
      * injection Hk as -> ->. exfalso.
        specialize (Hpre x ltac:(apply elem_of_app; right; by left) HErr').
        specialize (Hpost' res ltac:(apply elem_of_app; right; by left) HErr). lia.
    + destruct k as [|x k]; simpl in Hk.
      * by injection Hk as -> _.
      * injection Hk as -> ->. exfalso.
        specialize (Hpre' x ltac:(apply elem_of_app; right; by left) HErr).
        specialize (Hpost res' ltac:(apply elem_of_app; right; by left) HErr'). lia.
Qed.

(** ** The claims about the consuming loop *)

(** C10.  When the loop receives a result whose [Error] is set, the
    iteration returns with [lastIndex], [lastUsageType], [usedTotal] and
    [empty] unchanged and invokes the callback with nothing: no progress
    event is emitted for that result.  It only closes [done]. *)
Theorem error_result_leaves_state maxEmptyRounds lastKnownIndex st res err :
  Error res = Some err →
  ∃ st',
    loop_body maxEmptyRounds lastKnownIndex st res = Some (st', [], false) ∧
    lastIndex st' = lastIndex st ∧
    lastUsageType st' = lastUsageType st ∧
    usedTotal st' = usedTotal st ∧
    empty st' = empty st ∧
    done st' = true.
Proof.
  intros HErr. exists (close_done st).
  by rewrite (loop_body_error _ _ _ _ err HErr).
Qed.

(** C2.  Whatever was received before (whatever the state [st] of the
    loop), a result without error is recorded in [empty] exactly when it
    has no used address and its [End] is at least [lastKnownIndex]; right
    after the recording [consecutiveEmptyRounds] returns the number [k] of
    consecutive round numbers present in [empty] counted downwards from
    the largest one, and [done] is closed by this iteration exactly when
    [maxEmptyRounds <= k]; an iteration that records nothing leaves [done]
    as it was. *)
Theorem termination_monitor_step maxEmptyRounds lastKnownIndex st res :
  Error res = None → uint64 (Round res) →
  Forall uint64 (empty st) → slice_len (empty st) →
  ∃ st' evs returned,
    loop_body maxEmptyRounds lastKnownIndex st res = Some (st', evs, returned) ∧
    (empty st' = empty st ++ [Round res] ∨ empty st' = empty st) ∧
    (Addresses res = [] ∧ lastKnownIndex ≤ End res →
     empty st' = empty st ++ [Round res] ∧
     ∃ k, consecutiveEmptyRounds (empty st') = Some k ∧
          consecutive_run (empty st') k ∧
          (done st' = true ↔ done st = true ∨ maxEmptyRounds ≤ k)) ∧
    (¬ (Addresses res = [] ∧ lastKnownIndex ≤ End res) →
     empty st' = empty st ∧ done st' = done st).
Proof.
  intros HErr HR Hu Hlen.
  assert (Hlen' : Z.of_nat (length (empty st)) + 1 < two64) by lia64.
  destruct (record_empty_spec maxEmptyRounds lastKnownIndex st res HErr HR Hu Hlen')
    as (st1 & Hrec & _ & _ & _ & Hcount).
  destruct (loop_body_ok maxEmptyRounds lastKnownIndex st res HErr HR Hu Hlen')
    as (st1' & Hrec' & Hbody).
  assert (st1' = st1) as -> by congruence. cbn zeta in Hbody.
  destruct (aggregate_spec st1 res) as (_ & _ & _ & Hae & Had).
  assert (Hiff : counts_as_empty lastKnownIndex res = true ↔
                 Addresses res = [] ∧ lastKnownIndex ≤ End res).
  { unfold counts_as_empty. rewrite (bool_decide_eq_true_2 _ HErr). simpl.
    rewrite andb_true_iff, bool_decide_eq_true, Z.leb_le. done. }
  set (out := match interfaceToJSON _ with inl _ => _ | inr _ => _ end) in Hbody.
  assert (Hout : out.1.1 = aggregate st1 res).
  { unfold out. by destruct (interfaceToJSON _). }
  exists out.1.1, out.1.2, out.2. split; [by destruct out as [[??]?]|].
  rewrite Hout, Hae, Had.
  destruct (counts_as_empty lastKnownIndex res) eqn:Hc.
  - destruct Hcount as (He & k & Hk & Hrun & Hd). split; [by left|]. split.
    + intros _. split; [done|]. exists k. split; [done|]. split; [done|].
      rewrite Hd, orb_true_iff, Z.leb_le. done.
    + intros Hn. exfalso. apply Hn. by apply Hiff.
  - destruct Hcount as (He & Hd). split; [by right|]. split.
    + intros Hy. apply Hiff in Hy. congruence.
    + done.
Qed.

(** C6.  In every scan, at every result the loop processes, [lastIndex]
    does not decrease, it changes only when the result has no error and its
    [LastUsedIndex] is strictly larger (and then becomes that index),
    [empty] only grows (by appending), and no round number is in [empty]
    twice; all of this up to the state the loop ends in. *)
Theorem scan_state_only_grows w startIndex addressCount maxEmptyRounds lastKnownIndex arrivals :
  delivered w startIndex addressCount arrivals → slice_len arrivals →
  ∃ st_end evs returned,
    results_loop maxEmptyRounds lastKnownIndex scan_init arrivals
      = Some (st_end, evs, returned) ∧
    NoDup (empty st_end) ∧
    ∀ pre res post st evs1,
      arrivals = pre ++ res :: post →
      results_loop maxEmptyRounds lastKnownIndex scan_init pre = Some (st, evs1, false) →
      ∃ st' evs' returned',
        loop_body maxEmptyRounds lastKnownIndex st res = Some (st', evs', returned') ∧
        lastIndex st ≤ lastIndex st' ≤ lastIndex st_end ∧
        (lastIndex st' ≠ lastIndex st ↔
         Error res = None ∧ lastIndex st < LastUsedIndex res) ∧
        (lastIndex st' ≠ lastIndex st → lastIndex st' = LastUsedIndex res) ∧
        empty st `prefix_of` empty st' ∧
        empty st' `prefix_of` empty st_end ∧
        NoDup (empty st').
Proof.
  intros Hdel Hlen. pose proof (delivered_result_ok _ _ _ _ Hdel) as Hall.
  destruct (results_loop_total maxEmptyRounds lastKnownIndex scan_init arrivals Hall scan_init_ok)
    as (st_end & evs & ret & Hloop); [simpl; lia64|].
  assert (Hnd : NoDup (empty st_end)).
  { destruct (results_loop_empty _ _ _ _ _ _ _ Hloop) as (processed & rest & Heq & _ & ->).
    simpl. rewrite Heq in Hdel. apply delivered_prefix in Hdel.
    by eapply delivered_empty_NoDup. }
  exists st_end, evs, ret. split; [done|]. split; [done|].
  intros pre res post st evs1 -> Hpre.
  rewrite (results_loop_app _ _ _ _ _ _ _ Hpre) in Hloop.
  destruct (results_loop _ _ st (res :: post)) as [[[st2 evs2] ret2]|] eqn:Htail; [|done].
  simpl in Hloop. injection Hloop as -> <- ->.
  apply results_loop_cons in Htail as (st' & evs' & ret' & Hbody & Hrest).
  exists st', evs', ret'. split; [done|].
  destruct (loop_body_state _ _ _ _ _ _ _ Hbody) as (Hli & _ & He).
  assert (Hend : lastIndex st' ≤ lastIndex st_end ∧ empty st' `prefix_of` empty st_end).
  { destruct ret'.
    - destruct Hrest as (-> & _ & _). split; [lia|done].
    - destruct Hrest as (evs3 & Hpost & _).
      destruct (results_loop_lastIndex _ _ _ _ _ _ _ Hpost) as (Hm & _ & _).
      destruct (results_loop_empty _ _ _ _ _ _ _ Hpost) as (? & ? & _ & _ & ->).
      split; [done|]. by eexists. }
  destruct Hend as [Hend1 Hend2].
  assert (Hpre' : empty st `prefix_of` empty st').
  { rewrite He. destruct (counts_as_empty _ _); [by eexists|done]. }
  split_and!; try done.
  - rewrite Hli. destruct (bool_decide _); lia.
  - rewrite Hli. destruct (Error res) as [err|].
    + rewrite bool_decide_eq_false_2 by done. split; [done|]. by intros [? _].
    + rewrite bool_decide_eq_true_2 by done. split; [|lia]. intros ?. split; [done|lia].
  - rewrite Hli. destruct (bool_decide _); lia.
  - destruct Hend2 as [l Hl]. rewrite Hl in Hnd. by apply NoDup_app in Hnd as (? & _ & _).
Qed.

(** C7.  Every run returns, and the index of its done event, when there is
    one, is at least the index of every progress event of the run and at
    least the [LastUsedIndex] of every result received; when the JSON
    bridge does not fail the run does end with a done event. *)
Theorem done_index_dominates w startIndex addressCount maxEmptyRounds lastKnownIndex arrivals :
  delivered w startIndex addressCount arrivals → slice_len arrivals →
  ∃ evs,
    scan_events w maxEmptyRounds lastKnownIndex arrivals = Some evs ∧
    (∀ additional index,
       EvDone additional index ∈ evs →
       (∀ found addresses index', EvProgress found addresses index' ∈ evs → index' ≤ index) ∧
       (∀ res, res ∈ arrivals → Error res = None → LastUsedIndex res ≤ index)) ∧
    (json_total → ∃ additional index, last evs = Some (EvDone additional index)).
Proof.
  intros Hdel Hlen. pose proof (delivered_result_ok _ _ _ _ Hdel) as Hall.
  destruct (scan_events_total w maxEmptyRounds lastKnownIndex arrivals Hall Hlen)
    as (st & evs & ret & Hloop & Hst & Hscan).
  eexists. split; [exact Hscan|].
  pose proof (results_loop_events _ _ _ _ _ _ _ Hloop) as Hevs.
  destruct (results_loop_lastIndex _ _ _ _ _ _ _ Hloop) as (_ & Hprog & Hres).
  rewrite (final_report_spec w st Hst). cbn zeta.
  set (sent := String.eqb (lastUsageType st) "sent").
  set (index := if sent then lastIndex st + 1 else lastIndex st).
  set (additional := if sent then [generateAddress w (lastIndex st + 1)] else []).
  assert (Hidx : lastIndex st ≤ index) by (unfold index; destruct sent; lia).
  split.
  - intros a d Hd. destruct ret.
    + exfalso. destruct Hevs as (evs0 & err & -> & Hp).
      apply elem_of_app in Hd as [Hd|Hd].
      * rewrite Forall_forall in Hp. by specialize (Hp _ Hd).
      * by apply list_elem_of_singleton in Hd.
    + apply elem_of_app in Hd as [Hd|Hd].
      { exfalso. rewrite Forall_forall in Hevs. by specialize (Hevs _ Hd). }
      destruct (interfaceToJSON _); apply list_elem_of_singleton in Hd; [|done].
      injection Hd as -> ->. split.
      * intros f a' p [Hp|Hp]%elem_of_app.
        -- specialize (Hprog f a' p Hp). lia.
        -- by apply list_elem_of_singleton in Hp.
      * intros res Hin HErr. specialize (Hres eq_refl res Hin HErr). lia.
  - intros Hjson. rewrite (results_loop_json_total _ _ _ _ _ _ _ Hjson Hloop).
    destruct (Hjson (DoneData additional index)) as [data ->].
    exists additional, index. by rewrite last_snoc.
Qed.

(** C3.  When the JSON bridge does not fail, every run ends with a done
    event after progress events only.  With [index] and [type] the update
    of [lastIndex] in force at the end ([final_update]): if [type] is
    ["sent"] the done event carries exactly one address, the one
    [generateAddress] derives at [index + 1], and the index [index + 1];
    otherwise it carries no address and the index [index].  In particular,
    when one result reports last used index 65 of type ["sent"] and every
    other result reports a smaller one, the done event carries index 66 and
    the single address derived at index 66. *)
Theorem done_extra_address w startIndex addressCount maxEmptyRounds lastKnownIndex arrivals :
  delivered w startIndex addressCount arrivals → slice_len arrivals → json_total →
  ∃ index type progress additional done_index,
    final_update arrivals index type ∧
    scan_events w maxEmptyRounds lastKnownIndex arrivals
      = Some (progress ++ [EvDone additional done_index]) ∧
    Forall (λ ev, is_progress ev = true) progress ∧
    (type = "sent" →
     additional = [generateAddress w (index + 1)] ∧
     Index (generateAddress w (index + 1)) = index + 1 ∧
     done_index = index + 1) ∧
    (type ≠ "sent" → additional = [] ∧ done_index = index) ∧
    (∀ pre res post,
       arrivals = pre ++ res :: post →
       Error res = None → LastUsedIndex res = 65 → LastUsedType res = "sent" →
       (∀ r, r ∈ pre ++ post → Error r = None → LastUsedIndex r < 65) →
       additional = [generateAddress w 66] ∧ done_index = 66).
Proof.
  intros Hdel Hlen Hjson. pose proof (delivered_result_ok _ _ _ _ Hdel) as Hall.
  destruct (scan_events_total w maxEmptyRounds lastKnownIndex arrivals Hall Hlen)
    as (st & evs & ret & Hloop & Hst & Hscan).
  pose proof (results_loop_json_total _ _ _ _ _ _ _ Hjson Hloop) as ->.
  pose proof (results_loop_events _ _ _ _ _ _ _ Hloop) as Hevs.
  assert (Hfinal : final_update arrivals (lastIndex st) (lastUsageType st)).
  { destruct (results_loop_update _ _ _ _ _ _ Hloop)
      as [(Hi & Ht & Hle)|(pre & res & post & -> & HErr & Hi & Ht & Hlt & Hpre & Hpost)].
    - left. by rewrite Hi, Ht.
    - right. exists pre, res, post. rewrite <- Hi. simpl in Hlt.
      split_and!; try done; [lia|by rewrite Hi..]. }
  rewrite (final_report_spec w st Hst) in Hscan. cbn zeta in Hscan.
  destruct (Hjson (DoneData
              (if String.eqb (lastUsageType st) "sent"
               then [generateAddress w (lastIndex st + 1)] else [])
              (if String.eqb (lastUsageType st) "sent"
               then lastIndex st + 1 else lastIndex st))) as [data Hdata].
  rewrite Hdata in Hscan.
  eexists (lastIndex st), (lastUsageType st), evs, _, _.
  split; [done|]. split; [exact Hscan|]. split; [done|].
  destruct (String.eqb_spec (lastUsageType st) "sent") as [Hsent|Hsent].
  - split; [done|]. split; [done|].
    intros pre res post Heq HErr Hidx Hty Hothers.
    assert (final_update arrivals 65 "sent") as Hfu.
    { right. exists pre, res, post. split_and!; try done; try lia.
      - intros r Hr Hr'. apply Hothers; [|done]. apply elem_of_app. by left.
      - intros r Hr Hr'. assert (LastUsedIndex r < 65); [|lia].
        apply Hothers; [|done]. apply elem_of_app. by right. }
    destruct (final_update_unique _ _ _ _ _ Hfinal Hfu) as [-> _]. done.
  - split; [done|]. split; [done|].
    intros pre res post Heq HErr Hidx Hty Hothers. exfalso.
    assert (final_update arrivals 65 "sent") as Hfu.
    { right. exists pre, res, post. split_and!; try done; try lia.
      - intros r Hr Hr'. apply Hothers; [|done]. apply elem_of_app. by left.
      - intros r Hr Hr'. assert (LastUsedIndex r < 65); [|lia].
        apply Hothers; [|done]. apply elem_of_app. by right. }
    destruct (final_update_unique _ _ _ _ _ Hfinal Hfu) as [_ ?]. done.
Qed.

(** ** The claims about whole runs *)

(** Every completed run invokes the callback with progress events and then
    with exactly one terminal event. *)
Lemma one_terminal_event seed currency startIndex maxEmptyRounds addressCount
    lastKnownIndex arrivals :
  Forall result_ok arrivals → slice_len arrivals →
  ∃ progress ev,
    RecoverAddresses seed currency startIndex maxEmptyRounds addressCount lastKnownIndex
      arrivals = Some (progress ++ [ev]) ∧
    Forall (λ ev, is_progress ev = true) progress ∧ is_terminal ev = true.
Proof.
  intros Hall Hlen. unfold RecoverAddresses.
  destruct (recoverWallet seed currency) as [w|err].
  - destruct (scan_events_total w maxEmptyRounds lastKnownIndex arrivals Hall Hlen)
      as (st & evs & ret & Hloop & Hst & ->).
    pose proof (results_loop_events _ _ _ _ _ _ _ Hloop) as Hevs. destruct ret.
    + destruct Hevs as (evs0 & err & -> & Hp). by exists evs0, (EvError err).
    + unfold final_report. destruct (String.eqb _ _); destruct (interfaceToJSON _);
        eexists evs, _; split; try done.
  - by exists [], (EvError ("unable to recover wallet: " +:+ err)).
Qed.

(** A failed lookup is never reported: when the wallet is recovered and the
    JSON bridge does not fail, the run ends with a done event whatever
    errors the results carry. *)
Lemma lookup_error_not_reported seed currency w startIndex maxEmptyRounds addressCount
    lastKnownIndex arrivals :
  recoverWallet seed currency = inl w → json_total →
  Forall result_ok arrivals → slice_len arrivals →
  ∃ progress additional index,
    RecoverAddresses seed currency startIndex maxEmptyRounds addressCount lastKnownIndex
      arrivals = Some (progress ++ [EvDone additional index]) ∧
    Forall (λ ev, is_progress ev = true) progress.
Proof.
  intros Hw Hjson Hall Hlen. unfold RecoverAddresses. rewrite Hw.
  destruct (scan_events_total w maxEmptyRounds lastKnownIndex arrivals Hall Hlen)
    as (st & evs & ret & Hloop & Hst & ->).
  pose proof (results_loop_json_total _ _ _ _ _ _ _ Hjson Hloop) as ->.
  pose proof (results_loop_events _ _ _ _ _ _ _ Hloop) as Hevs.
  unfold final_report.
  destruct (String.eqb _ _).
  - destruct (Hjson (DoneData [generateAddress w (wrap64 (lastIndex st + 1))]
                       (wrap64 (lastIndex st + 1)))) as [data ->]. by eexists evs, _, _.
  - destruct (Hjson (DoneData [] (lastIndex st))) as [data ->]. by eexists evs, _, _.
Qed.

Lemma issued_wRound_uint64 startIndex addressCount n :
  uint64 (wRound (issued startIndex addressCount n)).
Proof.
  destruct n as [|n]; unfold issued, partitioner_work; simpl.
  - lia64.
  - apply wrap64_uint64.
Qed.

Lemma recoveryWorker_round_result_ok w currency startIndex addressCount n :
  result_ok (recoveryWorker_round w currency (issued startIndex addressCount n)).
Proof.
  apply recoveryWorker_answer_result_ok; [apply issued_wRound_uint64|apply issued_wEnd].
Qed.



Lemma worker_use_fold_no_addresses (recovered : recoveryResults) used :
  fold_left (worker_use ∅) used recovered = recovered.
Proof.
  induction used as [|u used IH]; [done|]. simpl.
  unfold worker_use at 2. by rewrite lookup_empty.
Qed.

(** C5, as the code has it.  [RecoverAddresses] validates none of its
    numeric arguments.  When the wallet cannot be recovered from the seed
    the only callback invocation is the error ["unable to recover wallet:
    ..."], whatever the other arguments and whatever would have arrived:
    the scan never starts.  When it can, [addressCount = 0] is scanned like
    any other value: as long as [done] is open the partitioner sends round
    after round, each with the empty range from [startIndex] to
    [startIndex]; the worker answers each successful lookup with a result
    without addresses, and the loop reports it with a progress event. *)
Theorem invalid_seed_rejected_zero_count_scanned seed currency startIndex maxEmptyRounds
    lastKnownIndex :
  uint64 startIndex →
  match recoverWallet seed currency with
  | inr err =>
    ∀ addressCount arrivals workers schedule,
      RecoverAddresses seed currency startIndex maxEmptyRounds addressCount
        lastKnownIndex arrivals
        = Some [EvError ("unable to recover wallet: " +:+ err)] ∧
      RecoverAddresses_run workers schedule seed currency startIndex maxEmptyRounds
        addressCount lastKnownIndex
        = Some [EvError ("unable to recover wallet: " +:+ err)]
  | inl w =>
    ∀ n : nat,
      let p := Nat.iter n (partitioner_next 0) (partitioner_init startIndex) in
      let r := {| wRound := wrap64 (Z.of_nat n); wStart := startIndex; wEnd := startIndex |} in
      partitioner_step 0 false p = Some (r, partitioner_next 0 p) ∧
      issued startIndex 0 n = r ∧
      round_indices r = [] ∧
      ∀ used,
        let res := {| Round := wrap64 (Z.of_nat n); LastUsedIndex := 0;
                      Start := startIndex; End := startIndex; LastUsedType := "";
                      Addresses := []; Error := None |} in
        recoveryWorker_answer w r (inl used) = res ∧
        ∀ st,
          state_ok st → slice_len (empty st) → json_total →
          ∃ st',
            loop_body maxEmptyRounds lastKnownIndex st res
              = Some (st', [EvProgress 0 [] (lastIndex st)], false)
  end.
Proof.
  intros Hs. destruct (recoverWallet seed currency) as [w|err] eqn:Hw.
  - intros n p r.
    assert (Hissued : issued startIndex 0 n = r).
    { rewrite issued_fields by done. unfold r. f_equal.
      - rewrite Z.mul_0_r, Z.add_0_r. by apply wrap64_small.
      - rewrite Z.mul_0_r, Z.add_0_r. by apply wrap64_small. }
    assert (Hidx : round_indices r = []).
    { unfold round_indices, r. simpl. by rewrite Z.sub_diag. }
    split; [|split; [done|split; [done|]]].
    { unfold partitioner_step. do 2 f_equal. exact Hissued. }
    intros used res. split.
    { unfold recoveryWorker_answer, worker_generate. rewrite Hidx. simpl.
      by rewrite worker_use_fold_no_addresses. }
    intros st [Hu Hi] Hlen Hjson.
    assert (HR : uint64 (Round res)) by apply wrap64_uint64.
    destruct (loop_body_ok maxEmptyRounds lastKnownIndex st res eq_refl HR Hu)
      as (st1 & Hrec & ->); [lia64|]. cbn zeta.
    destruct (record_empty_spec maxEmptyRounds lastKnownIndex st res eq_refl HR Hu)
      as (st1' & Hrec' & Hli & _); [lia64|].
    assert (st1' = st1) as -> by congruence.
    destruct (aggregate_spec st1 res) as (Hai & _). rewrite Hai, Hli. simpl.
    rewrite Z.max_l by lia. change (Z.of_nat 0) with 0.
    destruct (Hjson (ProgressData 0 [] (lastIndex st))) as [data ->]. eauto.
  - intros addressCount arrivals workers schedule.
    unfold RecoverAddresses, RecoverAddresses_run. by rewrite Hw.
Qed.

(** C8, as the code has it.  For every [startIndex] and positive
    [addressCount], the round sent in iteration [n] has number [n], start
    [startIndex + n * addressCount] and end [startIndex + (n + 1) *
    addressCount], all three reduced modulo [2^64]; as long as that end is
    below [2^64] nothing wraps, and the round covers exactly the
    [addressCount] indices from its start. *)
Theorem partitioner_rounds startIndex addressCount (n : nat) :
  uint64 startIndex → 0 < addressCount < two64 →
  let p := Nat.iter n (partitioner_next addressCount) (partitioner_init startIndex) in
  partitioner_step addressCount false p
    = Some (issued startIndex addressCount n, partitioner_next addressCount p) ∧
  issued startIndex addressCount n =
    {| wRound := wrap64 (Z.of_nat n);
       wStart := wrap64 (startIndex + Z.of_nat n * addressCount);
       wEnd := wrap64 (startIndex + (Z.of_nat n + 1) * addressCount) |} ∧
  (startIndex + (Z.of_nat n + 1) * addressCount < two64 →
   issued startIndex addressCount n =
     {| wRound := Z.of_nat n;
        wStart := startIndex + Z.of_nat n * addressCount;
        wEnd := startIndex + (Z.of_nat n + 1) * addressCount |} ∧
   round_indices (issued startIndex addressCount n) =
     seqZ (startIndex + Z.of_nat n * addressCount) addressCount).
Proof.
  intros Hs Ha p. split; [done|]. split; [by apply issued_fields|].
  intros Hno. rewrite issued_fields by done.
  assert (uint64 (Z.of_nat n) ∧ uint64 (startIndex + Z.of_nat n * addressCount) ∧
          uint64 (startIndex + (Z.of_nat n + 1) * addressCount)) as (H1 & H2 & H3).
  { unfold uint64 in *. nia. }
  rewrite !wrap64_small by done. split; [done|].
  unfold round_indices. simpl. f_equal. lia.
Qed.

End ScanProperties.

(** * Further properties of the worker *)

Section WorkerProperties.
Context {wallet_api : WalletAPI} {services : Services}.

Implicit Types (w : SeedWallet) (r : recoveryWork) (used : list addressUsage).

Lemma max_index_nonneg indices : 0 ≤ max_index indices.
Proof. induction indices; simpl; lia. Qed.

Lemma max_index_ge indices i : i ∈ indices → i ≤ max_index indices.
Proof.
  induction indices as [|x l IH]; simpl; [by intros ?%elem_of_nil|].
  intros [->|Hin]%elem_of_cons; [lia|]. specialize (IH Hin). lia.
Qed.

Lemma max_index_snoc indices i : max_index (indices ++ [i]) = Z.max (max_index indices) i.
Proof. induction indices as [|x l IH]; simpl; [lia|]. rewrite IH. lia. Qed.

Lemma omap_length_le {A B} (f : A → option B) (l : list A) :
  (length (omap f l) ≤ length l)%nat.
Proof. induction l as [|x l IH]; csimpl; [lia|]. destruct (f x); simpl; lia. Qed.

Lemma omap_all_None {A B} (f : A → option B) (l : list A) :
  (∀ x, x ∈ l → f x = None) → omap f l = [].
Proof.
  induction l as [|x l IH]; [done|]. intros Hall. csimpl.
  rewrite (Hall x) by by left. apply IH. intros y Hy. apply Hall. by right.
Qed.

(** The two outputs of the address loop, for any list of indices. *)
Lemma worker_generate_fold w (indices : list Z) :
  let acc := fold_left
    (λ (acc : gmap string recoveredAddress * list string) (i : Z),
       let addr := generateAddress w i in
       (<[Address addr := addr]> acc.1, acc.2 ++ [Address addr]))
    indices (∅, []) in
  acc.2 = (λ i, Address (generateAddress w i)) <$> indices ∧
  (∀ a, is_Some (acc.1 !! a) ↔ a ∈ acc.2) ∧
  (∀ a x, acc.1 !! a = Some x → Address x = a ∧ ∃ i, i ∈ indices ∧ x = generateAddress w i).
Proof.
  induction indices as [|i l IH] using rev_ind.
  - simpl. split; [done|]. split.
    + intros a. rewrite lookup_empty. split; [by intros [? ?]|by intros ?%elem_of_nil].
    + intros a x. by rewrite lookup_empty.
  - rewrite fold_left_app. cbn [fold_left].
    set (acc := fold_left _ l (∅, [])) in *. cbn zeta in IH.
    destruct IH as (Hl & Hkeys & Hvals). cbn [fst snd].
    split; [by rewrite Hl, fmap_app|]. split.
    + intros a. rewrite elem_of_app, list_elem_of_singleton, <- Hkeys.
      destruct (decide (Address (generateAddress w i) = a)) as [<-|Hne].
      * rewrite lookup_insert_eq. split; [by right|by eauto].
      * rewrite lookup_insert_ne by done. split; [by left|]. by intros [?|?].
    + intros a x. destruct (decide (Address (generateAddress w i) = a)) as [<-|Hne].
      * rewrite lookup_insert_eq. intros [= <-]. split; [done|].
        exists i. split; [|done]. apply elem_of_app. right. by left.
      * rewrite lookup_insert_ne by done. intros Hx.
        destruct (Hvals a x Hx) as (Ha & j & Hj & ->). split; [done|].
        exists j. split; [|done]. apply elem_of_app. by left.
Qed.

Lemma worker_generate_spec w r :
  (worker_generate w r).2 = (λ i, Address (generateAddress w i)) <$> round_indices r ∧
  (∀ a, is_Some ((worker_generate w r).1 !! a) ↔ a ∈ (worker_generate w r).2) ∧
  (∀ a x, (worker_generate w r).1 !! a = Some x →
     Address x = a ∧ ∃ i, i ∈ round_indices r ∧ x = generateAddress w i).
Proof. exact (worker_generate_fold w (round_indices r)). Qed.

(** X1.  For a round, the worker looks up exactly the addresses derived at
    the indices [Start], [Start + 1], ..., [End - 1], in that order: there
    are [End - Start] of them, and none when [End <= Start] (as for a round
    whose end wrapped).  [addressMap] has exactly these addresses as keys,
    and each key is the address of its entry, which is what
    [generateAddress] derives at an index of the round. *)
Theorem worker_queries_round w r :
  (worker_generate w r).2 =
    (λ i, UnlockHashString (GetAddress w i)) <$> seqZ (wStart r) (wEnd r - wStart r) ∧
  Z.of_nat (length (worker_generate w r).2) = Z.max 0 (wEnd r - wStart r) ∧
  (wEnd r ≤ wStart r → (worker_generate w r).2 = [] ∧ (worker_generate w r).1 = ∅) ∧
  (∀ a, is_Some ((worker_generate w r).1 !! a) ↔ a ∈ (worker_generate w r).2) ∧
  (∀ a x, (worker_generate w r).1 !! a = Some x →
     Address x = a ∧ wStart r ≤ Index x < wEnd r ∧ x = generateAddress w (Index x)).
Proof.
  destruct (worker_generate_spec w r) as (Hl & Hkeys & Hvals).
  split; [exact Hl|]. split; [|split; [|split; [exact Hkeys|]]].
  - rewrite Hl, length_fmap. unfold round_indices. rewrite length_seqZ. lia.
  - intros Hle. unfold worker_generate, round_indices. by rewrite seqZ_nil by lia.
  - intros a x Hx. destruct (Hvals a x Hx) as (Ha & i & Hi%round_indices_range & ->).
    done.
Qed.

(** The loop over [used]: what it appends to [Addresses]. *)
Lemma worker_use_fold_addresses (addressMap : gmap string recoveredAddress) used
    (recovered : recoveryResults) :
  Addresses (fold_left (worker_use addressMap) used recovered) =
    Addresses recovered ++ omap (λ u, tagged u <$> addressMap !! uAddress u) used.
Proof.
  revert recovered. induction used as [|u used IH]; intros recovered.
  - simpl. by rewrite app_nil_r.
  - cbn [fold_left omap list_omap]. rewrite IH. unfold worker_use.
    destruct (addressMap !! uAddress u) as [a|]; simpl; [|done].
    destruct (LastUsedIndex recovered <? Index a); simpl; by rewrite <- (assoc_L (++)).
Qed.

(** The loop over [used]: [LastUsedIndex] is the largest index reported,
    and [LastUsedType] is the type of the first address that reached it. *)
Lemma worker_use_fold_last (addressMap : gmap string recoveredAddress) used
    (recovered : recoveryResults) :
  let inv (rec : recoveryResults) :=
    LastUsedIndex rec = max_index (Index <$> Addresses rec) ∧
    (LastUsedIndex rec = 0 → LastUsedType rec = "") ∧
    (0 < LastUsedIndex rec →
     ∃ pre a post,
       Addresses rec = pre ++ a :: post ∧ Index a = LastUsedIndex rec ∧
       UsageType a = LastUsedType rec ∧ ∀ b, b ∈ pre → Index b < Index a) in
  inv recovered → inv (fold_left (worker_use addressMap) used recovered).
Proof.
  intros inv. revert recovered. induction used as [|u used IH]; intros recovered Hinv; [done|].
  cbn [fold_left]. apply IH. clear IH. destruct Hinv as (Hmax & Hzero & Hpos).
  unfold worker_use. destruct (addressMap !! uAddress u) as [a|]; [|done].
  pose proof (max_index_nonneg (Index <$> Addresses recovered)) as Hnn.
  cbn [Index UsageType]. fold (tagged u a).
  destruct (Z.ltb_spec (LastUsedIndex recovered) (Index a)) as [Hlt|Hge];
    unfold inv; cbn [Addresses LastUsedIndex LastUsedType];
    rewrite fmap_app, list_fmap_singleton, max_index_snoc; cbn [tagged Index UsageType].
  - split; [lia|]. split; [lia|]. intros _.
    eexists (Addresses recovered), _, []. split; [done|]. split; [done|]. split; [done|].
    intros b Hb. simpl.
    assert (Index b ≤ max_index (Index <$> Addresses recovered)); [|lia].
    apply max_index_ge, list_elem_of_fmap. by exists b.
  - split; [lia|]. split; [done|]. intros Hp.
    destruct (Hpos Hp) as (pre & x & post & Heq & Hx & Hty & Hpre).
    exists pre, x, (post ++ [tagged u a]). rewrite Heq.
    split; [by rewrite <- (assoc_L (++))|done].
Qed.

(** X2.  A worker's result for a successful lookup lists, in the order of
    the explorer's answer, the entries of that answer whose address the
    round derived, each with the index and unlock conditions derived for it
    and the usage type the explorer gave; entries for other addresses are
    dropped.  So every address reported has its index inside the round,
    there are at most as many as the explorer returned, and none is
    reported when the explorer names no address of the round. *)
Theorem worker_reports_round_addresses w r used :
  let res := recoveryWorker_answer w r (inl used) in
  Addresses res = omap (λ u, tagged u <$> (worker_generate w r).1 !! uAddress u) used ∧
  (length (Addresses res) ≤ length used)%nat ∧
  (∀ a, a ∈ Addresses res →
     wStart r ≤ Index a < wEnd r ∧
     Address a = UnlockHashString (GetAddress w (Index a)) ∧
     UnlockConditions a = mapUnlockConditions (GetAddress w (Index a)) ∧
     ∃ u, u ∈ used ∧ uAddress u = Address a ∧ uUsageType u = UsageType a) ∧
  ((∀ u, u ∈ used → uAddress u ∉ (worker_generate w r).2) → Addresses res = []).
Proof.
  intros res.
  assert (Ha : Addresses res =
            omap (λ u, tagged u <$> (worker_generate w r).1 !! uAddress u) used).
  { unfold res, recoveryWorker_answer. by rewrite worker_use_fold_addresses. }
  destruct (worker_generate_spec w r) as (_ & Hkeys & Hvals).
  split; [done|]. split; [|split].
  - rewrite Ha. apply omap_length_le.
  - intros a. rewrite Ha. intros (u & Hu & Hlook)%list_elem_of_omap.
    destruct ((worker_generate w r).1 !! uAddress u) as [x|] eqn:Hx; [|done].
    injection Hlook as <-.
    destruct (Hvals _ _ Hx) as (Hax & i & Hi%round_indices_range & ->).
    simpl in *. split; [done|]. split; [done|]. split; [done|]. by exists u.
  - intros Hforeign. rewrite Ha. apply omap_all_None.
    intros u Hu. destruct ((worker_generate w r).1 !! uAddress u) as [x|] eqn:Hx; [|done].
    exfalso. apply (Hforeign u Hu), Hkeys. by rewrite Hx.
Qed.

(** X3.  In a worker's result for a successful lookup, [LastUsedIndex] is
    the largest index among the addresses reported ([0] when there is
    none).  When it is positive, [LastUsedType] is the usage type of the
    first reported address with that index.  When it is [0], as when the
    only address used is the one at index 0, [LastUsedType] stays empty
    whatever the usage type of that address. *)
Theorem worker_last_used w r used :
  let res := recoveryWorker_answer w r (inl used) in
  LastUsedIndex res = max_index (Index <$> Addresses res) ∧
  (LastUsedIndex res = 0 → LastUsedType res = "") ∧
  (0 < LastUsedIndex res →
   ∃ pre a post,
     Addresses res = pre ++ a :: post ∧ Index a = LastUsedIndex res ∧
     UsageType a = LastUsedType res ∧ ∀ b, b ∈ pre → Index b < Index a).
Proof.
  intros res. unfold res, recoveryWorker_answer.
  apply (worker_use_fold_last (worker_generate w r).1 used). simpl.
  split; [done|]. split; [done|]. lia.
Qed.

(** The results of a worker over the rounds it takes, up to the first
    failed lookup. *)
Lemma recoveryWorker_all_ok w currency (work : list recoveryWork) :
  Forall (λ r, Error (recoveryWorker_round w currency r) = None) work →
  recoveryWorker w currency work = recoveryWorker_round w currency <$> work.
Proof.
  induction 1 as [|r work Hr Hwork IH]; [done|].
  cbn [recoveryWorker]. rewrite Hr, IH. done.
Qed.

(** X4.  A worker answers the rounds it takes in order, one result per
    round, and stops at the first round whose lookup fails: the result for
    that round carries the error and is the last value the worker sends;
    the rounds queued behind it are never looked up by this worker. *)
Theorem recoveryWorker_stops_at_first_failure w currency (work : list recoveryWork) :
  (Forall (λ r, Error (recoveryWorker_round w currency r) = None) work →
   recoveryWorker w currency work = recoveryWorker_round w currency <$> work) ∧
  (∀ pre r post,
     work = pre ++ r :: post →
     Forall (λ r, Error (recoveryWorker_round w currency r) = None) pre →
     Error (recoveryWorker_round w currency r) ≠ None →
     recoveryWorker w currency work = recoveryWorker_round w currency <$> (pre ++ [r])) ∧
  (length (recoveryWorker w currency work) ≤ length work)%nat.
Proof.
  split; [apply recoveryWorker_all_ok|]. split.
  - intros pre r post -> Hpre Hr. induction Hpre as [|x pre Hx Hpre IH].
    + simpl. by destruct (Error (recoveryWorker_round w currency r)).
    + cbn [app recoveryWorker]. rewrite Hx, IH. done.
  - induction work as [|r work IH]; [done|]. cbn [recoveryWorker].
    destruct (Error (recoveryWorker_round w currency r)); simpl; lia.
Qed.

End WorkerProperties.

(** * Further properties of the termination monitor and the partitioner *)

Section MonitorProperties.

Implicit Types (rounds : list Z).

Lemma consecutiveEmptyRounds_iff_run rounds k :
  Forall uint64 rounds → slice_len rounds →
  consecutiveEmptyRounds rounds = Some k ↔ consecutive_run rounds k.
Proof.
  intros Hu Hlen.
  assert (Hlen' : Z.of_nat (length rounds) < two64).
  { unfold slice_len in Hlen. rewrite two64_eq. lia. }
  destruct (consecutiveEmptyRounds_run rounds Hu Hlen') as (k' & Hk' & Hrun').
  split.
  - intros Hk. by assert (k = k') as -> by congruence.
  - intros Hrun. by rewrite (consecutive_run_unique _ _ _ Hrun Hrun').
Qed.

Lemma max_round_same_elements rounds rounds' :
  Forall uint64 rounds → Forall uint64 rounds' →
  (∀ x, x ∈ rounds ↔ x ∈ rounds') → max_round rounds = max_round rounds'.
Proof.
  intros Hu Hu' Hsame. destruct rounds as [|x l].
  - destruct rounds' as [|y l']; [done|]. exfalso.
    eapply (not_elem_of_nil (A:=Z)), Hsame. by left.
  - assert (rounds' ≠ []) as Hne.
    { intros ->. eapply (not_elem_of_nil (A:=Z)), Hsame. by left. }
    pose proof (max_round_elem (x :: l) ltac:(done) Hu) as H1.
    pose proof (max_round_elem rounds' Hne Hu') as H2.
    apply Hsame, max_round_ge in H1. apply Hsame, max_round_ge in H2. lia.
Qed.

Lemma consecutiveEmptyRounds_same_elements_aux rounds rounds' :
  Forall uint64 rounds → Forall uint64 rounds' →
  slice_len rounds → slice_len rounds' →
  (∀ x, x ∈ rounds ↔ x ∈ rounds') →
  consecutiveEmptyRounds rounds = consecutiveEmptyRounds rounds'.
Proof.
  intros Hu Hu' Hlen Hlen' Hsame.
  assert (Hlen2 : Z.of_nat (length rounds) < two64).
  { unfold slice_len in Hlen. rewrite two64_eq. lia. }
  destruct (consecutiveEmptyRounds_run rounds Hu Hlen2) as (k & Hk & Hrun).
  rewrite Hk. symmetry.
  apply consecutiveEmptyRounds_iff_run; [done..|].
  destruct Hrun as (Hk0 & Hin & Hout). unfold consecutive_run.
  rewrite <- (max_round_same_elements rounds rounds') by done.
  split; [done|]. split.
  - intros j Hj. by apply Hsame, Hin.
  - intros Hx. by apply Hout, Hsame.
Qed.

(** X5.  [consecutiveEmptyRounds] depends only on which round numbers are
    in the slice: two slices with the same elements, in any order and with
    any repetitions, give the same count. *)
Theorem consecutiveEmptyRounds_same_elements rounds rounds' :
  Forall uint64 rounds → Forall uint64 rounds' →
  slice_len rounds → slice_len rounds' →
  (∀ x, x ∈ rounds ↔ x ∈ rounds') →
  consecutiveEmptyRounds rounds = consecutiveEmptyRounds rounds' ∧
  is_Some (consecutiveEmptyRounds rounds).
Proof.
  intros Hu Hu' Hlen Hlen' Hsame.
  split; [by apply consecutiveEmptyRounds_same_elements_aux|].
  assert (Hlen2 : Z.of_nat (length rounds) < two64).
  { unfold slice_len in Hlen. rewrite two64_eq. lia. }
  destruct (consecutiveEmptyRounds_run rounds Hu Hlen2) as (k & -> & _). by eexists.
Qed.

(** X6.  For a non-empty slice the count is at least 1, at most the number
    of elements of the slice, and at most the largest round plus one. *)
Theorem consecutiveEmptyRounds_bounds rounds :
  Forall uint64 rounds → slice_len rounds → rounds ≠ [] →
  ∃ k, consecutiveEmptyRounds rounds = Some k ∧
       1 ≤ k ≤ Z.of_nat (length rounds) ∧ k ≤ max_round rounds + 1.
Proof.
  intros Hu Hlen Hne.
  assert (Hlen2 : Z.of_nat (length rounds) < two64).
  { unfold slice_len in Hlen. rewrite two64_eq. lia. }
  destruct (consecutiveEmptyRounds_run rounds Hu Hlen2) as (k & Hk & Hk0 & Hin & Hout).
  exists k. split; [done|].
  pose proof (max_round_elem rounds Hne Hu) as Hmax.
  assert (1 ≤ k).
  { destruct (decide (k = 0)) as [->|]; [|lia]. by rewrite Z.sub_0_r in Hout. }
  assert (k ≤ max_round rounds + 1).
  { destruct (Z.le_gt_cases k (max_round rounds + 1)) as [|Hgt]; [done|].
    specialize (Hin (max_round rounds + 1) ltac:(pose proof (max_round_nonneg rounds); lia)).
    rewrite Forall_forall in Hu. apply Hu in Hin. unfold uint64 in Hin. lia. }
  split; [|done]. split; [done|].
  pose proof (block_length rounds (max_round rounds - k + 1) (max_round rounds)) as Hb.
  assert (max_round rounds - (max_round rounds - k + 1) + 1 ≤ Z.of_nat (length rounds)); [|lia].
  apply Hb. intros j Hj.
  replace j with (max_round rounds - (max_round rounds - j)) by lia. apply Hin. lia.
Qed.

(** X7.  What recording one more round does to the count.  Recording the
    round right above the largest one adds one.  Recording a round that is
    at least every recorded round while the round before it is missing (a
    gap, or the first recording) gives 1.  Recording a round that is
    already there changes nothing. *)
Theorem consecutiveEmptyRounds_record rounds r k :
  Forall uint64 rounds → uint64 r → slice_len (rounds ++ [r]) →
  consecutiveEmptyRounds rounds = Some k →
  (rounds ≠ [] → r = max_round rounds + 1 →
   consecutiveEmptyRounds (rounds ++ [r]) = Some (k + 1)) ∧
  ((∀ x, x ∈ rounds → x ≤ r) → r - 1 ∉ rounds →
   consecutiveEmptyRounds (rounds ++ [r]) = Some 1) ∧
  (r ∈ rounds → consecutiveEmptyRounds (rounds ++ [r]) = Some k).
Proof.
  intros Hu Hr Hlen Hk.
  assert (Hu' : Forall uint64 (rounds ++ [r])).
  { apply Forall_app. split; [done|]. by apply Forall_singleton. }
  assert (Hlen0 : slice_len rounds).
  { unfold slice_len in *. rewrite length_app in Hlen. simpl in Hlen. lia. }
  apply consecutiveEmptyRounds_iff_run in Hk as (Hk0 & Hin & Hout); [|done..].
  pose proof (max_round_nonneg rounds) as Hnn.
  split; [|split].
  - intros Hne ->. apply consecutiveEmptyRounds_iff_run; [done..|].
    unfold consecutive_run. rewrite max_round_snoc.
    rewrite Z.max_r by lia. split; [lia|]. split.
    + intros j Hj. apply elem_of_app. destruct (decide (j = 0)) as [->|].
      * right. rewrite Z.sub_0_r. by left.
      * left. replace (max_round rounds + 1 - j) with (max_round rounds - (j - 1)) by lia.
        apply Hin. lia.
    + intros [Hx|Hx%list_elem_of_singleton]%elem_of_app; [|lia].
      apply Hout. by replace (max_round rounds - k) with (max_round rounds + 1 - (k + 1)) by lia.
  - intros Hle Hgap. apply consecutiveEmptyRounds_iff_run; [done..|].
    unfold consecutive_run. rewrite max_round_snoc.
    assert (max_round rounds ≤ r).
    { destruct rounds as [|x l]; [simpl; unfold uint64 in Hr; lia|].
      apply Hle, max_round_elem; done. }
    rewrite Z.max_r by lia. split; [lia|]. split.
    + intros j Hj. replace j with 0 by lia. rewrite Z.sub_0_r.
      apply elem_of_app. right. by left.
    + intros [Hx|Hx%list_elem_of_singleton]%elem_of_app; [done|lia].
  - intros Hrin.
    assert (consecutiveEmptyRounds rounds = Some k) as <-.
    { apply consecutiveEmptyRounds_iff_run; done. }
    apply consecutiveEmptyRounds_same_elements_aux; try done.
    intros x. rewrite elem_of_app, list_elem_of_singleton. split; [|by left].
    intros [Hx|Hx]; [done|by rewrite Hx].
Qed.

(** X8.  As long as nothing wraps, the first [n] rounds sent by the
    partitioner cover, in order and without gap or overlap, exactly the [n
    * addressCount] indices from [startIndex] on; each round starts where
    the one before ended. *)
Theorem partitioner_rounds_tile startIndex addressCount (n : nat) :
  uint64 startIndex → 0 ≤ addressCount →
  startIndex + Z.of_nat n * addressCount < two64 →
  concat ((λ k, round_indices (issued startIndex addressCount k)) <$> seq 0 n) =
    seqZ startIndex (Z.of_nat n * addressCount) ∧
  ∀ k, wStart (issued startIndex addressCount (S k)) = wEnd (issued startIndex addressCount k).
Proof.
  intros Hs Ha Hno. split; [|done].
  induction n as [|n IH]; [done|].
  rewrite seq_S, fmap_app, concat_app. simpl. rewrite app_nil_r.
  rewrite IH by nia. rewrite issued_fields by done. unfold round_indices. simpl.
  assert (uint64 (startIndex + Z.of_nat n * addressCount) ∧
          uint64 (startIndex + (Z.of_nat n + 1) * addressCount)) as [H1 H2].
  { unfold uint64 in *. nia. }
  rewrite !wrap64_small by done.
  replace (startIndex + (Z.of_nat n + 1) * addressCount -
           (startIndex + Z.of_nat n * addressCount)) with addressCount by lia.
  replace (Z.of_nat (S n) * addressCount) with (Z.of_nat n * addressCount + addressCount) by lia.
  rewrite seqZ_app by nia. done.
Qed.

End MonitorProperties.

(** * Further properties of the consuming loop *)

Section LoopProperties.
Context {wallet_api : WalletAPI} {services : Services}.

Implicit Types (st : scanState) (res : recoveryResults) (arrivals : list recoveryResults).

Ltac lia64 :=
  unfold state_ok, result_ok, slice_len, uint64 in *; rewrite ?two64_eq in *; lia.

Lemma consecutive_run_le_length (rounds : list Z) k :
  consecutive_run rounds k → k ≤ Z.of_nat (length rounds).
Proof.
  intros (Hk0 & Hin & _).
  pose proof (block_length rounds (max_round rounds - k + 1) (max_round rounds)) as Hb.
  assert (max_round rounds - (max_round rounds - k + 1) + 1 ≤ Z.of_nat (length rounds)); [|lia].
  apply Hb. intros j Hj.
  replace j with (max_round rounds - (max_round rounds - j)) by lia. apply Hin. lia.
Qed.

(** What one iteration does to [done] and [usedTotal]. *)
Lemma loop_body_done maxEmptyRounds lastKnownIndex st res st' evs returned :
  result_ok res → state_ok st → Z.of_nat (length (empty st)) + 1 < two64 →
  loop_body maxEmptyRounds lastKnownIndex st res = Some (st', evs, returned) →
  (done st = true → done st' = true) ∧
  (Error res ≠ None → done st' = true) ∧
  (done st' = true →
   done st = true ∨ Error res ≠ None ∨
   (empty st' ≠ [] ∧ maxEmptyRounds ≤ Z.of_nat (length (empty st')))) ∧
  usedTotal st' =
    (if no_error res then wrap64 (usedTotal st + Z.of_nat (length (Addresses res)))
     else usedTotal st).
Proof.
  intros [HR _] [Hu _] Hlen Hbody. unfold no_error.
  destruct (Error res) as [err|] eqn:HErr.
  - rewrite (loop_body_error _ _ _ _ err HErr) in Hbody. injection Hbody as <- <- <-.
    rewrite bool_decide_eq_false_2 by done. simpl. split_and!; try done. intros _. by right; left.
  - rewrite bool_decide_eq_true_2 by done.
    destruct (record_empty_spec maxEmptyRounds lastKnownIndex st res HErr HR Hu Hlen)
      as (st1 & Hrec & _ & Hut & _ & Hcount).
    destruct (loop_body_ok maxEmptyRounds lastKnownIndex st res HErr HR Hu Hlen)
      as (st1' & Hrec' & Hbody').
    assert (st1' = st1) as -> by congruence. cbn zeta in Hbody'.
    assert (st' = aggregate st1 res) as ->.
    { rewrite Hbody in Hbody'. destruct (interfaceToJSON _); congruence. }
    destruct (aggregate_spec st1 res) as (_ & _ & Hat & Hae & Had).
    rewrite Had, Hat, Hae, Hut.
    destruct (counts_as_empty lastKnownIndex res).
    + destruct Hcount as (He & k & Hk & Hrun & Hd). rewrite Hd.
      apply consecutive_run_le_length in Hrun.
      split_and!; try done.
      * intros ->. done.
      * intros [?|Hmax%Z.leb_le]%orb_true_iff; [by left|]. right. right.
        split; [|lia]. rewrite He. by destruct (empty st).
    + destruct Hcount as (He & ->). split_and!; try done. intros ?. by left.
Qed.

Lemma results_loop_done maxEmptyRounds lastKnownIndex st arrivals st' evs returned :
  Forall result_ok arrivals → state_ok st →
  Z.of_nat (length (empty st)) + Z.of_nat (length arrivals) < two64 →
  results_loop maxEmptyRounds lastKnownIndex st arrivals = Some (st', evs, returned) →
  (done st = true → done st' = true) ∧
  (done st' = true →
   done st = true ∨ (∃ res, res ∈ arrivals ∧ Error res ≠ None) ∨
   (empty st' ≠ [] ∧ maxEmptyRounds ≤ Z.of_nat (length (empty st')))).
Proof.
  intros Hall. revert st evs.
  induction Hall as [|res arrivals Hres Hall IH]; intros st evs Hst Hlen.
  - intros [= <- <- <-]. split; [done|]. intros ?. by left.
  - cbn [length] in Hlen.
    intros (st1 & evs1 & ret1 & Hbody & Hrest)%results_loop_cons.
    destruct (loop_body_done _ _ _ _ _ _ _ Hres Hst ltac:(lia) Hbody) as (Hkeep & _ & Hwhy & _).
    destruct (loop_body_state_ok _ _ _ _ _ _ _ Hres Hst Hbody) as [Hst1 Hlen1].
    assert (Hcase : (done st1 = true → done st' = true) ∧
              (done st' = true →
               done st1 = true ∨ (∃ r, r ∈ arrivals ∧ Error r ≠ None) ∨
               (empty st' ≠ [] ∧ maxEmptyRounds ≤ Z.of_nat (length (empty st')))) ∧
              (∃ l, empty st' = empty st1 ++ l)).
    { destruct ret1.
      - destruct Hrest as (-> & _ & _). split; [done|]. split; [by left|].
        exists []. by rewrite app_nil_r.
      - destruct Hrest as (evs2 & Hloop & _).
        destruct (IH _ _ Hst1 ltac:(lia) Hloop) as [H1 H2].
        split; [done|]. split; [done|].
        destruct (results_loop_empty _ _ _ _ _ _ _ Hloop) as (? & ? & _ & _ & ->).
        by eexists. }
    destruct Hcase as (Hkeep' & Hwhy' & l & Hgrow). split; [by auto|].
    intros Hd. destruct (Hwhy' Hd) as [Hd1|[(r & Hr & HErr)|Hmax]].
    + destruct (Hwhy Hd1) as [?|[?|[Hne Hmax]]]; [by left| |].
      * right. left. exists res. split; [by left|done].
      * right. right. rewrite Hgrow, length_app. split; [|lia].
        by destruct (empty st1).
    + right. left. exists r. split; [by right|done].
    + by right; right.
Qed.

(** X9.  The loop never reopens [done], and it closes it only for a
    reason: after any loop started with [done] open, [done] is closed only
    if a result with an error arrived, or if at least [maxEmptyRounds]
    results are recorded in [empty] (and at least one is): the scan is
    never stopped by fewer empty rounds than asked for. *)
Theorem done_closed_only_for_a_reason maxEmptyRounds lastKnownIndex arrivals :
  Forall result_ok arrivals → slice_len arrivals →
  ∃ st' evs returned,
    results_loop maxEmptyRounds lastKnownIndex scan_init arrivals = Some (st', evs, returned) ∧
    (done st' = true →
     (∃ res, res ∈ arrivals ∧ Error res ≠ None) ∨
     (empty st' ≠ [] ∧ maxEmptyRounds ≤ Z.of_nat (length (empty st')))) ∧
    (∀ pre post st evs1,
       arrivals = pre ++ post →
       results_loop maxEmptyRounds lastKnownIndex scan_init pre = Some (st, evs1, false) →
       done st = true → done st' = true).
Proof.
  intros Hall Hlen.
  destruct (results_loop_total maxEmptyRounds lastKnownIndex scan_init arrivals Hall scan_init_ok)
    as (st' & evs & ret & Hloop); [simpl; lia64|].
  exists st', evs, ret. split; [done|]. split.
  - intros Hd.
    destruct (results_loop_done _ _ _ _ _ _ _ Hall scan_init_ok ltac:(simpl; lia64) Hloop)
      as [_ Hwhy].
    destruct (Hwhy Hd) as [?|[?|?]]; [done|by left|by right].
  - intros pre post st evs1 -> Hpre Hd.
    rewrite (results_loop_app _ _ _ _ _ _ _ Hpre) in Hloop.
    destruct (results_loop _ _ st post) as [[[st2 evs2] ret2]|] eqn:Hpost; [|done].
    simpl in Hloop. injection Hloop as -> _ _.
    apply Forall_app in Hall as [Hall1 Hall2].
    pose proof (results_loop_state_ok _ _ _ _ _ _ _ Hall1 scan_init_ok Hpre) as Hst.
    destruct (results_loop_empty _ _ _ _ _ _ _ Hpre) as (processed & rest & Heq & _ & He).
    eapply (results_loop_done _ _ st post); [done|done| |exact Hpost|done].
    rewrite He. simpl. rewrite length_fmap.
    pose proof (length_filter (λ res, counts_as_empty lastKnownIndex res) processed) as Hf.
    assert (length processed ≤ length pre)%nat by (rewrite Heq, length_app; lia).
    unfold slice_len in Hlen. rewrite length_app in Hlen. rewrite two64_eq. lia.
Qed.

(** The sum of the numbers of addresses of the results without error. *)
Lemma results_loop_usedTotal maxEmptyRounds lastKnownIndex st arrivals st' evs returned :
  Forall result_ok arrivals → state_ok st → uint64 (usedTotal st) →
  Z.of_nat (length (empty st)) + Z.of_nat (length arrivals) < two64 →
  results_loop maxEmptyRounds lastKnownIndex st arrivals = Some (st', evs, returned) →
  ∃ processed rest,
    arrivals = processed ++ rest ∧ (returned = false → rest = []) ∧
    length evs = length (filter (λ res, no_error res) processed) ∧
    usedTotal st' =
      wrap64 (usedTotal st +
              Z.of_nat (sum_list_with (λ res, length (Addresses res))
                          (filter (λ res, no_error res) processed))).
Proof.
  intros Hall. revert st evs.
  induction Hall as [|res arrivals Hres Hall IH]; intros st evs Hst Hut Hlen.
  - intros [= <- <- <-]. exists [], []. simpl. rewrite Z.add_0_r.
    by rewrite wrap64_small.
  - cbn [length] in Hlen.
    intros (st1 & evs1 & ret1 & Hbody & Hrest)%results_loop_cons.
    destruct (loop_body_done _ _ _ _ _ _ _ Hres Hst ltac:(lia) Hbody) as (_ & _ & _ & Hut1).
    destruct (loop_body_state_ok _ _ _ _ _ _ _ Hres Hst Hbody) as [Hst1 Hlen1].
    assert (Hstep : usedTotal st1 =
              wrap64 (usedTotal st +
                      Z.of_nat (sum_list_with (λ res, length (Addresses res))
                                  (filter (λ res, no_error res) [res]))) ∧
              length evs1 = length (filter (λ res, no_error res) [res])).
    { rewrite Hut1, filter_cons, filter_nil. unfold no_error.
      destruct (loop_body_events _ _ _ _ _ _ _ Hbody)
        as [(-> & _ & HErr)|[(-> & _ & HErr)|(err & -> & _ & HErr)]].
      - rewrite bool_decide_eq_false_2 by done. simpl.
        rewrite Z.add_0_r. by rewrite wrap64_small.
      - rewrite bool_decide_eq_true_2 by done. simpl. split; [|done]. f_equal. lia.
      - rewrite bool_decide_eq_true_2 by done. simpl. split; [|done]. f_equal. lia. }
    destruct Hstep as [Hstep Hevs1].
    destruct ret1.
    + destruct Hrest as (-> & -> & ->). by exists [res], arrivals.
    + destruct Hrest as (evs2 & Hloop & ->).
      assert (Hut1' : uint64 (usedTotal st1)) by (rewrite Hstep; apply wrap64_uint64).
      destruct (IH _ _ Hst1 Hut1' ltac:(lia) Hloop)
        as (processed & rest & -> & Hrest & Hevs2 & ->).
      exists (res :: processed), rest. split; [done|]. split; [done|].
      change (res :: processed) with ([res] ++ processed).
      rewrite filter_app, sum_list_with_app, Nat2Z.inj_add, !length_app. split; [lia|].
      rewrite Hstep, wrap64_add_l. f_equal. lia.
Qed.

(** X10.  [usedTotal] is the number of addresses in the results without
    error that the loop has taken (each of which gave one event), modulo
    [2^64]; results with an error add nothing.  When the loop runs to the
    end these are all the arrivals. *)
Theorem usedTotal_counts_addresses maxEmptyRounds lastKnownIndex arrivals :
  Forall result_ok arrivals → slice_len arrivals →
  ∃ st' evs returned processed rest,
    results_loop maxEmptyRounds lastKnownIndex scan_init arrivals = Some (st', evs, returned) ∧
    arrivals = processed ++ rest ∧ (returned = false → rest = []) ∧
    length evs = length (filter (λ res, no_error res) processed) ∧
    usedTotal st' =
      wrap64 (Z.of_nat (sum_list_with (λ res, length (Addresses res))
                          (filter (λ res, no_error res) processed))).
Proof.
  intros Hall Hlen.
  destruct (results_loop_total maxEmptyRounds lastKnownIndex scan_init arrivals Hall scan_init_ok)
    as (st' & evs & ret & Hloop); [simpl; lia64|].
  destruct (results_loop_usedTotal _ _ _ _ _ _ _ Hall scan_init_ok ltac:(simpl; lia64)
              ltac:(simpl; lia64) Hloop) as (processed & rest & Heq & Hrest & Hevs & Hut).
  by exists st', evs, ret, processed, rest.
Qed.

(** One iteration does not read [usedTotal] or [done]. *)
Lemma loop_body_same_aggregation maxEmptyRounds lastKnownIndex st1 st2 res st1' evs returned :
  same_aggregation st1 st2 →
  loop_body maxEmptyRounds lastKnownIndex st1 res = Some (st1', evs, returned) →
  ∃ st2',
    loop_body maxEmptyRounds lastKnownIndex st2 res = Some (st2', evs, returned) ∧
    same_aggregation st1' st2'.
Proof.
  destruct st1 as [i1 u1 t1 e1 d1], st2 as [i2 u2 t2 e2 d2].
  intros (Hi & Ht & He). simpl in Hi, Ht, He. subst i2 t2 e2.
  unfold loop_body. destruct (Error res).
  - intros [= <- <- <-]. eexists. split; [done|]. done.
  - unfold record_empty. cbn [empty Addresses].
    destruct ((length (Addresses res) =? 0)%nat && (lastKnownIndex <=? End res)).
    + destruct (consecutiveEmptyRounds (e1 ++ [Round res])) as [k|]; [|done].
      cbn [mbind option_bind]. destruct (maxEmptyRounds <=? k);
        unfold close_done, aggregate; cbn [lastIndex usedTotal lastUsageType empty done];
        destruct (i1 <? LastUsedIndex res); cbn [lastIndex];
        destruct (interfaceToJSON _); intros [= <- <- <-]; by eexists.
    + cbn [mbind option_bind]. unfold aggregate.
      cbn [lastIndex usedTotal lastUsageType empty done].
      destruct (i1 <? LastUsedIndex res); cbn [lastIndex];
        destruct (interfaceToJSON _); intros [= <- <- <-]; by eexists.
Qed.

(** X11.  The loop never reads [usedTotal], and never reads [done] (it
    only closes it): started from two states that agree on [lastIndex],
    [lastUsageType] and [empty], it invokes the callback with the same
    events and ends in states that agree on them again.  In particular,
    results that arrive after [done] is closed are aggregated and reported
    like the others. *)
Theorem events_ignore_usedTotal_and_done maxEmptyRounds lastKnownIndex st1 st2 arrivals
    st1' evs returned :
  same_aggregation st1 st2 →
  results_loop maxEmptyRounds lastKnownIndex st1 arrivals = Some (st1', evs, returned) →
  ∃ st2',
    results_loop maxEmptyRounds lastKnownIndex st2 arrivals = Some (st2', evs, returned) ∧
    same_aggregation st1' st2'.
Proof.
  revert st1 st2 evs. induction arrivals as [|res arrivals IH]; intros st1 st2 evs Hsame.
  - intros [= <- <- <-]. by exists st2.
  - intros (sta & evsa & reta & Hbody & Hrest)%results_loop_cons.
    destruct (loop_body_same_aggregation _ _ _ _ _ _ _ _ Hsame Hbody) as (stb & Hbody' & Hsame').
    cbn [results_loop]. rewrite Hbody'. cbn [mbind option_bind]. destruct reta.
    + destruct Hrest as (-> & -> & ->). by exists stb.
    + destruct Hrest as (evs2 & Hloop & ->).
      destruct (IH _ _ _ Hsame' Hloop) as (st2' & -> & Hsame'').
      cbn [mbind option_bind]. by exists st2'.
Qed.

Lemma max_index_permutation (l l' : list Z) : l ≡ₚ l' → max_index l = max_index l'.
Proof. induction 1; simpl; lia. Qed.

(** After a complete loop [lastIndex] is the largest last used index
    received without error. *)
Lemma results_loop_max maxEmptyRounds lastKnownIndex st arrivals st' evs :
  0 ≤ lastIndex st →
  results_loop maxEmptyRounds lastKnownIndex st arrivals = Some (st', evs, false) →
  lastIndex st' =
    Z.max (lastIndex st) (max_index (LastUsedIndex <$> filter (λ res, no_error res) arrivals)).
Proof.
  revert st evs. induction arrivals as [|res arrivals IH]; intros st evs Hi.
  - intros [= <- <-]. simpl. lia.
  - intros (st1 & evs1 & ret1 & Hbody & Hrest)%results_loop_cons.
    destruct ret1; [by destruct Hrest as (_ & _ & ?)|].
    destruct Hrest as (evs2 & Hloop & _).
    destruct (loop_body_state _ _ _ _ _ _ _ Hbody) as (Hli & _ & _).
    rewrite (IH _ _ ltac:(rewrite Hli; destruct (bool_decide _); lia) Hloop), Hli.
    rewrite filter_cons. unfold no_error.
    destruct (bool_decide (Error res = None)); simpl; [|done].
    by rewrite <- Z.max_assoc.
Qed.

(** The events of a loop that the JSON bridge never interrupts. *)
Lemma results_loop_progress maxEmptyRounds lastKnownIndex st arrivals st' evs returned :
  json_total →
  results_loop maxEmptyRounds lastKnownIndex st arrivals = Some (st', evs, returned) →
  returned = false ∧
  event_addresses <$> evs = Addresses <$> filter (λ res, no_error res) arrivals ∧
  event_found <$> evs =
    (λ res, Some (Z.of_nat (length (Addresses res)))) <$> filter (λ res, no_error res) arrivals.
Proof.
  intros Hjson. revert st evs. induction arrivals as [|res arrivals IH]; intros st evs.
  - by intros [= <- <- <-].
  - intros (st1 & evs1 & ret1 & Hbody & Hrest)%results_loop_cons.
    pose proof (loop_body_json_total _ _ _ _ _ _ _ Hjson Hbody) as ->.
    destruct Hrest as (evs2 & Hloop & ->).
    destruct (IH _ _ Hloop) as (-> & Ha & Hf). split; [done|].
    rewrite !fmap_app, Ha, Hf, filter_cons.
    destruct (loop_body_events _ _ _ _ _ _ _ Hbody)
      as [(-> & _ & HErr)|[(-> & _ & HErr)|(err & _ & ? & _)]]; [| |done].
    + assert (no_error res = false) as ->; [|done].
      unfold no_error. by rewrite bool_decide_eq_false_2.
    + assert (no_error res = true) as ->; [|done].
      unfold no_error. by rewrite bool_decide_eq_true_2.
Qed.

Lemma delivered_error_no_addresses w startIndex addressCount arrivals res :
  delivered w startIndex addressCount arrivals → res ∈ arrivals →
  Error res ≠ None → Addresses res = [].
Proof.
  intros (jobs & _ & _ & ->) ([n resp] & -> & _)%list_elem_of_fmap. simpl.
  destruct resp as [used|err]; [|done].
  by destruct (recoveryWorker_answer_ok w (issued startIndex addressCount n) used)
    as (_ & _ & _ & -> & _).
Qed.

(** X12.  When the JSON bridge does not fail, the loop reports every
    result without error with exactly one progress event, in arrival
    order, carrying the addresses of that result unchanged and their
    number as [found]; results with an error give no event (and carry no
    address).  So every address a worker found reaches the caller exactly
    once. *)
Theorem progress_reports_every_result w startIndex addressCount maxEmptyRounds
    lastKnownIndex arrivals :
  delivered w startIndex addressCount arrivals → slice_len arrivals → json_total →
  ∃ st' evs,
    results_loop maxEmptyRounds lastKnownIndex scan_init arrivals = Some (st', evs, false) ∧
    Forall (λ ev, is_progress ev = true) evs ∧
    event_addresses <$> evs = Addresses <$> filter (λ res, no_error res) arrivals ∧
    event_found <$> evs =
      (λ res, Some (Z.of_nat (length (Addresses res))))
        <$> filter (λ res, no_error res) arrivals ∧
    concat (event_addresses <$> evs) = concat (Addresses <$> arrivals).
Proof.
  intros Hdel Hlen Hjson. pose proof (delivered_result_ok _ _ _ _ Hdel) as Hall.
  destruct (results_loop_total maxEmptyRounds lastKnownIndex scan_init arrivals Hall scan_init_ok)
    as (st' & evs & ret & Hloop); [simpl; lia64|].
  destruct (results_loop_progress _ _ _ _ _ _ _ Hjson Hloop) as (-> & Ha & Hf).
  exists st', evs. split; [done|].
  split; [exact (results_loop_events _ _ _ _ _ _ _ Hloop)|]. split; [done|]. split; [done|].
  rewrite Ha.
  assert (Herr : ∀ res, res ∈ arrivals → Error res ≠ None → Addresses res = []).
  { intros res. by apply (delivered_error_no_addresses w startIndex addressCount). }
  clear -Herr. induction arrivals as [|res arrivals IH]; [done|].
  rewrite filter_cons, fmap_cons. cbn [concat].
  rewrite <- IH by (intros r Hr; apply Herr; by right).
  destruct (decide _) as [Hne|Hne]; [done|].
  rewrite (Herr res); [done|by left|].
  intros HErr. apply Hne. unfold no_error. by rewrite bool_decide_eq_true_2.
Qed.

(** The indices of the progress events never decrease. *)
Lemma results_loop_sorted maxEmptyRounds lastKnownIndex st arrivals st' evs returned :
  results_loop maxEmptyRounds lastKnownIndex st arrivals = Some (st', evs, returned) →
  StronglySorted Z.le (omap progress_index evs).
Proof.
  revert st evs. induction arrivals as [|res arrivals IH]; intros st evs.
  - intros [= <- <- <-]. constructor.
  - intros (st1 & evs1 & ret1 & Hbody & Hrest)%results_loop_cons.
    destruct (loop_body_events _ _ _ _ _ _ _ Hbody)
      as [(-> & -> & _)|[(-> & -> & _)|(err & -> & -> & _)]].
    + destruct Hrest as (evs2 & Hloop & ->). simpl. by eapply IH.
    + destruct Hrest as (evs2 & Hloop & ->). csimpl. constructor; [by eapply IH|].
      destruct (results_loop_lastIndex _ _ _ _ _ _ _ Hloop) as (_ & Hev & _).
      apply Forall_forall. intros i (ev & Hin & Hi)%list_elem_of_omap.
      destruct ev as [f a j| |]; try done. injection Hi as ->.
      by destruct (Hev f a i Hin).
    + destruct Hrest as (-> & -> & ->). csimpl. constructor.
Qed.

(** X13.  The indices carried by the progress events of a run never
    decrease from one event to the next, whatever the order in which the
    rounds arrive; they start at 0 or above and stay at or below the final
    [lastIndex]. *)
Theorem progress_indices_never_decrease maxEmptyRounds lastKnownIndex arrivals :
  Forall result_ok arrivals → slice_len arrivals →
  ∃ st' evs returned,
    results_loop maxEmptyRounds lastKnownIndex scan_init arrivals = Some (st', evs, returned) ∧
    StronglySorted Z.le (omap progress_index evs) ∧
    Forall (λ i, 0 ≤ i ≤ lastIndex st') (omap progress_index evs).
Proof.
  intros Hall Hlen.
  destruct (results_loop_total maxEmptyRounds lastKnownIndex scan_init arrivals Hall scan_init_ok)
    as (st' & evs & ret & Hloop); [simpl; lia64|].
  exists st', evs, ret. split; [done|]. split; [by eapply results_loop_sorted|].
  destruct (results_loop_lastIndex _ _ _ _ _ _ _ Hloop) as (_ & Hev & _).
  apply Forall_forall. intros i (ev & Hin & Hi)%list_elem_of_omap.
  destruct ev as [f a j| |]; try done. injection Hi as ->.
  exact (Hev f a i Hin).
Qed.

(** X14.  The final report does not depend on the order of arrival.  After
    a complete loop [lastIndex] is the largest [LastUsedIndex] received
    without error ([0] if there is none); and two runs over the same
    results in different orders end with the same terminal event, provided
    the JSON bridge does not fail and results that tie on their last used
    index agree on its usage type. *)
Theorem final_report_order_independent w maxEmptyRounds lastKnownIndex arrivals arrivals' :
  arrivals ≡ₚ arrivals' → Forall result_ok arrivals → slice_len arrivals → json_total →
  (∀ r r', r ∈ arrivals → r' ∈ arrivals → Error r = None → Error r' = None →
           LastUsedIndex r = LastUsedIndex r' → LastUsedType r = LastUsedType r') →
  ∃ st evs st' evs' final,
    results_loop maxEmptyRounds lastKnownIndex scan_init arrivals = Some (st, evs, false) ∧
    results_loop maxEmptyRounds lastKnownIndex scan_init arrivals' = Some (st', evs', false) ∧
    lastIndex st = max_index (LastUsedIndex <$> filter (λ res, no_error res) arrivals) ∧
    lastIndex st' = lastIndex st ∧ lastUsageType st' = lastUsageType st ∧
    (∃ additional index, final = EvDone additional index) ∧
    scan_events w maxEmptyRounds lastKnownIndex arrivals = Some (evs ++ [final]) ∧
    scan_events w maxEmptyRounds lastKnownIndex arrivals' = Some (evs' ++ [final]).
Proof.
  intros Hperm Hall Hlen Hjson Hties.
  assert (Hall' : Forall result_ok arrivals') by by rewrite <- Hperm.
  assert (Hlen' : slice_len arrivals') by (unfold slice_len; by rewrite <- Hperm).
  destruct (scan_events_total w maxEmptyRounds lastKnownIndex arrivals Hall Hlen)
    as (st & evs & ret & Hloop & Hst & Hscan).
  destruct (scan_events_total w maxEmptyRounds lastKnownIndex arrivals' Hall' Hlen')
    as (st' & evs' & ret' & Hloop' & Hst' & Hscan').
  pose proof (results_loop_json_total _ _ _ _ _ _ _ Hjson Hloop) as ->.
  pose proof (results_loop_json_total _ _ _ _ _ _ _ Hjson Hloop') as ->.
  assert (Hinit : 0 ≤ lastIndex scan_init) by (simpl; lia).
  pose proof (results_loop_max _ _ _ _ _ _ Hinit Hloop) as Hmax.
  pose proof (results_loop_max _ _ _ _ _ _ Hinit Hloop') as Hmax'.
  cbn [scan_init lastIndex] in Hmax, Hmax'.
  pose proof (max_index_nonneg (LastUsedIndex <$> filter (λ res, no_error res) arrivals)).
  pose proof (max_index_nonneg (LastUsedIndex <$> filter (λ res, no_error res) arrivals')).
  rewrite Z.max_r in Hmax, Hmax' by done.
  assert (Hidx : lastIndex st' = lastIndex st).
  { rewrite Hmax, Hmax'. apply max_index_permutation. by rewrite Hperm. }
  assert (Hty : lastUsageType st' = lastUsageType st).
  { destruct (results_loop_update _ _ _ _ _ _ Hloop)
      as [(Hi & Ht & _)|(pre & res & post & Heq & HErr & Hi & Ht & Hlt & _)];
    destruct (results_loop_update _ _ _ _ _ _ Hloop')
      as [(Hi' & Ht' & _)|(pre' & res' & post' & Heq' & HErr' & Hi' & Ht' & Hlt' & _)];
    simpl in *.
    - by rewrite Ht, Ht'.
    - lia.
    - lia.
    - rewrite Ht, Ht'. apply Hties; try done.
      + rewrite Hperm, Heq'. apply elem_of_app. right. by left.
      + rewrite Heq. apply elem_of_app. right. by left.
      + lia. }
  rewrite (final_report_spec w st Hst) in Hscan.
  rewrite (final_report_spec w st' Hst') in Hscan'. cbn zeta in Hscan, Hscan'.
  rewrite Hidx, Hty in Hscan'.
  destruct (Hjson (DoneData
              (if String.eqb (lastUsageType st) "sent"
               then [generateAddress w (lastIndex st + 1)] else [])
              (if String.eqb (lastUsageType st) "sent"
               then lastIndex st + 1 else lastIndex st))) as [data Hdata].
  rewrite Hdata in Hscan, Hscan'.
  exists st, evs, st', evs'. eexists (EvDone _ _).
  split; [done|]. split; [done|]. split; [done|]. split; [done|]. split; [done|].
  split; [by eexists _, _|]. split; [exact Hscan|exact Hscan'].
Qed.

End LoopProperties.

(** * Further properties of whole runs *)

Section RunProperties.
Context {wallet_api : WalletAPI} {services : Services}.

Implicit Types (w : SeedWallet) (st : scanState) (arrivals : list recoveryResults).

Ltac lia64 :=
  unfold state_ok, result_ok, slice_len, uint64 in *; rewrite ?two64_eq in *; lia.

(** X15.  Every completed run invokes the callback with progress events
    and then with exactly one terminal event, a done event or an error
    event, which is the last invocation. *)
Theorem run_ends_with_one_terminal_event seed currency startIndex maxEmptyRounds
    addressCount lastKnownIndex arrivals :
  Forall result_ok arrivals → slice_len arrivals →
  ∃ evs ev,
    RecoverAddresses seed currency startIndex maxEmptyRounds addressCount lastKnownIndex
      arrivals = Some evs ∧
    last evs = Some ev ∧
    filter (λ ev, is_terminal ev) evs = [ev] ∧
    filter (λ ev, is_progress ev) evs ++ [ev] = evs.
Proof.
  intros Hall Hlen.
  destruct (one_terminal_event seed currency startIndex maxEmptyRounds addressCount
              lastKnownIndex arrivals Hall Hlen) as (progress & ev & Hrun & Hp & Hev).
  exists (progress ++ [ev]), ev. split; [done|]. split; [by rewrite last_snoc|].
  assert (Hf1 : filter (λ ev, is_terminal ev) progress = []).
  { clear -Hp. induction Hp as [|x l Hx Hl IH]; [done|].
    rewrite filter_cons, IH. destruct x; done. }
  assert (Hf2 : filter (λ ev, is_progress ev) progress = progress).
  { clear -Hp. induction Hp as [|x l Hx Hl IH]; [done|].
    rewrite filter_cons, IH. destruct x; done. }
  rewrite !filter_app, Hf1, Hf2. split.
  - rewrite filter_cons, filter_nil. by rewrite Hev.
  - rewrite filter_cons, filter_nil. destruct ev; try done; simpl; by rewrite app_nil_r.
Qed.

Lemma recoveryWorker_answer_last w r used :
  LastUsedIndex (recoveryWorker_answer w r (inl used)) =
    max_index (Index <$> Addresses (recoveryWorker_answer w r (inl used))).
Proof.
  unfold recoveryWorker_answer.
  apply (worker_use_fold_last (worker_generate w r).1 used). simpl.
  split; [done|]. split; [done|]. lia.
Qed.

Lemma max_index_zero (l : list Z) : (∀ i, i ∈ l → i = 0) → max_index l = 0.
Proof.
  induction l as [|x l IH]; [done|]. intros Hall. simpl.
  rewrite IH by (intros i Hi; apply Hall; by right).
  rewrite (Hall x) by by left. done.
Qed.

(** X16.  When no address other than the one at index 0 was ever used, the
    run ends with a done event that carries index 0 and no additional
    address, whatever the usage type of address 0, even ["sent"]: the
    worker sets its last used type only for a positive index. *)
Theorem only_index_zero_used w startIndex addressCount maxEmptyRounds lastKnownIndex arrivals :
  delivered w startIndex addressCount arrivals → slice_len arrivals → json_total →
  (∀ res a, res ∈ arrivals → a ∈ Addresses res → Index a = 0) →
  ∃ progress,
    scan_events w maxEmptyRounds lastKnownIndex arrivals = Some (progress ++ [EvDone [] 0]) ∧
    Forall (λ ev, is_progress ev = true) progress.
Proof.
  intros Hdel Hlen Hjson Hzero. pose proof (delivered_result_ok _ _ _ _ Hdel) as Hall.
  assert (Hlast : ∀ res, res ∈ arrivals → LastUsedIndex res = 0).
  { intros res Hres. destruct Hdel as (jobs & _ & _ & Heq).
    pose proof Hres as Hres'. rewrite Heq in Hres'.
    apply list_elem_of_fmap in Hres' as ([n resp] & Hr & _). simpl in Hr.
    destruct resp as [used|err]; [|by rewrite Hr].
    rewrite Hr, recoveryWorker_answer_last. apply max_index_zero.
    intros i (a & -> & Ha)%list_elem_of_fmap.
    apply (Hzero res); [exact Hres|by rewrite Hr]. }
  destruct (scan_events_total w maxEmptyRounds lastKnownIndex arrivals Hall Hlen)
    as (st & evs & ret & Hloop & Hst & ->).
  pose proof (results_loop_json_total _ _ _ _ _ _ _ Hjson Hloop) as ->.
  pose proof (results_loop_events _ _ _ _ _ _ _ Hloop) as Hevs.
  exists evs. split; [|done].
  destruct (results_loop_update _ _ _ _ _ _ Hloop)
    as [(Hi & Ht & _)|(pre & res & post & -> & _ & _ & _ & Hlt & _)].
  - unfold final_report. rewrite Hi, Ht. simpl.
    by destruct (Hjson (DoneData [] 0)) as [data ->].
  - exfalso. rewrite Hlast in Hlt; [simpl in Hlt; lia|].
    apply elem_of_app. right. by left.
Qed.




End RunProperties.

(** * The goroutines *)

Section GoroutineProperties.
Context {wallet_api : WalletAPI} {services : Services}.
Variables (workers : nat) (w : SeedWallet) (currency : string)
          (startIndex maxEmptyRounds addressCount lastKnownIndex : Z).

Implicit Types (g : goroutines) (st : scanState) (res : recoveryResults)
               (slots : list (option nat)) (received : list nat) (hand : option nat).

Local Abbreviation answer := (round_answer w currency startIndex addressCount).
Local Abbreviation step :=
  (goroutines_step workers w currency maxEmptyRounds addressCount lastKnownIndex).
Local Abbreviation track :=
  (tracked workers w currency startIndex maxEmptyRounds addressCount lastKnownIndex).
Local Abbreviation run :=
  (run_schedule workers w currency maxEmptyRounds addressCount lastKnownIndex).
Local Abbreviation loop := (results_loop maxEmptyRounds lastKnownIndex).

Ltac lia64 :=
  unfold state_ok, result_ok, slice_len, uint64 in *; rewrite ?two64_eq in *; lia.

(** ** Lists *)

Lemma omap_id_insert_Some slots (i k : nat) :
  slots !! i = Some None → omap id (<[i := Some k]> slots) ≡ₚ k :: omap id slots.
Proof.
  revert i. induction slots as [|o slots IH]; intros [|i] Hi; simplify_eq/=; [done|].
  destruct o as [j|]; simpl.
  - rewrite (IH i Hi). apply perm_swap.
  - by apply IH.
Qed.

Lemma omap_id_insert_None slots (i k : nat) :
  slots !! i = Some (Some k) → omap id slots ≡ₚ k :: omap id (<[i := None]> slots).
Proof.
  revert i. induction slots as [|o slots IH]; intros [|i] Hi; simplify_eq/=; [done|].
  destruct o as [j|]; simpl.
  - rewrite (IH i Hi). apply perm_swap.
  - by apply IH.
Qed.

Lemma elem_of_insert_inv {A} (l : list A) (i : nat) (x y : A) :
  x ∈ <[i := y]> l → x = y ∨ x ∈ l.
Proof.
  intros (j & Hj)%list_elem_of_lookup.
  apply list_lookup_insert_Some in Hj as [(-> & -> & _)|(_ & Hj)]; [by left|].
  right. by eapply list_elem_of_lookup_2.
Qed.

Lemma elem_of_insert_keep {A} (l : list A) (i : nat) (a x y : A) :
  x ∈ l → l !! i = Some a → a ≠ x → x ∈ <[i := y]> l.
Proof.
  intros (j & Hj)%list_elem_of_lookup Hi Hne.
  apply list_elem_of_lookup. exists j.
  rewrite list_lookup_insert_ne; [done|]. intros ->. congruence.
Qed.

Lemma snoc_eq_app {A} (l pre post : list A) (x : A) :
  l ++ [x] = pre ++ post →
  (post = [] ∧ pre = l ++ [x]) ∨ (∃ post', post = post' ++ [x] ∧ l = pre ++ post').
Proof.
  destruct post as [|y post _] using rev_ind.
  - rewrite app_nil_r. intros <-. by left.
  - rewrite app_assoc. intros [-> ->]%app_inj_tail. right. by eexists.
Qed.

(** ** The consuming loop, one more result at a time *)

Lemma loop_body_keeps_done st res st' evs returned :
  loop_body maxEmptyRounds lastKnownIndex st res = Some (st', evs, returned) →
  done st = true → done st' = true.
Proof.
  unfold loop_body. destruct (Error res); [by intros [= <- _ _]|].
  intros Hbody Hd.
  destruct (record_empty _ _ st res) as [st1|] eqn:Hrec; [|done].
  cbn [mbind option_bind] in Hbody.
  assert (done st1 = true) as Hd1.
  { unfold record_empty in Hrec. destruct (_ && _); [|by simplify_eq].
    destruct (consecutiveEmptyRounds _) as [k|]; [|done]. cbn [mbind option_bind] in Hrec.
    injection Hrec as <-. by destruct (maxEmptyRounds <=? k). }
  destruct (aggregate_spec st1 res) as (_ & _ & _ & _ & Had).
  destruct (interfaceToJSON _); injection Hbody as <- _ _; congruence.
Qed.

Lemma results_loop_keeps_done st arrivals st' evs returned :
  loop st arrivals = Some (st', evs, returned) → done st = true → done st' = true.
Proof.
  revert st evs. induction arrivals as [|res arrivals IH]; intros st evs.
  - by intros [= <- _ _].
  - intros (st1 & evs1 & ret1 & Hbody & Hrest)%results_loop_cons Hd.
    pose proof (loop_body_keeps_done _ _ _ _ _ Hbody Hd) as Hd1. destruct ret1.
    + by destruct Hrest as (-> & _).
    + destruct Hrest as (evs2 & Hloop & _). by eapply IH.
Qed.

Lemma results_loop_returned st pre post st1 evs1 :
  loop st pre = Some (st1, evs1, true) → loop st (pre ++ post) = Some (st1, evs1, true).
Proof.
  revert st evs1. induction pre as [|res pre IH]; intros st evs1; [done|].
  intros (sta & evsa & reta & Hbody & Hrest)%results_loop_cons.
  cbn [app results_loop]. rewrite Hbody. cbn [mbind option_bind]. destruct reta.
  - by destruct Hrest as (-> & -> & _).
  - destruct Hrest as (evsb & Hloop & ->). by rewrite (IH _ _ Hloop).
Qed.

Lemma results_loop_prefix st pre post x :
  loop st (pre ++ post) = Some x → is_Some (loop st pre).
Proof.
  revert st x. induction pre as [|res pre IH]; intros st x; [by eexists|].
  cbn [app results_loop].
  destruct (loop_body _ _ st res) as [[[st1 evs1] [|]]|]; simpl; [by eexists| |done].
  destruct (loop st1 (pre ++ post)) as [y|] eqn:Hloop; [|done]. intros _.
  destruct (IH _ _ Hloop) as [[[st2 evs2] ret2] ->]. by eexists.
Qed.

Lemma results_loop_prefix_done st0 pre post st evs returned st' evs' returned' :
  loop st0 (pre ++ post) = Some (st', evs', returned') →
  loop st0 pre = Some (st, evs, returned) →
  done st = true → done st' = true.
Proof.
  intros Hall Hpre Hd. destruct returned.
  - rewrite (results_loop_returned _ _ post _ _ Hpre) in Hall. by simplify_eq.
  - rewrite (results_loop_app _ _ _ _ _ _ _ Hpre) in Hall.
    destruct (loop st post) as [[[st2 evs2] ret2]|] eqn:Hpost; [|done].
    simpl in Hall. injection Hall as <- _ _. by eapply results_loop_keeps_done.
Qed.

Lemma results_loop_snoc st0 arrivals st evs res st' evs' returned :
  loop st0 arrivals = Some (st, evs, false) →
  loop_body maxEmptyRounds lastKnownIndex st res = Some (st', evs', returned) →
  loop st0 (arrivals ++ [res]) = Some (st', evs ++ evs', returned).
Proof.
  intros Hpre Hbody. rewrite (results_loop_app _ _ _ _ _ _ _ Hpre).
  cbn [results_loop]. rewrite Hbody. cbn [mbind option_bind].
  destruct returned; [done|]. simpl. by rewrite app_nil_r.
Qed.

(** ** The steps *)

Lemma turn_step_cases t g g' :
  turn_step workers w currency maxEmptyRounds addressCount lastKnownIndex t g = Some g' →
  g' = g ∨ step g g'.
Proof.
  destruct t as [|i|]; simpl.
  - intros [= <-]. unfold partitioner_turn. destruct (gAt g) eqn:Hat.
    + right. by constructor.
    + destruct (Nat.ltb_spec (length (gWork g)) workers); [|by left].
      right. by constructor.
    + by left.
  - intros [= <-]. unfold worker_turn. destruct (gWorkers g !! i) as [[|res|]|] eqn:Hi.
    + destruct (gWork g) as [|r work'] eqn:Hwork.
      * destruct (gAt g) eqn:Hat; [by left|by left|].
        right. rewrite <- Hat. by apply step_exit.
      * right. by apply step_take.
    + destruct (gHanded g) eqn:Hh; [by left|].
      destruct (gReturned g) eqn:Hret; [by left|].
      right. rewrite <- Hret. by apply step_hand.
    + by left.
    + by left.
  - unfold loop_turn. destruct (gHanded g) as [res|] eqn:Hh; [|intros [= <-]; by left].
    destruct (loop_body _ _ (gLoop g) res) as [[[st evs] returned]|] eqn:Hbody; [|done].
    intros [= <-]. right. by eapply step_body.
Qed.

Lemma omap_id_replicate_None (n : nat) : omap id (replicate n (@None nat)) = [].
Proof. induction n as [|n IH]; [done|exact IH]. Qed.

Lemma slot_of_replicate (n : nat) :
  Forall2 (slot_of w currency startIndex addressCount)
    (replicate n AtReceive) (replicate n None).
Proof. induction n as [|n IH]; simpl; by constructor. Qed.

Lemma under_way_take hand slots (i k : nat) :
  slots !! i = Some None →
  under_way hand (<[i := Some k]> slots) ≡ₚ under_way hand slots ++ [k].
Proof.
  intros Hi. unfold under_way. rewrite (omap_id_insert_Some slots i k Hi).
  rewrite <- (assoc_L (++)). f_equiv. apply Permutation_cons_append.
Qed.

Lemma under_way_hand slots (i k : nat) :
  slots !! i = Some (Some k) →
  under_way (Some k) (<[i := None]> slots) ≡ₚ under_way None slots.
Proof. intros Hi. unfold under_way. simpl. by rewrite <- (omap_id_insert_None slots i k Hi). Qed.

(** With one worker the rounds under way are in the order they were taken. *)
Lemma one_slot slots (i : nat) o :
  length slots = 1%nat → slots !! i = Some o → i = 0%nat ∧ slots = [o].
Proof.
  intros Hlen Hi. destruct slots as [|o' [|o'' slots]]; simplify_eq/=.
  destruct i as [|i]; by simplify_eq/=.
Qed.

Lemma tracked_init :
  track (goroutines_init workers startIndex) 0 [] None (replicate workers None).
Proof.
  split; simpl; unfold under_way; rewrite ?omap_id_replicate_None; try done.
  - apply slot_of_replicate.
  - lia.
  - by rewrite length_replicate.
  - intros pre post st evs ret Heq Hne. symmetry in Heq.
    by apply app_eq_nil in Heq as [_ ->].
  - intros pre post st evs ret Heq. symmetry in Heq.
    apply app_eq_nil in Heq as [-> ->]. by intros [= <- _ _].
  - by intros [[=] _]%elem_of_replicate.
  - by intros ?%Exists_nil.
  - intros _ pre res post Heq. by destruct pre.
Qed.

Ltac tracked_fields H :=
  destruct H as [Hp Hr Hh Hw Hwork Hsent Htaken Hcap Hpool Hloop Hclosed Hinhand Hrunning
                   Hover Hexit Herror Horder Hlast].

Lemma tracked_select g sent received hand slots :
  track g sent received hand slots → gAt g = AtSelect →
  track
    {| gPartitioner := gPartitioner g;
       gAt := if done (gLoop g) then AtReturn else AtSend;
       gWork := gWork g; gWorkers := gWorkers g; gHanded := gHanded g; gLoop := gLoop g;
       gEvents := gEvents g; gReturned := gReturned g; gReceived := gReceived g |}
    sent received hand slots.
Proof.
  intros Htr Hat. tracked_fields Htr. split; simpl; try done.
  - intros Hret. by destruct (done (gLoop g)).
  - intros pre post st evs ret Heq Hpre Hd.
    assert (done (gLoop g) = true) as ->.
    { rewrite Heq in Hloop. by eapply results_loop_prefix_done. }
    specialize (Hover _ _ _ _ _ Heq Hpre Hd). rewrite Hat in Hover. lia.
  - intros Hin. destruct (Hexit Hin) as [?|[? _]]; [by left|congruence].
Qed.

Lemma tracked_send g sent received hand slots :
  track g sent received hand slots → gAt g = AtSend → (length (gWork g) < workers)%nat →
  track
    {| gPartitioner := partitioner_next addressCount (gPartitioner g);
       gAt := AtSelect;
       gWork := gWork g ++ [partitioner_work addressCount (gPartitioner g)];
       gWorkers := gWorkers g; gHanded := gHanded g; gLoop := gLoop g;
       gEvents := gEvents g; gReturned := gReturned g; gReceived := gReceived g |}
    (S sent) received hand slots.
Proof.
  intros Htr Hat Hlt. tracked_fields Htr. split; simpl; try done.
  - by rewrite Hp.
  - rewrite length_app. simpl. rewrite Nat.add_1_r, seq_S, fmap_app. simpl.
    rewrite <- Hwork. f_equal. unfold issued. by rewrite Hp, Hsent.
  - rewrite length_app. simpl. lia.
  - rewrite length_app. simpl. lia.
  - intros pre post st evs ret Heq Hpre Hd.
    specialize (Hover _ _ _ _ _ Heq Hpre Hd). rewrite Hat in Hover. lia.
  - intros Hin. destruct (Hexit Hin) as [?|[? _]]; [by left|congruence].
Qed.

Lemma tracked_take g sent received hand slots i r work' :
  track g sent received hand slots →
  gWorkers g !! i = Some AtReceive → gWork g = r :: work' →
  track
    {| gPartitioner := gPartitioner g; gAt := gAt g; gWork := work';
       gWorkers := <[i := AtResult (recoveryWorker_round w currency r)]> (gWorkers g);
       gHanded := gHanded g; gLoop := gLoop g; gEvents := gEvents g;
       gReturned := gReturned g; gReceived := gReceived g |}
    sent received hand
    (<[i := Some (length received + length (under_way hand slots))%nat]> slots).
Proof.
  intros Htr Hi Hwk. tracked_fields Htr.
  destruct (Forall2_lookup_l _ _ _ _ _ Hw Hi) as (o & Hslot & Ho). simpl in Ho. subst o.
  set (b := (length received + length (under_way hand slots))%nat) in *.
  pose proof (under_way_take hand slots i b Hslot) as Hperm.
  pose proof (Permutation_length Hperm) as Hlen. rewrite length_app in Hlen. simpl in Hlen.
  rewrite Hwk in Hwork, Hsent, Hcap. simpl in Hwork, Hsent, Hcap.
  injection Hwork as Hr0 Hwork'.
  assert (Hb : (length received + length (under_way hand (<[i := Some b]> slots)))%nat = S b)
    by lia.
  split; simpl; rewrite ?Hb; try done.
  - apply Forall2_insert; [done|]. exists b. split; [done|].
    unfold round_answer. by rewrite Hr0.
  - lia.
  - rewrite seq_S. simpl. by rewrite Hperm, (assoc_L (++)), Htaken.
  - lia.
  - by rewrite length_insert.
  - intros [Heq|Hin]%elem_of_insert_inv; [done|].
    destruct (Hexit Hin) as [?|[_ Hnil]]; [by left|congruence].
  - intros Hex. eapply elem_of_insert_keep; [by apply Herror|exact Hi|done].
  - intros H1. specialize (Horder H1).
    assert (slots = [None]) as -> by (eapply one_slot; [|exact Hslot];
      rewrite <- (Forall2_length _ _ _ Hw); lia).
    destruct i as [|i]; [|done]. cbn [insert list_insert].
    assert (under_way hand [Some b] = under_way hand [None] ++ [b]) as ->.
    { unfold under_way. simpl. by rewrite app_nil_r. }
    by rewrite (assoc_L (++)), Horder, seq_S.
Qed.

Lemma tracked_exit g sent received hand slots i :
  track g sent received hand slots →
  gWorkers g !! i = Some AtReceive → gWork g = [] → gAt g = AtReturn →
  track
    {| gPartitioner := gPartitioner g; gAt := gAt g; gWork := [];
       gWorkers := <[i := AtExit]> (gWorkers g);
       gHanded := gHanded g; gLoop := gLoop g; gEvents := gEvents g;
       gReturned := gReturned g; gReceived := gReceived g |}
    sent received hand slots.
Proof.
  intros Htr Hi Hwk Hat. tracked_fields Htr.
  destruct (Forall2_lookup_l _ _ _ _ _ Hw Hi) as (o & Hslot & Ho). simpl in Ho. subst o.
  rewrite Hwk in Hwork, Hsent, Hcap. simpl in Hwork, Hsent, Hcap.
  split; simpl; try done.
  - rewrite <- (list_insert_id slots i None Hslot). by apply Forall2_insert.
  - by rewrite length_insert.
  - intros _. by right.
  - intros _. apply list_elem_of_insert. by eapply lookup_lt_Some.
Qed.

Lemma tracked_hand g sent received hand slots i res :
  track g sent received hand slots →
  gWorkers g !! i = Some (AtResult res) → gHanded g = None → gReturned g = false →
  ∃ k : nat,
    res = answer k ∧
    track
      {| gPartitioner := gPartitioner g; gAt := gAt g; gWork := gWork g;
         gWorkers := <[i := after_send res]> (gWorkers g);
         gHanded := Some res; gLoop := gLoop g; gEvents := gEvents g;
         gReturned := gReturned g; gReceived := gReceived g |}
      sent received (Some k) (<[i := None]> slots).
Proof.
  intros Htr Hi Hnone Hret. tracked_fields Htr.
  destruct (Forall2_lookup_l _ _ _ _ _ Hw Hi) as (o & Hslot & k & -> & Hres).
  exists k. split; [done|].
  assert (hand = None) as -> by (rewrite Hnone in Hh; by destruct hand).
  pose proof (under_way_hand slots i k Hslot) as Hperm.
  pose proof (Permutation_length Hperm) as Hlen.
  split; cbn [gPartitioner gAt gWork gWorkers gHanded gLoop gEvents gReturned gReceived];
    rewrite ?Hlen; try done.
  - by rewrite Hres.
  - apply Forall2_insert; [done|]. unfold after_send. by destruct (Error res).
  - by rewrite Hperm.
  - by rewrite length_insert.
  - by rewrite Hret.
  - rewrite Hnone, app_nil_r in Hexit.
    intros [Heq|Hin]%elem_of_insert_inv.
    + left. apply Exists_app. right. apply Exists_cons. left.
      unfold after_send in Heq. by destruct (Error res).
    + destruct (Hexit Hin) as [Hex|?]; [|by right].
      left. apply Exists_app. by left.
  - rewrite Hnone, app_nil_r in Herror. intros [Hex|Hex]%Exists_app.
    + eapply elem_of_insert_keep; [by apply Herror|exact Hi|done].
    + apply Exists_cons in Hex as [Hex|Hex%Exists_nil]; [|done].
      unfold after_send. destruct (Error res); [|done].
      apply list_elem_of_insert. by eapply lookup_lt_Some.
  - intros H1. specialize (Horder H1).
    assert (slots = [Some k]) as -> by (eapply one_slot; [|exact Hslot];
      rewrite <- (Forall2_length _ _ _ Hw); lia).
    destruct i as [|i]; [|done]. exact Horder.
  - intros H1 pre r post Heq HErr. rewrite Hnone, app_nil_r in Herror.
    apply (snoc_eq_app _ pre (r :: post)) in Heq as [[? _]|(post' & Hpost & Heq)]; [done|].
    destruct post' as [|r' post']; simpl in Hpost.
    { injection Hpost as -> Hpost. done. }
    exfalso. injection Hpost as <- _.
    assert (AtExit ∈ gWorkers g) as Hin.
    { apply Herror. rewrite Heq. apply Exists_app. right. apply Exists_cons. by left. }
    rewrite H1 in Hpool. destruct (gWorkers g) as [|a [|a' ws]]; simplify_eq/=.
    destruct i as [|i]; simplify_eq/=. apply list_elem_of_singleton in Hin. done.
Qed.

Lemma tracked_body g sent received hand slots res st evs returned :
  track g sent received hand slots →
  gHanded g = Some res →
  loop_body maxEmptyRounds lastKnownIndex (gLoop g) res = Some (st, evs, returned) →
  ∃ k : nat,
    res = answer k ∧
    track
      {| gPartitioner := gPartitioner g; gAt := gAt g; gWork := gWork g;
         gWorkers := gWorkers g; gHanded := None;
         gLoop := st; gEvents := gEvents g ++ evs; gReturned := returned;
         gReceived := gReceived g ++ [res] |}
      sent (received ++ [k]) None slots.
Proof.
  intros Htr Hsome Hbody. tracked_fields Htr.
  destruct hand as [k|]; [|by rewrite Hsome in Hh].
  rewrite Hsome in Hh. simpl in Hh. injection Hh as Hres.
  exists k. split; [done|].
  assert (Hret : gReturned g = false).
  { destruct (gReturned g); [|done]. by rewrite Hinhand in Hsome. }
  rewrite Hret in Hloop. rewrite Hsome in Hexit, Herror, Hlast. simpl in Hexit, Herror, Hlast.
  assert (Hb : (length (received ++ [k]) + length (under_way None slots) =
                length received + length (under_way (Some k) slots))%nat).
  { rewrite length_app. unfold under_way. simpl. lia. }
  assert (Hl : (received ++ [k]) ++ under_way None slots
               = received ++ under_way (Some k) slots).
  { by rewrite <- (assoc_L (++)). }
  split; cbn [gPartitioner gAt gWork gWorkers gHanded gLoop gEvents gReturned gReceived
              option_list];
    rewrite ?Hb, ?Hl, ?app_nil_r; try done.
  - by rewrite fmap_app, Hr, Hres.
  - by eapply results_loop_snoc.
  - intros Hat. eapply loop_body_keeps_done; [exact Hbody|]. by apply Hclosed.
  - intros pre post st' evs' ret' Heq Hne Hpre.
    apply snoc_eq_app in Heq as [[-> ->]|(post' & -> & Heq)]; [done|].
    destruct post' as [|r post']; [|by eapply (Hrunning pre (r :: post'))].
    rewrite app_nil_r in Heq. subst pre. congruence.
  - intros pre post st' evs' ret' Heq Hpre Hd.
    apply snoc_eq_app in Heq as [[-> ->]|(post' & -> & Heq)].
    + pose proof (omap_length_le id slots) as Hle.
      pose proof (Forall2_length _ _ _ Hw) as Hws.
      rewrite length_app, Hr, length_fmap. unfold under_way in Hsent. simpl in *.
      destruct (gAt g); lia.
    + by eapply Hover.
Qed.

Lemma tracked_step g g' sent received hand slots :
  track g sent received hand slots → step g g' →
  ∃ sent' received' hand' slots',
    track g' sent' received' hand' slots' ∧ (sent ≤ sent' ≤ S sent)%nat.
Proof.
  intros Htr Hstep. destruct Hstep as [Hat|Hat Hlt|i r work' Hi Hwk|i Hi Hwk Hat|
                                       i res Hi Hnone Hret|res st evs returned Hsome Hbody].
  - eexists _, _, _, _. split; [by apply tracked_select|lia].
  - eexists _, _, _, _. split; [by apply tracked_send|lia].
  - eexists _, _, _, _. split; [by apply tracked_take|lia].
  - eexists _, _, _, _. split; [by apply tracked_exit|lia].
  - destruct (tracked_hand _ _ _ _ _ _ _ Htr Hi Hnone Hret) as (k & _ & Htr').
    eexists _, _, _, _. split; [exact Htr'|lia].
  - destruct (tracked_body _ _ _ _ _ _ _ _ _ Htr Hsome Hbody) as (k & _ & Htr').
    eexists _, _, _, _. split; [exact Htr'|lia].
Qed.

(** ** Schedules *)

Lemma run_schedule_snoc schedule t g0 :
  run (schedule ++ [t]) g0 =
    run schedule g0 ≫=
      turn_step workers w currency maxEmptyRounds addressCount lastKnownIndex t.
Proof.
  revert g0. induction schedule as [|t0 schedule IH]; intros g0; simpl.
  - by destruct (turn_step _ _ _ _ _ _ t g0).
  - destruct (turn_step _ _ _ _ _ _ t0 g0) as [g1|]; simpl; [apply IH|done].
Qed.

Lemma tracked_results_ok g sent received hand slots :
  track g sent received hand slots → Forall result_ok (gReceived g).
Proof.
  intros Htr. tracked_fields Htr. rewrite Hr, Forall_fmap.
  apply Forall_true. intros k. apply recoveryWorker_round_result_ok.
Qed.

Lemma tracked_received_le g sent received hand slots :
  track g sent received hand slots → (length (gReceived g) ≤ sent)%nat.
Proof. intros Htr. tracked_fields Htr. rewrite Hr, length_fmap. lia. Qed.

(** The monitor's loop always ends: no step is undefined. *)
Lemma turn_step_total t g sent received hand slots :
  track g sent received hand slots → Z.of_nat sent < 2 ^ 63 →
  is_Some (turn_step workers w currency maxEmptyRounds addressCount lastKnownIndex t g).
Proof.
  intros Htr Hsmall. destruct t as [|i|]; simpl; [by eexists|by eexists|].
  unfold loop_turn. destruct (gHanded g) as [res|] eqn:Hsome; [|by eexists].
  pose proof (tracked_results_ok _ _ _ _ _ Htr) as Hall.
  pose proof (tracked_received_le _ _ _ _ _ Htr) as Hle.
  tracked_fields Htr.
  destruct hand as [k|]; [|by rewrite Hsome in Hh].
  rewrite Hsome in Hh. simpl in Hh. injection Hh as ->.
  pose proof (results_loop_state_ok _ _ _ _ _ _ _ Hall scan_init_ok Hloop) as Hst.
  destruct (results_loop_empty _ _ _ _ _ _ _ Hloop) as (processed & rest & Heq & _ & He).
  destruct (loop_body_total maxEmptyRounds lastKnownIndex (gLoop g) (answer k))
    as (st' & evs & ret & ->); [apply recoveryWorker_round_result_ok|done| |by eexists].
  rewrite He. simpl. rewrite length_fmap.
  pose proof (length_filter (λ res, counts_as_empty lastKnownIndex res) processed) as Hf.
  rewrite Heq, length_app in Hle. rewrite two64_eq. lia.
Qed.

(** Every schedule can be run, and what it reaches is tracked. *)
Lemma run_schedule_tracked schedule :
  Z.of_nat (length schedule) < 2 ^ 63 →
  ∃ g sent received hand slots,
    run schedule (goroutines_init workers startIndex) = Some g ∧
    track g sent received hand slots ∧ (sent ≤ length schedule)%nat.
Proof.
  induction schedule as [|t schedule IH] using rev_ind; intros Hlen.
  - eexists _, _, _, _, _. split; [done|]. split; [apply tracked_init|done].
  - rewrite length_app in Hlen. simpl in Hlen.
    destruct IH as (g & sent & received & hand & slots & Hrun & Htr & Hsent); [lia|].
    rewrite run_schedule_snoc, Hrun. simpl.
    destruct (turn_step_total t g _ _ _ _ Htr) as [g' Hstep]; [lia|].
    rewrite Hstep. rewrite length_app. simpl.
    apply turn_step_cases in Hstep as [->|Hstep].
    + eexists _, _, _, _, _. split; [done|]. split; [exact Htr|lia].
    + destruct (tracked_step _ _ _ _ _ _ Htr Hstep)
        as (sent' & received' & hand' & slots' & Htr' & ?).
      eexists _, _, _, _, _. split; [done|]. split; [exact Htr'|lia].
Qed.

Lemma run_schedule_reached schedule g :
  Z.of_nat (length schedule) < 2 ^ 63 →
  run schedule (goroutines_init workers startIndex) = Some g →
  ∃ sent received hand slots,
    track g sent received hand slots ∧ (sent ≤ length schedule)%nat.
Proof.
  intros Hlen Hrun.
  destruct (run_schedule_tracked schedule Hlen)
    as (g' & sent & received & hand & slots & Hrun' & Htr).
  assert (g' = g) as -> by congruence. by eexists _, _, _, _.
Qed.

(** ** What tracked goroutines have delivered *)

Lemma tracked_delivered g sent received hand slots :
  track g sent received hand slots → Z.of_nat sent ≤ two64 →
  delivered w startIndex addressCount (gReceived g).
Proof.
  intros Htr Hsmall. tracked_fields Htr.
  exists ((λ k, (k, FindUsedAddresses currency
                      (worker_generate w (issued startIndex addressCount k)).2))
            <$> received).
  rewrite <- !list_fmap_compose.
  assert (Hfst : (fst ∘ (λ k : nat, (k, FindUsedAddresses currency
             (worker_generate w (issued startIndex addressCount k)).2))) <$> received
           = received).
  { rewrite <- (list_fmap_id received) at 2. by apply list_fmap_ext. }
  rewrite Hfst.
  assert (Hnd : NoDup (received ++ under_way hand slots)).
  { rewrite Htaken. apply NoDup_seq. }
  split; [by apply NoDup_app in Hnd as (? & _)|]. split; [|by rewrite Hr].
  apply Forall_forall. intros k Hk.
  assert (k ∈ seq 0 (length received + length (under_way hand slots))) as Hin.
  { rewrite <- Htaken. apply elem_of_app. by left. }
  apply elem_of_seq in Hin. lia.
Qed.

Lemma tracked_scan_events g sent received hand slots evs :
  track g sent received hand slots → run_events w g = Some evs →
  scan_events w maxEmptyRounds lastKnownIndex (gReceived g) = Some evs.
Proof.
  intros Htr. tracked_fields Htr. unfold run_events, scan_events. rewrite Hloop. simpl.
  destruct (gReturned g); [done|]. destruct (gHanded g); [done|].
  by destruct (results_closed g).
Qed.

(** Once every worker has returned without any failed lookup and the loop
    has nothing in hand, [work] is closed and empty, nothing is under way,
    and the loop has run its body on the result of every round that was
    sent. *)
Lemma tracked_closed g sent received hand slots :
  track g sent received hand slots → (0 < workers)%nat →
  results_closed g = true → gHanded g = None →
  Forall (λ res, Error res = None) (gReceived g) →
  gAt g = AtReturn ∧ gWork g = [] ∧ done (gLoop g) = true ∧
  received ≡ₚ seq 0 sent ∧ length (gReceived g) = sent.
Proof.
  intros Htr Hpos Hcl Hnone Hok. tracked_fields Htr.
  unfold results_closed in Hcl. apply Is_true_true, forallb_True in Hcl.
  assert (Hin : AtExit ∈ gWorkers g).
  { destruct (gWorkers g) as [|a ws]; [simpl in Hpool; lia|].
    apply Forall_cons in Hcl as [Ha _]. destruct a; try done. by left. }
  rewrite Hnone in Hexit. simpl in Hexit. rewrite app_nil_r in Hexit.
  destruct (Hexit Hin) as [Hex|[Hat Hnil]].
  { exfalso. apply Exists_exists in Hex as (res & Hres & HErr).
    rewrite Forall_forall in Hok. by apply HErr, Hok. }
  assert (hand = None) as -> by (rewrite Hnone in Hh; by destruct hand).
  assert (Hslots : under_way None slots = []).
  { unfold under_way. simpl.
    clear -Hw Hcl. induction Hw as [|a o ws slots Ho Hw IH]; [done|].
    apply Forall_cons in Hcl as [Ha Hcl]. destruct a; try done. simpl in Ho. subst o.
    simpl. by apply IH. }
  rewrite Hslots, Hnil in *. simpl in *. rewrite app_nil_r in Htaken.
  rewrite !Nat.add_0_r in *. subst sent.
  split; [done|]. split; [done|]. split; [by apply Hclosed|]. split; [done|].
  by rewrite Hr, length_fmap.
Qed.

(** ** Results without any used address *)









(** ** After the stop signal, and after a failed lookup *)

Lemma tracked_overscan g sent received hand slots pre post st evs returned :
  track g sent received hand slots →
  gReceived g = pre ++ post →
  loop scan_init pre = Some (st, evs, returned) → done st = true →
  (length post + length (gWork g) ≤ 2 * workers + 1)%nat.
Proof.
  intros Htr Heq Hpre Hd. tracked_fields Htr.
  specialize (Hover _ _ _ _ _ Heq Hpre Hd).
  assert (length received = length pre + length post)%nat.
  { rewrite <- (length_fmap answer), <- Hr, Heq. apply length_app. }
  destruct (gAt g); lia.
Qed.

Lemma tracked_after_error g sent received hand slots pre res post :
  track g sent received hand slots →
  gReceived g = pre ++ res :: post → Error res ≠ None →
  done (gLoop g) = true ∧ AtExit ∈ gWorkers g ∧
  (length post + length (gWork g) ≤ 2 * workers + 1)%nat ∧
  (workers = 1%nat → post = [] ∧ gHanded g = None).
Proof.
  intros Htr Heq HErr.
  assert (∃ st evs, loop scan_init (pre ++ [res]) = Some (st, evs, false) ∧ done st = true)
    as (st & evs & Hpre & Hd).
  { pose proof Htr as Htr'. tracked_fields Htr'. rewrite Heq in Hloop.
    destruct (results_loop_prefix _ _ _ _ Hloop) as [[[st0 evs0] ret0] Hpre].
    assert (ret0 = false) as -> by (by eapply (Hrunning pre (res :: post))).
    destruct (Error res) as [err|] eqn:HErr'; [|done].
    eexists _, _. split.
    - eapply results_loop_snoc; [exact Hpre|]. by eapply loop_body_error.
    - done. }
  assert (Heq' : gReceived g = (pre ++ [res]) ++ post) by by rewrite <- (assoc_L (++)).
  pose proof (tracked_overscan _ _ _ _ _ _ _ _ _ _ Htr Heq' Hpre Hd) as Hbound.
  tracked_fields Htr. split_and!.
  - rewrite Heq' in Hloop. by eapply results_loop_prefix_done.
  - apply Herror. rewrite Heq. apply Exists_app. left. apply Exists_app. right.
    apply Exists_cons. by left.
  - done.
  - intros H1.
    assert (post ++ option_list (gHanded g) = []) as Hnil.
    { eapply (Hlast H1 pre res); [|done]. by rewrite Heq, <- (assoc_L (++)). }
    apply app_eq_nil in Hnil as [-> Hnil]. split; [done|]. by destruct (gHanded g).
Qed.

(** With one worker the loop runs its body on the results in round order. *)
Lemma tracked_one_worker g sent received hand slots :
  track g sent received hand slots → workers = 1%nat →
  gReceived g = answer <$> seq 0 (length (gReceived g)).
Proof.
  intros Htr H1. tracked_fields Htr. specialize (Horder H1).
  rewrite seq_app in Horder. apply app_inj_1 in Horder as [Horder _];
    [|by rewrite length_seq].
  rewrite Hr at 1. rewrite Horder at 1. by rewrite Hr, length_fmap.
Qed.

Lemma answer_no_error_round (k : nat) :
  Error (answer k) = None → Z.of_nat k < two64 → Round (answer k) = Z.of_nat k.
Proof.
  unfold round_answer, recoveryWorker_round. intros HErr Hk.
  destruct (FindUsedAddresses currency _) as [used|err]; [|done].
  destruct (recoveryWorker_answer_ok w (issued startIndex addressCount k) used) as (-> & _).
  by apply issued_wRound.
Qed.

Lemma tracked_one_worker_before_error g sent received hand slots pre res post :
  track g sent received hand slots → workers = 1%nat → Z.of_nat sent < two64 →
  gReceived g = pre ++ res :: post →
  ∀ (i : nat) r, pre !! i = Some r → r = answer i ∧ (Error r = None → Round r = Z.of_nat i) ∧
                 (Error r ≠ None → False).
Proof.
  intros Htr H1 Hsmall Heq i r Hi.
  pose proof (tracked_one_worker _ _ _ _ _ Htr H1) as Hord.
  pose proof (tracked_received_le _ _ _ _ _ Htr) as Hle.
  assert (Hlt : (i < length pre)%nat) by by eapply lookup_lt_Some.
  assert (Hr : r = answer i).
  { assert (gReceived g !! i = Some r) as Hg by (by rewrite Heq, lookup_app_l).
    rewrite Hord, list_lookup_fmap in Hg.
    destruct (seq 0 (length (gReceived g)) !! i) as [k|] eqn:Hk; [|done].
    apply lookup_seq in Hk as [-> _]. simpl in Hg. by injection Hg as <-. }
  split; [done|]. split.
  - intros HErr. rewrite Hr in *. apply answer_no_error_round; [done|].
    rewrite Heq, length_app in Hle. lia.
  - intros HErr. apply list_elem_of_split_length in Hi as (pre1 & pre2 & -> & _).
    rewrite <- (assoc_L (++)) in Heq. simpl in Heq.
    destruct (tracked_after_error _ _ _ _ _ _ _ _ Htr Heq HErr) as (_ & _ & _ & Hnil).
    destruct (Hnil H1) as [Hnil' _]. by destruct pre2.
Qed.

(** ** The schedule in which the partitioner is slow *)








End GoroutineProperties.

(** * Whole runs of the goroutines *)

Section RunsOfTheGoroutines.
Context {wallet_api : WalletAPI} {services : Services}.

Implicit Types (w : SeedWallet) (g : goroutines) (schedule : list turn).

Ltac lia64 :=
  unfold state_ok, result_ok, slice_len, uint64 in *; rewrite ?two64_eq in *; lia.

Lemma RecoverAddresses_run_eq (workers : nat) schedule seed currency w startIndex
    maxEmptyRounds addressCount lastKnownIndex :
  recoverWallet seed currency = inl w →
  RecoverAddresses_run workers schedule seed currency startIndex maxEmptyRounds
    addressCount lastKnownIndex =
  run_schedule workers w currency maxEmptyRounds addressCount lastKnownIndex schedule
    (goroutines_init workers startIndex) ≫= run_events w.
Proof. intros Hw. unfold RecoverAddresses_run. by rewrite Hw. Qed.

(** A call that has returned reports what [RecoverAddresses] reports on
    the values it received. *)
Lemma RecoverAddresses_run_received (workers : nat) schedule seed currency w startIndex
    maxEmptyRounds addressCount lastKnownIndex evs :
  recoverWallet seed currency = inl w → Z.of_nat (length schedule) < 2 ^ 63 →
  RecoverAddresses_run workers schedule seed currency startIndex maxEmptyRounds
    addressCount lastKnownIndex = Some evs →
  ∃ g,
    run_schedule workers w currency maxEmptyRounds addressCount lastKnownIndex schedule
      (goroutines_init workers startIndex) = Some g ∧
    run_events w g = Some evs ∧
    RecoverAddresses seed currency startIndex maxEmptyRounds addressCount lastKnownIndex
      (gReceived g) = Some evs ∧
    Forall result_ok (gReceived g) ∧ slice_len (gReceived g).
Proof.
  intros Hw Hlen Hevs. rewrite (RecoverAddresses_run_eq _ _ _ _ _ _ _ _ _ Hw) in Hevs.
  destruct (run_schedule _ _ _ _ _ _ _ _) as [g|] eqn:Hrun; [|done]. simpl in Hevs.
  destruct (run_schedule_reached _ _ _ _ _ _ _ _ _ Hlen Hrun)
    as (sent & received & hand & slots & Htr & Hsent).
  exists g. split; [done|]. split; [done|]. split; [|split].
  - unfold RecoverAddresses. rewrite Hw. by eapply tracked_scan_events.
  - by eapply tracked_results_ok.
  - pose proof (tracked_received_le _ _ _ _ _ _ _ _ _ _ _ _ Htr). lia64.
Qed.

(** A failed lookup is never reported, whatever the schedule: when the
    wallet is recovered and the JSON bridge does not fail, a call that has
    returned has reported progress events and then a done event. *)
Lemma run_ends_with_done (workers : nat) schedule seed currency w startIndex
    maxEmptyRounds addressCount lastKnownIndex evs :
  recoverWallet seed currency = inl w → json_total →
  Z.of_nat (length schedule) < 2 ^ 63 →
  RecoverAddresses_run workers schedule seed currency startIndex maxEmptyRounds
    addressCount lastKnownIndex = Some evs →
  Forall (λ ev, is_error ev = false) evs ∧
  ∃ additional index, last evs = Some (EvDone additional index).
Proof.
  intros Hw Hjson Hlen Hevs.
  destruct (RecoverAddresses_run_received _ _ _ _ _ _ _ _ _ _ Hw Hlen Hevs)
    as (g & _ & _ & Hrec & Hall & Hslice).
  destruct (lookup_error_not_reported seed currency w startIndex maxEmptyRounds addressCount
              lastKnownIndex (gReceived g) Hw Hjson Hall Hslice)
    as (progress & additional & index & Hrun & Hprog).
  assert (evs = progress ++ [EvDone additional index]) as -> by congruence.
  split; [|exists additional, index; by rewrite last_snoc].
  apply Forall_app. split; [|by repeat constructor].
  eapply Forall_impl; [exact Hprog|]. by intros [].
Qed.


(** X19.  Every schedule can be run: no step is undefined.  The values
    the loop has received from [results] and run its body on are answers of
    distinct rounds that the partitioner sent ([delivered]), the loop's
    variables and callback invocations are those of [results_loop] on these
    values, the buffer of [work] never exceeds [workers], [work] is closed
    only after [done], and once the call has returned its callback
    invocations are those of [scan_events] on these values. *)
Theorem schedules_run_and_deliver (workers : nat) w currency startIndex maxEmptyRounds
    addressCount lastKnownIndex schedule :
  Z.of_nat (length schedule) < 2 ^ 63 →
  ∃ g,
    run_schedule workers w currency maxEmptyRounds addressCount lastKnownIndex schedule
      (goroutines_init workers startIndex) = Some g ∧
    delivered w startIndex addressCount (gReceived g) ∧
    slice_len (gReceived g) ∧
    results_loop maxEmptyRounds lastKnownIndex scan_init (gReceived g)
      = Some (gLoop g, gEvents g, gReturned g) ∧
    (length (gWork g) ≤ workers)%nat ∧
    (gAt g = AtReturn → done (gLoop g) = true) ∧
    (∀ evs, run_events w g = Some evs →
            scan_events w maxEmptyRounds lastKnownIndex (gReceived g) = Some evs).
Proof.
  intros Hlen.
  destruct (run_schedule_tracked workers w currency startIndex maxEmptyRounds addressCount
              lastKnownIndex schedule Hlen) as (g & sent & received & hand & slots & Hrun & Htr & Hsent).
  exists g. split; [done|].
  split; [eapply tracked_delivered; [exact Htr|lia64]|].
  split; [pose proof (tracked_received_le _ _ _ _ _ _ _ _ _ _ _ _ Htr); lia64|].
  split; [by destruct Htr|]. split; [by destruct Htr|]. split; [by destruct Htr|].
  intros evs. by eapply tracked_scan_events.
Qed.

(** X20.  Over-scan is bounded.  Once the results that the loop has
    processed so far have closed [done], the loop processes at most
    [2 * workers + 1] further results, those that wait in the buffer of
    [work] included: the rounds the workers hold, those in the buffer, the
    one the partitioner may be sending, and the one a worker may take from
    the buffer between the loop's receive and the end of its body. *)
Theorem overscan_is_bounded (workers : nat) w currency startIndex maxEmptyRounds addressCount
    lastKnownIndex schedule g pre post st evs returned :
  Z.of_nat (length schedule) < 2 ^ 63 →
  run_schedule workers w currency maxEmptyRounds addressCount lastKnownIndex schedule
    (goroutines_init workers startIndex) = Some g →
  gReceived g = pre ++ post →
  results_loop maxEmptyRounds lastKnownIndex scan_init pre = Some (st, evs, returned) →
  done st = true →
  (length post + length (gWork g) ≤ 2 * workers + 1)%nat.
Proof.
  intros Hlen Hrun Heq Hpre Hd.
  destruct (run_schedule_reached _ _ _ _ _ _ _ _ _ Hlen Hrun)
    as (sent & received & hand & slots & Htr & _).
  by eapply tracked_overscan.
Qed.

(** X18.  A failed lookup ends the scan.  When the loop has processed a
    result that carries an error, [done] is closed and a worker has
    returned; the loop processes at most [2 * workers + 1] further results,
    those that wait in [work] included.  With one worker it processes
    nothing at all after it, and the results before it carry no error and
    came in round order: the one at position [i] is the result of round
    [i]. *)
Theorem failed_lookup_ends_scan (workers : nat) w currency startIndex maxEmptyRounds
    addressCount lastKnownIndex schedule g pre res post :
  Z.of_nat (length schedule) < 2 ^ 63 →
  run_schedule workers w currency maxEmptyRounds addressCount lastKnownIndex schedule
    (goroutines_init workers startIndex) = Some g →
  gReceived g = pre ++ res :: post → Error res ≠ None →
  done (gLoop g) = true ∧ AtExit ∈ gWorkers g ∧
  (length post + length (gWork g) ≤ 2 * workers + 1)%nat ∧
  (workers = 1%nat →
   post = [] ∧
   ∀ (i : nat) r, pre !! i = Some r → Error r = None ∧ Round r = Z.of_nat i).
Proof.
  intros Hlen Hrun Heq HErr.
  destruct (run_schedule_reached _ _ _ _ _ _ _ _ _ Hlen Hrun)
    as (sent & received & hand & slots & Htr & Hsent).
  destruct (tracked_after_error _ _ _ _ _ _ _ _ _ _ _ _ _ _ _ Htr Heq HErr)
    as (Hd & Hexit & Hbound & Hone).
  split; [done|]. split; [done|]. split; [done|].
  intros H1. split; [by apply Hone|]. intros i r Hi.
  destruct (tracked_one_worker_before_error _ _ _ _ _ _ _ _ _ _ _ _ _ _ _ Htr H1
              ltac:(lia64) Heq i r Hi) as (_ & Hround & Hno).
  destruct (Error r) as [err|] eqn:HErr'; [by destruct Hno|]. split; [done|by apply Hround].
Qed.




End RunsOfTheGoroutines.

(** * Concrete runs *)

Section ConcreteRuns.
Local Existing Instance Demo.wallet.

Lemma demo_json_total ledger down : @json_total Demo.wallet (Demo.services ledger down).
Proof. intros p. by exists tt. Qed.

Lemma run_ahead_length : Z.of_nat (length (Demo.run_ahead 12)) < 2 ^ 63.
Proof. by vm_compute. Qed.

Lemma late_round_0_length : Z.of_nat (length Cases.late_round_0) < 2 ^ 63.
Proof. by vm_compute. Qed.


(** The demonstration scan is a run of the goroutines. *)
Lemma scan_of_runs (services : @Services Demo.wallet) :
  run_schedule (services := services) 1 tt "sc" 2 20 0 (Demo.run_ahead 12)
    (goroutines_init 1 0) = Some (Demo.scan_of services).
Proof.
  destruct (run_schedule_tracked (services := services) 1 tt "sc" 0 2 20 0
              (Demo.run_ahead 12) run_ahead_length) as (g & ? & ? & ? & ? & Hrun & _).
  unfold Demo.scan_of. by rewrite Hrun.
Qed.

Lemma arrivals_of_delivered (services : @Services Demo.wallet) :
  delivered tt 0 20 (Demo.arrivals_of services).
Proof.
  pose proof run_ahead_length as Hlen.
  destruct (run_schedule_reached (services := services) 1 tt "sc" 0 2 20 0
              (Demo.run_ahead 12) _ Hlen (scan_of_runs services))
    as (sent & received & hand & slots & Htr & Hsent).
  eapply tracked_delivered; [exact Htr|]. rewrite two64_eq. lia.
Qed.

Lemma spent65_delivered : delivered tt 0 20 Demo.spent65_arrivals.
Proof. apply arrivals_of_delivered. Qed.

Lemma round2_down_delivered : delivered tt 0 20 Demo.round2_down_arrivals.
Proof. apply arrivals_of_delivered. Qed.

Lemma consecutiveEmptyRounds_counts_run_witness :
  ∃ k, consecutiveEmptyRounds [1; 3; 0; 2] = Some k ∧
       consecutive_run [1; 3; 0; 2] k ∧
       ([1; 3; 0; 2] = [] → k = 0) ∧
       (∀ fuel k', consecutiveEmptyRounds_fuel fuel [1; 3; 0; 2] = Some k' → k' = k) ∧
       ((∀ j, 0 ≤ j ≤ max_round [1; 3; 0; 2] → j ∈ [1; 3; 0; 2]) →
        walk_down (S (length [1; 3; 0; 2])) (collect_rounds [1; 3; 0; 2]).2
          (max_round [1; 3; 0; 2]) = Some (two64 - 1) ∧
        k = wrap64 (max_round [1; 3; 0; 2] - (two64 - 1)) ∧
        k = max_round [1; 3; 0; 2] + 1).
Proof.
  apply (consecutiveEmptyRounds_counts_run [1; 3; 0; 2]).
  - repeat constructor; unfold two64; lia.
  - unfold slice_len. simpl. lia.
Defined.

Lemma error_result_leaves_state_witness :
  ∃ st',
    loop_body (services := Demo.round2_down) 2 0 Demo.two_recorded Demo.failed_lookup
      = Some (st', [], false) ∧
    lastIndex st' = 0 ∧ lastUsageType st' = "" ∧ usedTotal st' = 0 ∧
    empty st' = [0; 2] ∧ done st' = true.
Proof.
  apply (error_result_leaves_state (services := Demo.round2_down) 2 0
           Demo.two_recorded Demo.failed_lookup "unable to get used addresses: timeout").
  reflexivity.
Defined.

(** Round 1 arrives empty after rounds 0 and 2: it is recorded, the run at
    the largest round is then 3 long, and [done] is closed. *)
Lemma termination_monitor_step_witness :
  ∃ st' evs returned,
    loop_body (services := Demo.unused) 2 0 Demo.two_recorded Demo.empty_round1
      = Some (st', evs, returned) ∧
    empty st' = [0; 2; 1] ∧
    consecutiveEmptyRounds (empty st') = Some 3 ∧
    done st' = true.
Proof.
  destruct (termination_monitor_step (services := Demo.unused) 2 0
              Demo.two_recorded Demo.empty_round1)
    as (st' & evs & returned & Hbody & _ & Hrec & _).
  - reflexivity.
  - unfold uint64, two64. simpl. lia.
  - repeat constructor; unfold two64; simpl; lia.
  - unfold slice_len. simpl. lia.
  - destruct Hrec as (He & k & Hk & _ & Hd).
    + split; [reflexivity|]. simpl. lia.
    + exists st', evs, returned. split; [exact Hbody|]. split; [exact He|].
      rewrite He in Hk. assert (k = 3) as -> by (vm_compute in Hk; congruence).
      split; [by rewrite He|]. apply Hd. right. lia.
Defined.

Lemma spent65_slice_len : slice_len Demo.spent65_arrivals.
Proof. unfold slice_len. vm_compute. reflexivity. Qed.

Lemma round2_down_slice_len : slice_len Demo.round2_down_arrivals.
Proof. unfold slice_len. vm_compute. reflexivity. Qed.

Lemma scan_state_only_grows_witness :
  ∃ st_end evs returned,
    results_loop (services := Demo.spent65) 2 0 scan_init Demo.spent65_arrivals
      = Some (st_end, evs, returned) ∧
    NoDup (empty st_end).
Proof.
  pose proof (scan_state_only_grows (services := Demo.spent65) tt 0 20 2 0
                Demo.spent65_arrivals spent65_delivered spent65_slice_len) as Hrun.
  destruct Hrun as (st_end & evs & returned & Hloop & Hnd & _).
  exists st_end, evs, returned. split; [exact Hloop|exact Hnd].
Defined.

Lemma done_index_dominates_witness :
  ∃ evs,
    scan_events (services := Demo.round2_down) tt 2 0 Demo.round2_down_arrivals = Some evs ∧
    (∀ additional index,
       EvDone additional index ∈ evs →
       (∀ found addresses index', EvProgress found addresses index' ∈ evs → index' ≤ index) ∧
       (∀ res, res ∈ Demo.round2_down_arrivals → Error res = None →
               LastUsedIndex res ≤ index)) ∧
    (@json_total Demo.wallet Demo.round2_down →
     ∃ additional index, last evs = Some (EvDone additional index)).
Proof.
  exact (done_index_dominates (services := Demo.round2_down) tt 0 20 2 0
           Demo.round2_down_arrivals round2_down_delivered round2_down_slice_len).
Defined.

(** The run of the scenario: round 3 reports index 65 as sent, the later
    rounds are empty; the done event carries index 66 and the address
    derived at index 66. *)
Lemma done_extra_address_witness :
  ∃ progress,
    scan_events (services := Demo.spent65) tt 2 0 Demo.spent65_arrivals
      = Some (progress ++ [EvDone [generateAddress tt 66] 66]) ∧
    Round <$> Demo.spent65_arrivals = [0; 1; 2; 3; 4; 5; 6; 7; 8] ∧
    LastUsedIndex <$> Demo.spent65_arrivals = [5; 25; 45; 65; 0; 0; 0; 0; 0] ∧
    LastUsedType <$> Demo.spent65_arrivals
      = ["received"; "received"; "received"; "sent"; ""; ""; ""; ""; ""].
Proof.
  pose proof (done_extra_address (services := Demo.spent65) tt 0 20 2 0
                Demo.spent65_arrivals spent65_delivered spent65_slice_len
                (demo_json_total _ _)) as Hrun.
  destruct Hrun
    as (index & type & progress & additional & done_index & _ & Hscan & _ & _ & _ & Hrun).
  exists progress. split; [|split; [|split]]; [|vm_compute; reflexivity..].
  assert (Hsmall : Forall (λ r : recoveryResults, LastUsedIndex r < 65)
                     (take 3 Demo.spent65_arrivals ++ drop 4 Demo.spent65_arrivals)).
  { vm_compute. repeat constructor. }
  destruct (Hrun (take 3 Demo.spent65_arrivals)
              (default Demo.failed_lookup (Demo.spent65_arrivals !! 3%nat))
              (drop 4 Demo.spent65_arrivals)) as [-> ->].
  - vm_compute. reflexivity.
  - vm_compute. reflexivity.
  - vm_compute. reflexivity.
  - vm_compute. reflexivity.
  - intros r Hr _. rewrite Forall_forall in Hsmall. by apply Hsmall.
  - exact Hscan.
Defined.


Lemma invalid_seed_rejected_zero_count_scanned_witness :
  RecoverAddresses (services := Demo.spent65) "" "sc" 7 2 0 0 Demo.spent65_arrivals
    = Some [EvError "unable to recover wallet: invalid seed"] ∧
  RecoverAddresses_run (services := Demo.spent65) 1 (Demo.run_ahead 12) "" "sc" 7 2 0 0
    = Some [EvError "unable to recover wallet: invalid seed"].
Proof.
  apply (invalid_seed_rejected_zero_count_scanned (services := Demo.spent65) "" "sc" 7 2 0).
  unfold uint64, two64. lia.
Defined.

Lemma partitioner_rounds_witness :
  issued 7 20 3 = {| wRound := 3; wStart := 67; wEnd := 87 |} ∧
  round_indices (issued 7 20 3) = seqZ 67 20.
Proof.
  apply (partitioner_rounds 7 20 3).
  - unfold uint64, two64. lia.
  - unfold two64. lia.
  - unfold two64. simpl. lia.
Defined.

(** C1.  The lookup of round 2 fails.  With one worker, whatever the
    schedule, a call that has returned has invoked the callback with the
    progress events of rounds 0 and 1 and then with a done event with index
    25: the third value received carries the error, and no error event is
    emitted.  The call does return under the schedule in which the
    partitioner runs ahead.  With any number of workers and any schedule, a
    call that has returned has emitted no error event and has ended with a
    done event. *)
Theorem lookup_failure_ends_with_done :
  (∀ schedule evs,
     Z.of_nat (length schedule) < 2 ^ 63 →
     RecoverAddresses_run (services := Demo.round2_down) 1 schedule "seed" "sc" 0 2 20 0
       = Some evs →
     evs = Cases.round2_down_events) ∧
  Error <$> Demo.round2_down_arrivals
    = [None; None; Some "unable to get used addresses: timeout"] ∧
  RecoverAddresses_run (services := Demo.round2_down) 1 (Demo.run_ahead 12)
    "seed" "sc" 0 2 20 0 = Some Cases.round2_down_events ∧
  RecoverAddresses (services := Demo.round2_down) "seed" "sc" 0 2 20 0
    Demo.round2_down_arrivals = Some Cases.round2_down_events ∧
  is_progress <$> Cases.round2_down_events = [true; true; false] ∧
  Forall (λ ev, is_error ev = false) Cases.round2_down_events ∧
  last Cases.round2_down_events = Some (EvDone [] 25) ∧
  (∀ (workers : nat) schedule evs,
     Z.of_nat (length schedule) < 2 ^ 63 →
     RecoverAddresses_run (services := Demo.round2_down) workers schedule
       "seed" "sc" 0 2 20 0 = Some evs →
     Forall (λ ev, is_error ev = false) evs ∧
     ∃ additional index, last evs = Some (EvDone additional index)).
Proof.
  split; [|split_and!].
  - intros schedule evs Hlen Hevs.
    rewrite (RecoverAddresses_run_eq (services := Demo.round2_down) 1 schedule
               "seed" "sc" tt 0 2 20 0 eq_refl) in Hevs.
    destruct (run_schedule _ _ _ _ _ _ _ _) as [g|] eqn:Hrun; [|done]. simpl in Hevs.
    destruct (run_schedule_reached (services := Demo.round2_down) 1 tt "sc" 0 2 20 0
                schedule g Hlen Hrun) as (sent & received & hand & slots & Htr & Hsent).
    pose proof (tracked_one_worker _ _ _ _ _ _ _ _ _ _ _ _ Htr eq_refl) as Hord.
    assert (Hloop : results_loop (services := Demo.round2_down) 2 0 scan_init (gReceived g)
                      = Some (gLoop g, gEvents g, gReturned g)) by by destruct Htr.
    pose proof (results_loop_json_total _ _ _ _ _ _ _ (demo_json_total _ _) Hloop) as Hret.
    unfold run_events in Hevs. rewrite Hret in Hevs.
    destruct (gHanded g) eqn:Hhand; [done|].
    destruct (results_closed g) eqn:Hcl; [|done]. injection Hevs as <-.
    remember (gLoop g) as st eqn:Hst. remember (gEvents g) as evs eqn:Hev.
    clear Hev. rewrite Hret in Hloop.
    assert (Hopen : ∀ n : nat, (n ≤ 2)%nat → length (gReceived g) = n → False).
    { intros n Hn Hlength. rewrite Hlength in Hord.
      assert (Hok : Forall (λ res : recoveryResults, Error res = None) (gReceived g)).
      { rewrite Hord. destruct n as [|[|[|n]]]; [| | |lia]; vm_compute; repeat constructor. }
      destruct (tracked_closed _ _ _ _ _ _ _ _ _ _ _ _ Htr Nat.lt_0_1 Hcl Hhand Hok)
        as (_ & _ & Hd & _ & _).
      rewrite Hord in Hloop. rewrite <- Hst in Hd.
      destruct n as [|[|[|n]]]; [| | |lia]; vm_compute in Hloop;
        injection Hloop as Hg _; rewrite <- Hg in Hd; discriminate. }
    destruct (length (gReceived g)) as [|[|[|n]]] eqn:Hn;
      [exfalso; by apply (Hopen 0%nat); [lia|]|exfalso; by apply (Hopen 1%nat); [lia|]|
       exfalso; by apply (Hopen 2%nat); [lia|]|].
    change (seq 0 (S (S (S n)))) with ([0; 1] ++ 2 :: seq 3 n)%nat in Hord.
    rewrite fmap_app, fmap_cons in Hord.
    destruct (tracked_after_error _ _ _ _ _ _ _ _ _ _ _ _ _ _ _ Htr Hord) as (_ & _ & _ & Hnil).
    { by vm_compute. }
    destruct (Hnil eq_refl) as [Hpost _]. destruct n as [|n]; [|done].
    rewrite Hord in Hloop.
    vm_compute in Hloop. injection Hloop as <- <-. vm_compute. reflexivity.
  - by vm_compute.
  - by vm_compute.
  - by vm_compute.
  - done.
  - repeat constructor.
  - done.
  - intros workers schedule evs Hlen Hevs.
    by apply (run_ends_with_done (services := Demo.round2_down) workers schedule
                "seed" "sc" tt 0 2 20 0 evs eq_refl (demo_json_total _ _) Hlen).
Qed.

(** The sibling path: a failure of the JSON bridge on the first progress map
    is reported with an error event, and the function returns. *)
Example json_failure_is_reported :
  RecoverAddresses_run (services := Demo.services_broken_json) 1 (Demo.run_ahead 12)
    "seed" "sc" 0 2 20 0 = Some [EvError "json: unsupported value"].
Proof. by vm_compute. Qed.


(** Against C5 as stated: with [addressCount = 0] and a valid seed the scan
    is not refused; rounds are sent and reported with progress events. *)
Lemma zero_addressCount_not_rejected :
  run_schedule (services := Demo.unused) 1 tt "sc" 2 0 0 (Demo.run_ahead 12)
    (goroutines_init 1 7) = Some Cases.zero_count_scan ∧
  Round <$> gReceived Cases.zero_count_scan = [0; 1; 2; 3; 4] ∧
  Start <$> gReceived Cases.zero_count_scan = [7; 7; 7; 7; 7] ∧
  End <$> gReceived Cases.zero_count_scan = [7; 7; 7; 7; 7] ∧
  RecoverAddresses_run (services := Demo.unused) 1 (Demo.run_ahead 12) "seed" "sc" 7 2 0 0
    = Some [EvProgress 0 [] 0; EvProgress 0 [] 0; EvProgress 0 [] 0; EvProgress 0 [] 0;
            EvProgress 0 [] 0; EvDone [] 0].
Proof. split_and!; by vm_compute. Qed.

(** Against C8 as stated: from the largest [startIndex] a round of two
    addresses ends at 1, not at [2^64 + 1], and covers no index at all. *)
Lemma partitioner_round_wraps :
  uint64 (two64 - 1) ∧ 0 < 2 < two64 ∧
  wEnd (issued (two64 - 1) 2 0) = 1 ∧
  wEnd (issued (two64 - 1) 2 0) ≠ (two64 - 1) + (0 + 1) * 2 ∧
  round_indices (issued (two64 - 1) 2 0) = [] ∧
  round_indices (issued (two64 - 1) 2 0) ≠ seqZ (two64 - 1 + 0 * 2) 2.
Proof.
  split; [unfold uint64, two64; lia|]. split; [unfold two64; lia|].
  split; [by vm_compute|]. split; [by vm_compute|]. split; [by vm_compute|].
  by vm_compute.
Qed.

End ConcreteRuns.

(** * Concrete runs of the further properties *)

Section MoreConcreteRuns.
Local Existing Instance Demo.wallet.

Lemma spent65_result_ok : Forall result_ok Demo.spent65_arrivals.
Proof. exact (delivered_result_ok tt 0 20 _ spent65_delivered). Qed.

Lemma spent0_delivered : delivered tt 0 20 Cases.spent0_arrivals.
Proof. apply arrivals_of_delivered. Qed.

Lemma spent0_slice_len : slice_len Cases.spent0_arrivals.
Proof. unfold slice_len. vm_compute. reflexivity. Qed.

Lemma consecutiveEmptyRounds_same_elements_witness :
  consecutiveEmptyRounds [2; 0; 1] = consecutiveEmptyRounds [0; 1; 2; 1; 0] ∧
  is_Some (consecutiveEmptyRounds [2; 0; 1]).
Proof.
  apply (consecutiveEmptyRounds_same_elements [2; 0; 1] [0; 1; 2; 1; 0]).
  - repeat constructor; unfold two64; lia.
  - repeat constructor; unfold two64; lia.
  - unfold slice_len. simpl. lia.
  - unfold slice_len. simpl. lia.
  - intros x. rewrite !elem_of_cons, !elem_of_nil. tauto.
Defined.

Lemma consecutiveEmptyRounds_bounds_witness :
  ∃ k, consecutiveEmptyRounds [1; 3; 0; 2] = Some k ∧
       1 ≤ k ≤ Z.of_nat (length [1; 3; 0; 2]) ∧ k ≤ max_round [1; 3; 0; 2] + 1.
Proof.
  apply (consecutiveEmptyRounds_bounds [1; 3; 0; 2]).
  - repeat constructor; unfold two64; lia.
  - unfold slice_len. simpl. lia.
  - done.
Defined.

Lemma consecutiveEmptyRounds_record_witness :
  consecutiveEmptyRounds ([0; 1] ++ [2]) = Some (2 + 1).
Proof.
  apply (consecutiveEmptyRounds_record [0; 1] 2 2).
  - repeat constructor; unfold two64; lia.
  - unfold uint64, two64. lia.
  - unfold slice_len. simpl. lia.
  - reflexivity.
  - done.
  - reflexivity.
Defined.

Lemma partitioner_rounds_tile_witness :
  concat ((λ k, round_indices (issued 7 20 k)) <$> seq 0 3) = seqZ 7 (Z.of_nat 3 * 20).
Proof.
  apply (partitioner_rounds_tile 7 20 3).
  - unfold uint64, two64. lia.
  - lia.
  - unfold two64. simpl. lia.
Defined.

Lemma done_closed_only_for_a_reason_witness :
  ∃ st' evs returned,
    results_loop (services := Demo.spent65) 2 0 scan_init Demo.spent65_arrivals
      = Some (st', evs, returned) ∧
    (done st' = true →
     (∃ res, res ∈ Demo.spent65_arrivals ∧ Error res ≠ None) ∨
     (empty st' ≠ [] ∧ 2 ≤ Z.of_nat (length (empty st')))).
Proof.
  pose proof (done_closed_only_for_a_reason (services := Demo.spent65) 2 0
                Demo.spent65_arrivals spent65_result_ok spent65_slice_len) as Hrun.
  destruct Hrun as (st' & evs & returned & Hloop & Hwhy & _).
  exists st', evs, returned. split; [exact Hloop|exact Hwhy].
Defined.

Lemma usedTotal_counts_addresses_witness :
  ∃ st' evs returned processed rest,
    results_loop (services := Demo.spent65) 2 0 scan_init Demo.spent65_arrivals
      = Some (st', evs, returned) ∧
    Demo.spent65_arrivals = processed ++ rest ∧ (returned = false → rest = []) ∧
    length evs = length (filter (λ res, no_error res) processed) ∧
    usedTotal st' =
      wrap64 (Z.of_nat (sum_list_with (λ res, length (Addresses res))
                          (filter (λ res, no_error res) processed))).
Proof.
  exact (usedTotal_counts_addresses (services := Demo.spent65) 2 0
           Demo.spent65_arrivals spent65_result_ok spent65_slice_len).
Defined.

Lemma events_ignore_usedTotal_and_done_witness :
  ∃ st2',
    results_loop (services := Demo.unused) 2 0 Cases.two_recorded_closed [Demo.empty_round1]
      = Some (st2', [EvProgress 0 [] 0], false) ∧
    same_aggregation (Cases.three_recorded 0) st2'.
Proof.
  apply (events_ignore_usedTotal_and_done (services := Demo.unused) 2 0
           Demo.two_recorded Cases.two_recorded_closed [Demo.empty_round1]
           (Cases.three_recorded 0) [EvProgress 0 [] 0] false).
  - done.
  - vm_compute. reflexivity.
Defined.

Lemma progress_reports_every_result_witness :
  ∃ st' evs,
    results_loop (services := Demo.spent65) 2 0 scan_init Demo.spent65_arrivals
      = Some (st', evs, false) ∧
    Forall (λ ev, is_progress ev = true) evs ∧
    event_addresses <$> evs = Addresses <$> filter (λ res, no_error res) Demo.spent65_arrivals ∧
    event_found <$> evs =
      (λ res, Some (Z.of_nat (length (Addresses res))))
        <$> filter (λ res, no_error res) Demo.spent65_arrivals ∧
    concat (event_addresses <$> evs) = concat (Addresses <$> Demo.spent65_arrivals).
Proof.
  exact (progress_reports_every_result (services := Demo.spent65) tt 0 20 2 0
           Demo.spent65_arrivals spent65_delivered spent65_slice_len (demo_json_total _ _)).
Defined.

Lemma progress_indices_never_decrease_witness :
  ∃ st' evs returned,
    results_loop (services := Demo.spent65) 2 0 scan_init Demo.spent65_arrivals
      = Some (st', evs, returned) ∧
    StronglySorted Z.le (omap progress_index evs) ∧
    Forall (λ i, 0 ≤ i ≤ lastIndex st') (omap progress_index evs).
Proof.
  exact (progress_indices_never_decrease (services := Demo.spent65) 2 0
           Demo.spent65_arrivals spent65_result_ok spent65_slice_len).
Defined.

(** The results of rounds 0 and 3 in both orders: same done event. *)
Lemma final_report_order_independent_witness :
  ∃ progress progress' final,
    scan_events (services := Demo.spent65) tt 2 0 [Cases.received5; Cases.sent65]
      = Some (progress ++ [final]) ∧
    scan_events (services := Demo.spent65) tt 2 0 [Cases.sent65; Cases.received5]
      = Some (progress' ++ [final]).
Proof.
  pose proof (final_report_order_independent (services := Demo.spent65) tt 2 0
                [Cases.received5; Cases.sent65] [Cases.sent65; Cases.received5]) as Hrun.
  destruct Hrun as (st & evs & st' & evs' & final & _ & _ & _ & _ & _ & _ & H1 & H2).
  - apply perm_swap.
  - repeat constructor; vm_compute; try done; by split.
  - unfold slice_len. simpl. lia.
  - apply demo_json_total.
  - assert (Hidx : LastUsedIndex Cases.received5 ≠ LastUsedIndex Cases.sent65)
      by (vm_compute; discriminate).
    intros r r' Hr Hr' _ _ Heq.
    apply elem_of_cons in Hr as [->|Hr]; [|apply list_elem_of_singleton in Hr as ->];
      (apply elem_of_cons in Hr' as [->|Hr']; [|apply list_elem_of_singleton in Hr' as ->]);
      congruence.
  - by exists evs, evs', final.
Defined.

Lemma run_ends_with_one_terminal_event_witness :
  ∃ evs ev,
    RecoverAddresses (services := Demo.spent65) "seed" "sc" 0 2 20 0 Demo.spent65_arrivals
      = Some evs ∧
    last evs = Some ev ∧
    filter (λ ev, is_terminal ev) evs = [ev] ∧
    filter (λ ev, is_progress ev) evs ++ [ev] = evs.
Proof.
  exact (run_ends_with_one_terminal_event (services := Demo.spent65) "seed" "sc" 0 2 20 0
           Demo.spent65_arrivals spent65_result_ok spent65_slice_len).
Defined.

(** Address 0 was spent from: the done event still proposes nothing. *)
Lemma only_index_zero_used_witness :
  (UsageType <$> concat (Addresses <$> Cases.spent0_arrivals)) = ["sent"] ∧
  ∃ progress,
    scan_events (services := Cases.spent0) tt 2 0 Cases.spent0_arrivals
      = Some (progress ++ [EvDone [] 0]) ∧
    Forall (λ ev, is_progress ev = true) progress.
Proof.
  split; [vm_compute; reflexivity|].
  assert (Hzero : Forall (λ res : recoveryResults, Forall (λ a, Index a = 0) (Addresses res))
                    Cases.spent0_arrivals).
  { vm_compute. repeat constructor. }
  apply (only_index_zero_used (services := Cases.spent0) tt 0 20 2 0 Cases.spent0_arrivals
           spent0_delivered spent0_slice_len (demo_json_total _ _)).
  intros res a Hres Ha. rewrite Forall_forall in Hzero.
  specialize (Hzero res Hres). rewrite Forall_forall in Hzero. by apply Hzero.
Defined.


(** The lookup of round 2 fails: nothing is received after its result. *)
Lemma failed_lookup_ends_scan_witness :
  done (gLoop (Demo.scan_of Demo.round2_down)) = true ∧
  AtExit ∈ gWorkers (Demo.scan_of Demo.round2_down) ∧
  (length (@nil (@recoveryResults Demo.wallet))
     + length (gWork (Demo.scan_of Demo.round2_down)) ≤ 2 * 1 + 1)%nat ∧
  (1%nat = 1%nat →
   @nil (@recoveryResults Demo.wallet) = [] ∧
   ∀ (i : nat) r,
     take 2 Demo.round2_down_arrivals !! i = Some r →
     Error r = None ∧ Round r = Z.of_nat i).
Proof.
  apply (failed_lookup_ends_scan (services := Demo.round2_down) 1 tt "sc" 0 2 20 0
           (Demo.run_ahead 12) (Demo.scan_of Demo.round2_down)
           (take 2 Demo.round2_down_arrivals) Demo.failed_lookup []).
  - apply run_ahead_length.
  - apply scan_of_runs.
  - vm_compute. reflexivity.
  - discriminate.
Defined.

Lemma schedules_run_and_deliver_witness :
  ∃ g,
    run_schedule (services := Demo.spent65) 1 tt "sc" 2 20 0 (Demo.run_ahead 12)
      (goroutines_init 1 0) = Some g ∧
    delivered tt 0 20 (gReceived g) ∧
    slice_len (gReceived g) ∧
    results_loop (services := Demo.spent65) 2 0 scan_init (gReceived g)
      = Some (gLoop g, gEvents g, gReturned g) ∧
    (length (gWork g) ≤ 1)%nat ∧
    (gAt g = AtReturn → done (gLoop g) = true) ∧
    (∀ evs, run_events (services := Demo.spent65) tt g = Some evs →
            scan_events (services := Demo.spent65) tt 2 0 (gReceived g) = Some evs).
Proof.
  exact (schedules_run_and_deliver (services := Demo.spent65) 1 tt "sc" 0 2 20 0
           (Demo.run_ahead 12) run_ahead_length).
Defined.

(** Two workers: [done] is closed by the results of rounds 1 and 2; one
    more result is received, and nothing is left in [work]. *)
Lemma overscan_is_bounded_witness :
  (length (drop 2 (gReceived Cases.late_round_0_scan))
     + length (gWork Cases.late_round_0_scan) ≤ 2 * 2 + 1)%nat.
Proof.
  eapply (overscan_is_bounded (services := Demo.unused) 2 tt "sc" 0 2 20 0
            Cases.late_round_0 Cases.late_round_0_scan
            (take 2 (gReceived Cases.late_round_0_scan))
            (drop 2 (gReceived Cases.late_round_0_scan)) _ _ false late_round_0_length).
  - vm_compute. reflexivity.
  - vm_compute. reflexivity.
  - vm_compute. reflexivity.
  - reflexivity.
Defined.

End MoreConcreteRuns.
